(** * Power-limited resistance explorer: the solver of [src/App.tsx]

    A shallow embedding of the numerical core of the React component
    [App] (the [useMemo] blocks that derive the electrical quantities and
    build the chart rows), and of the earlier power-only variant in
    [src/App_old.tsx].

    Numbers.  A JavaScript [number] is modelled by [JS.num]: a real number,
    one of the two infinities, or NaN.  The arithmetic is the one of
    ECMAScript on these values (NaN is absorbing, [0/0] and [Inf - Inf] are
    NaN, [x/0] is an infinity, every comparison with NaN is false,
    [Math.max] and [Math.min] return NaN as soon as one argument is NaN),
    computed exactly: rounding, overflow and underflow of binary64 are not
    modelled, and the two zeros are identified (a zero denominator is [+0]).

    State.  Every numeric piece of component state is set through
    [number(...)], which replaces a non-finite value by [0]; the fields of
    [params] are therefore reals.  The list [selected] holds the supply
    limits in watt: presets or the result of [Math.round], hence integers.

    Control.  The loop over the [N_ID + 1] samples of [id] and the loop over
    [selected] are folds; the loop over the rows, whose bound [step] is a
    number of the state, takes fuel, and is shown to return.  A row, a
    JavaScript object, is a finite map from keys to numbers.

    Layout.  The embedding comes first; the real-valued counterparts used
    in the statements and the specification-side definitions follow; then
    the properties, one section per claim of the specification. *)

From Stdlib Require Import Reals Lra Lia ZArith List Bool Ascii String.
From stdpp Require Import base option list gmap strings pretty.
From stdpp Require Import sorting.

Local Open Scope R_scope.

(** ** JavaScript numbers *)

Module JS.

Inductive num : Type :=
| NaN : num
| PInf : num
| NInf : num
| Fin (x : R) : num.

(** Sign of a real, as the three-way split used by the special cases. *)
Definition Rsign (x : R) : comparison :=
  match total_order_T x 0 with
  | inleft (left _) => Lt
  | inleft (right _) => Eq
  | inright _ => Gt
  end.

Definition Rltb (x y : R) : bool := if Rlt_dec x y then true else false.
Definition Rleb (x y : R) : bool := if Rle_dec x y then true else false.

(** Unary minus. *)
Definition neg (a : num) : num :=
  match a with
  | NaN => NaN
  | PInf => NInf
  | NInf => PInf
  | Fin x => Fin (- x)
  end.

(** [a + b]. *)
Definition add (a b : num) : num :=
  match a, b with
  | NaN, _ | _, NaN => NaN
  | PInf, NInf | NInf, PInf => NaN
  | PInf, _ | _, PInf => PInf
  | NInf, _ | _, NInf => NInf
  | Fin x, Fin y => Fin (x + y)
  end.

(** [a - b]. *)
Definition sub (a b : num) : num := add a (neg b).

(** An infinity of the given sign; a zero sign gives NaN ([0 * Infinity]). *)
Definition inf_of_sign (s : comparison) : num :=
  match s with
  | Lt => NInf
  | Eq => NaN
  | Gt => PInf
  end.

(** [a * b]. *)
Definition mul (a b : num) : num :=
  match a, b with
  | NaN, _ | _, NaN => NaN
  | PInf, PInf | NInf, NInf => PInf
  | PInf, NInf | NInf, PInf => NInf
  | PInf, Fin y | Fin y, PInf => inf_of_sign (Rsign y)
  | NInf, Fin y | Fin y, NInf => inf_of_sign (CompOpp (Rsign y))
  | Fin x, Fin y => Fin (x * y)
  end.

(** [a / b].  A zero denominator is [+0]: [x/0] is the infinity of the sign
    of [x], and [0/0] is NaN. *)
Definition div (a b : num) : num :=
  match a, b with
  | NaN, _ | _, NaN => NaN
  | (PInf | NInf), (PInf | NInf) => NaN
  | Fin _, (PInf | NInf) => Fin 0
  | PInf, Fin y => if Rltb y 0 then NInf else PInf
  | NInf, Fin y => if Rltb y 0 then PInf else NInf
  | Fin x, Fin y =>
      match Rsign y with
      | Eq => inf_of_sign (Rsign x)
      | _ => Fin (x / y)
      end
  end.

(** [Math.sqrt]. *)
Definition sqrt (a : num) : num :=
  match a with
  | NaN | NInf => NaN
  | PInf => PInf
  | Fin x => if Rltb x 0 then NaN else Fin (R_sqrt.sqrt x)
  end.

(** [Math.max(a, b)]. *)
Definition max (a b : num) : num :=
  match a, b with
  | NaN, _ | _, NaN => NaN
  | PInf, _ | _, PInf => PInf
  | NInf, c | c, NInf => c
  | Fin x, Fin y => Fin (Rmax x y)
  end.

(** [Math.min(a, b)]. *)
Definition min (a b : num) : num :=
  match a, b with
  | NaN, _ | _, NaN => NaN
  | NInf, _ | _, NInf => NInf
  | PInf, c | c, PInf => c
  | Fin x, Fin y => Fin (Rmin x y)
  end.

(** [Math.min(a, b, c)]. *)
Definition min3 (a b c : num) : num := min (min a b) c.

(** [Math.pow(a, 2)]. *)
Definition pow2 (a : num) : num := mul a a.

(** [a < b]. *)
Definition lt (a b : num) : bool :=
  match a, b with
  | NaN, _ | _, NaN => false
  | _, NInf => false
  | NInf, _ => true
  | PInf, _ => false
  | Fin _, PInf => true
  | Fin x, Fin y => Rltb x y
  end.

(** [a <= b]. *)
Definition le (a b : num) : bool :=
  match a, b with
  | NaN, _ | _, NaN => false
  | NInf, _ => true
  | _, PInf => true
  | _, NInf => false
  | PInf, _ => false
  | Fin x, Fin y => Rleb x y
  end.

(** [a > b] and [a >= b]. *)
Definition gt (a b : num) : bool := lt b a.
Definition ge (a b : num) : bool := le b a.

(** [isFinite(a)]. *)
Definition isFinite (a : num) : bool :=
  match a with
  | Fin _ => true
  | _ => false
  end.

(** The conversion of a loop counter. *)
Definition of_nat (n : nat) : num := Fin (INR n).

(** The conversion of an integer number of watts. *)
Definition of_Z (z : Z) : num := Fin (IZR z).

End JS.

Import JS.

Declare Scope js_scope.
Delimit Scope js_scope with js.
Bind Scope js_scope with num.
Notation "- a" := (JS.neg a) : js_scope.
Infix "+" := JS.add : js_scope.
Infix "-" := JS.sub : js_scope.
Infix "*" := JS.mul : js_scope.
Infix "/" := JS.div : js_scope.
Infix "<?" := JS.lt (at level 70) : js_scope.
Infix "<=?" := JS.le (at level 70) : js_scope.
Infix ">?" := JS.gt (at level 70) : js_scope.
Infix ">=?" := JS.ge (at level 70) : js_scope.

(** ** The component state *)

Inductive ConstMode := KT | KV.
Inductive Mode := CONC | ECC.
Inductive Winding := DELTA | WYE.

(** One snapshot of the [useState] cells of [App]. *)
Record params : Type := {
  constMode : ConstMode;
  KtState : R;
  KvState : R;
  mode : Mode;
  Rll : R;
  Lll_uH : R;
  winding : Winding;
  copperTempC : R;
  Vbus : R;
  util : R;
  Imax : R;
  idFWmax : R;
  gearRatio : R;
  gearEff : R;
  drumRadius : R;
  maxSpeed : R;
  steps : R;
  selected : list Z
}.

(** The state after [resetDefaults] (also the initial state). *)
Definition defaults : params := {|
  constMode := KT;
  KtState := 0.272;
  KvState := 35;
  mode := CONC;
  Rll := 0.164;
  Lll_uH := 235;
  winding := DELTA;
  copperTempC := 25;
  Vbus := 48;
  util := 0.95;
  Imax := 72;
  idFWmax := 0;
  gearRatio := 10;
  gearEff := 0.9;
  drumRadius := 0.05;
  maxSpeed := 3;
  steps := 60;
  selected := [3000%Z]
|}.

(** The state setters ([useState] setters of [App]). *)
Definition setWinding (w : Winding) (p : params) : params := {|
  constMode := constMode p; KtState := KtState p; KvState := KvState p;
  mode := mode p; Rll := Rll p; Lll_uH := Lll_uH p; winding := w;
  copperTempC := copperTempC p; Vbus := Vbus p; util := util p;
  Imax := Imax p; idFWmax := idFWmax p; gearRatio := gearRatio p;
  gearEff := gearEff p; drumRadius := drumRadius p; maxSpeed := maxSpeed p;
  steps := steps p; selected := selected p
|}.

Definition setMode (m : Mode) (p : params) : params := {|
  constMode := constMode p; KtState := KtState p; KvState := KvState p;
  mode := m; Rll := Rll p; Lll_uH := Lll_uH p; winding := winding p;
  copperTempC := copperTempC p; Vbus := Vbus p; util := util p;
  Imax := Imax p; idFWmax := idFWmax p; gearRatio := gearRatio p;
  gearEff := gearEff p; drumRadius := drumRadius p; maxSpeed := maxSpeed p;
  steps := steps p; selected := selected p
|}.

Definition setRll (r : R) (p : params) : params := {|
  constMode := constMode p; KtState := KtState p; KvState := KvState p;
  mode := mode p; Rll := r; Lll_uH := Lll_uH p; winding := winding p;
  copperTempC := copperTempC p; Vbus := Vbus p; util := util p;
  Imax := Imax p; idFWmax := idFWmax p; gearRatio := gearRatio p;
  gearEff := gearEff p; drumRadius := drumRadius p; maxSpeed := maxSpeed p;
  steps := steps p; selected := selected p
|}.

Definition setSelected (l : list Z) (p : params) : params := {|
  constMode := constMode p; KtState := KtState p; KvState := KvState p;
  mode := mode p; Rll := Rll p; Lll_uH := Lll_uH p; winding := winding p;
  copperTempC := copperTempC p; Vbus := Vbus p; util := util p;
  Imax := Imax p; idFWmax := idFWmax p; gearRatio := gearRatio p;
  gearEff := gearEff p; drumRadius := drumRadius p; maxSpeed := maxSpeed p;
  steps := steps p; selected := l
|}.

Definition setKtState (x : R) (p : params) : params := {|
  constMode := constMode p; KtState := x; KvState := KvState p;
  mode := mode p; Rll := Rll p; Lll_uH := Lll_uH p; winding := winding p;
  copperTempC := copperTempC p; Vbus := Vbus p; util := util p;
  Imax := Imax p; idFWmax := idFWmax p; gearRatio := gearRatio p;
  gearEff := gearEff p; drumRadius := drumRadius p; maxSpeed := maxSpeed p;
  steps := steps p; selected := selected p
|}.

Definition setIdFWmax (x : R) (p : params) : params := {|
  constMode := constMode p; KtState := KtState p; KvState := KvState p;
  mode := mode p; Rll := Rll p; Lll_uH := Lll_uH p; winding := winding p;
  copperTempC := copperTempC p; Vbus := Vbus p; util := util p;
  Imax := Imax p; idFWmax := x; gearRatio := gearRatio p;
  gearEff := gearEff p; drumRadius := drumRadius p; maxSpeed := maxSpeed p;
  steps := steps p; selected := selected p
|}.

(** The default motor in eccentric mode with two supplies selected. *)
Definition eccentric : params := setSelected [450%Z; 3000%Z] (setMode ECC defaults).

(** The default motor with a zero line-to-line resistance. *)
Definition lossless : params := setRll 0 defaults.

(** Reduction of the fields of a concrete snapshot, and of nothing else. *)
Ltac fields :=
  unfold lossless, eccentric in *;
  cbn [constMode KtState KvState mode Rll Lll_uH winding copperTempC Vbus util
       Imax idFWmax gearRatio gearEff drumRadius maxSpeed steps selected
       defaults setWinding setMode setRll setSelected setKtState] in *.

(** ** Helpers *)

Definition LBF_PER_N : num := (Fin 1 / Fin 4.4482216152605)%js.
Definition KTKV : num := Fin 9.5492965964254.

(** [number(val)] on a value that is already a number. *)
Definition number (n : num) : num := if isFinite n then n else Fin 0.

(** The key [`${w} W`] of a series. *)
Definition series_key (w : Z) : string := pretty w +:+ " W".

(** ** Derived quantities (the [useMemo] cells) *)

Definition Kt (p : params) : num :=
  match constMode p with
  | KT => Fin (KtState p)
  | KV => (KTKV / JS.max (Fin 1e-9) (Fin (KvState p)))%js
  end.

Definition Kv (p : params) : num :=
  match constMode p with
  | KV => Fin (KvState p)
  | KT => (KTKV / JS.max (Fin 1e-9) (Fin (KtState p)))%js
  end.

Definition TmMax (p : params) : num := (Kt p * Fin (Imax p))%js.

Definition RphaseBase (p : params) : num :=
  match winding p with
  | WYE => (Fin (Rll p) / Fin 2)%js
  | DELTA => (Fin 1.5 * Fin (Rll p))%js
  end.

Definition LphaseBase (p : params) : num :=
  let Lll := (Fin (Lll_uH p) * Fin 1e-6)%js in
  match winding p with
  | WYE => (Lll / Fin 2)%js
  | DELTA => (Fin 1.5 * Lll)%js
  end.

Definition Rphase (p : params) : num :=
  let alpha := Fin 0.0039 in
  (RphaseBase p * (Fin 1 + alpha * (Fin (copperTempC p) - Fin 25)))%js.

Definition kcu (p : params) : num :=
  ((Fin 3 * Rphase p) / (Kt p * Kt p))%js.

Definition VphaseMax (p : params) : num :=
  ((Fin (util p) * Fin (Vbus p)) / JS.sqrt (Fin 3))%js.

Definition seriesKeys (p : params) : list string :=
  map series_key (selected p).

(** ** The solver: the body of the loop over [selected] in [data] *)

Definition N_ID : nat := 40.

Section Solver.

Variable p : params.
(** [omega_m], the motor speed of the current row. *)
Variable omega_m : num.

(** The voltage quadratic's coefficients that do not depend on [id]. *)
Definition A : num :=
  (Rphase p * Rphase p + (omega_m * LphaseBase p) * (omega_m * LphaseBase p))%js.

Definition Babs : num := (Fin 2 * Rphase p * omega_m * Kt p)%js.

(** The [k]-th sample of the field-weakening current. *)
Definition id (k : nat) : num :=
  (- Fin (idFWmax p) * (JS.of_nat k / JS.of_nat N_ID))%js.

Definition iqMaxCurrent (k : nat) : num :=
  JS.sqrt (JS.max (Fin 0) (Fin (Imax p) * Fin (Imax p) - id k * id k))%js.

Definition C (k : nat) : num :=
  ((Rphase p * id k) * (Rphase p * id k)
   + JS.pow2 (omega_m * (LphaseBase p * id k + Kt p))
   - VphaseMax p * VphaseMax p)%js.

Definition disc (k : nat) : num := (Babs * Babs - Fin 4 * A * C k)%js.

(** The two quotients of the voltage solve, [sqrtD] being
    [Math.sqrt(disc)]: the motoring one and the eccentric one. *)
Definition rootConc (k : nat) : num :=
  ((- Babs + JS.sqrt (disc k)) / (Fin 2 * A))%js.

Definition rootEcc (k : nat) : num :=
  ((Babs + JS.sqrt (disc k)) / (Fin 2 * A))%js.

Definition iqMaxVoltConc (k : nat) : num :=
  if (disc k >=? Fin 0)%js then JS.max (Fin 0) (rootConc k) else Fin 0.

Definition iqMaxVoltEcc (k : nat) : num :=
  if (disc k >=? Fin 0)%js then JS.max (Fin 0) (rootEcc k) else Fin 0.

Definition iqMaxVolt (k : nat) : num :=
  match mode p with
  | CONC => iqMaxVoltConc k
  | ECC => iqMaxVoltEcc k
  end.

(** The supply limit of the series being computed. *)
Variable Pin : Z.

Definition aP : num := (Fin 3 * Rphase p)%js.
Definition bP : num := (Kt p * omega_m)%js.
Definition cP (k : nat) : num :=
  (Fin 3 * Rphase p * id k * id k - JS.of_Z Pin)%js.
Definition Dp (k : nat) : num := (bP * bP - Fin 4 * aP * cP k)%js.

Definition iqMaxPower (k : nat) : num :=
  match mode p with
  | CONC =>
      if (Dp k >=? Fin 0)%js
      then JS.max (Fin 0) ((- bP + JS.sqrt (Dp k)) / (Fin 2 * aP))%js
      else Fin 0
  | ECC => PInf
  end.

Definition iqMax (k : nat) : num :=
  JS.min3 (iqMaxCurrent k) (iqMaxVolt k) (iqMaxPower k).

Definition Tm (k : nat) : num := (Kt p * iqMax k)%js.

(** One turn of the loop over [k]: [if (Tm > bestTm) bestTm = Tm]. *)
Definition bestTm_step (bestTm : num) (k : nat) : num :=
  if (Tm k >? bestTm)%js then Tm k else bestTm.

(** [bestTm] after the loop [for (k = 0; k <= N_ID; k++)]. *)
Definition bestTm : num := fold_left bestTm_step (seq 0 (S N_ID)) (Fin 0).

Definition TmFinal : num := JS.min bestTm (TmMax p).

Definition Tout : num := (TmFinal * Fin (gearRatio p) * Fin (gearEff p))%js.

Definition F : num := (Tout / JS.max (Fin 1e-9) (Fin (drumRadius p)))%js.

Definition lbf : num := (F * LBF_PER_N)%js.

(** The value stored under [`${Pin} W`]. *)
Definition force : num :=
  if isFinite lbf && (lbf >? Fin 0)%js then lbf else Fin 0.

End Solver.

(** ** The rows of the chart *)

Abbreviation row := (gmap string num).

Definition step (p : params) : num := JS.max (Fin 1) (Fin (steps p)).

(** The speed [v] of row [i]. *)
Definition speed_at (p : params) (i : nat) : num :=
  ((Fin (maxSpeed p) * JS.of_nat i) / step p)%js.

Definition omega_out (p : params) (i : nat) : num :=
  (speed_at p i / JS.max (Fin 1e-9) (Fin (drumRadius p)))%js.

Definition omega_m_at (p : params) (i : nat) : num :=
  (omega_out p i * Fin (gearRatio p))%js.

(** The assignment [row[`${Pin} W`] = f(Pin)]. *)
Definition put_series (f : Z -> num) (r : row) (Pin : Z) : row :=
  <[series_key Pin := f Pin]> r.

(** The row built by one turn of the outer loop. *)
Definition row_at (p : params) (i : nat) : row :=
  fold_left (put_series (force p (omega_m_at p i))) (selected p)
    {[ "speed" := speed_at p i ]}.

(** The loop [for (let i = 0; i <= step; i++)], from counter [i] on; it
    needs one unit of fuel per test of the loop condition. *)
Fixpoint rows_from (p : params) (fuel i : nat) : option (list row) :=
  match fuel with
  | O => None
  | S fuel' =>
      if (JS.of_nat i <=? step p)%js
      then match rows_from p fuel' (S i) with
           | Some arr => Some (row_at p i :: arr)
           | None => None
           end
      else Some []
  end.

(** The memo cell [data]. *)
Definition data (p : params) (fuel : nat) : option (list row) :=
  rows_from p fuel 0.

(** ** The power-only variant of [src/App_old.tsx] *)

(** The earlier component has the same state cells for the mechanics and the
    resistance, and [kcu] is computed by the same expression; its loop body
    is given here over the shared snapshot. *)
Module AppOld.

(** The torque of one (speed, supply) pair in [data]: the positive root of
    [kcu*T^2 + omega_m*T - Pin = 0] as the code computes it. *)
Definition Tm (kcu omega_m : num) (Pin : Z) : num :=
  let disc := (omega_m * omega_m + Fin 4 * kcu * JS.of_Z Pin)%js in
  ((JS.sqrt disc - omega_m) / (Fin 2 * kcu))%js.

Definition force (p : params) (omega_m : num) (Pin : Z) : num :=
  let Tout := (Tm (kcu p) omega_m Pin * Fin (gearRatio p) * Fin (gearEff p))%js in
  let F := (Tout / JS.max (Fin 1e-9) (Fin (drumRadius p)))%js in
  let lbf := (F * LBF_PER_N)%js in
  if isFinite lbf && (lbf >? Fin 0)%js then lbf else Fin 0.

End AppOld.

(** ** Real values and specification-side definitions *)

(** The real values of the memo cells. *)
Definition KtR (p : params) : R :=
  match constMode p with
  | KT => KtState p
  | KV => 9.5492965964254 / Rmax 1e-9 (KvState p)
  end.

Definition RphaseBaseR (p : params) : R :=
  match winding p with
  | WYE => Rll p / 2
  | DELTA => 1.5 * Rll p
  end.

Definition RphaseR (p : params) : R :=
  RphaseBaseR p * (1 + 0.0039 * (copperTempC p - 25)).

Definition LphaseR (p : params) : R :=
  match winding p with
  | WYE => Lll_uH p * 1e-6 / 2
  | DELTA => 1.5 * (Lll_uH p * 1e-6)
  end.

Definition VmaxR (p : params) : R := util p * Vbus p / R_sqrt.sqrt 3.

Definition stepR (p : params) : R := Rmax 1 (steps p).

Definition speedR (p : params) (i : nat) : R := maxSpeed p * INR i / stepR p.

Definition omegaR (p : params) (i : nat) : R :=
  speedR p i / Rmax 1e-9 (drumRadius p) * gearRatio p.

(** The number of turns of [for (i = 0; i <= step; i++)]: the integers
    [0 .. floor step]. *)
Definition trip_count (p : params) : nat := Z.to_nat (up (stepR p)).

(** Whether a string ends with the letter W, as every series key does. *)
Fixpoint ends_with_W (s : string) : bool :=
  match s with
  | EmptyString => false
  | String c EmptyString => Ascii.eqb c "W"%char
  | String _ s' => ends_with_W s'
  end.

(** The speed of sample [i] of a sweep of [n] equal intervals. *)
Definition sweep (p : params) (n i : nat) : R := maxSpeed p * INR i / INR n.

(** The real values of the solver's intermediate quantities at the motor
    speed [w]. *)
Definition AR (p : params) (w : R) : R :=
  RphaseR p * RphaseR p + (w * LphaseR p) * (w * LphaseR p).

Definition BabsR (p : params) (w : R) : R := 2 * RphaseR p * w * KtR p.

Definition idR (p : params) (k : nat) : R := - idFWmax p * (INR k / INR N_ID).

Definition CR (p : params) (w : R) (k : nat) : R :=
  (RphaseR p * idR p k) * (RphaseR p * idR p k)
  + (w * (LphaseR p * idR p k + KtR p)) * (w * (LphaseR p * idR p k + KtR p))
  - VmaxR p * VmaxR p.

Definition discR (p : params) (w : R) (k : nat) : R :=
  BabsR p w * BabsR p w - 4 * AR p w * CR p w k.

Definition aPR (p : params) : R := 3 * RphaseR p.
Definition bPR (p : params) (w : R) : R := KtR p * w.
Definition cPR (p : params) (P : Z) (k : nat) : R :=
  3 * RphaseR p * idR p k * idR p k - IZR P.
Definition DpR (p : params) (w : R) (P : Z) (k : nat) : R :=
  bPR p w * bPR p w - 4 * aPR p * cPR p P k.

Definition iqCurR (p : params) (k : nat) : R :=
  R_sqrt.sqrt (Rmax 0 (Imax p * Imax p - idR p k * idR p k)).

(** A value that is NaN, [+Infinity], or a non-negative real: what
    [Math.max(0, _)] can return. *)
Definition nonneg_or_nan (a : num) : Prop :=
  a = NaN \/ a = PInf \/ exists x, a = Fin x /\ 0 <= x.

(** The admissible current of the power limit as the specification words
    it, on real operands: the larger root of
    [3R iq^2 + (Kt w) iq + (3R id^2 - P) <= 0], floored at [0], when the
    discriminant is non-negative, and [0] otherwise. *)
Definition iq_max_power_spec (Rph kt w idv : R) (P : Z) : num :=
  let b := kt * w in
  let dsc := b * b - 4 * (3 * Rph) * (3 * Rph * (idv * idv) - IZR P) in
  if Rle_dec 0 dsc
  then JS.max (Fin 0) (Fin (- b + R_sqrt.sqrt dsc) / Fin (2 * (3 * Rph)))%js
  else Fin 0.

(** The claim, for a motor with torque constant [kt], phase resistance [r]
    and phase inductance [l], at motor speed [w] and supply limit [P]: once
    the voltage limit and the current limit are large enough, a motoring
    snapshot without field weakening gives the torque [tau], in the solver
    of [App.tsx] and in the power-only model of [App_old.tsx] alike, and
    both plot the same force. *)
Definition power_limit_consistency (kt r l w : R) (P : Z) (tau : R) : Prop :=
  exists V0 I0, forall p : params,
    mode p = CONC -> idFWmax p = 0 ->
    KtR p = kt -> RphaseR p = r -> LphaseR p = l ->
    V0 <= VmaxR p -> I0 <= Imax p ->
    TmFinal p (Fin w) P = Fin tau
    /\ AppOld.Tm (kcu p) (Fin w) P = Fin tau
    /\ force p (Fin w) P = AppOld.force p (Fin w) P.

(** Discriminant and root of the power quadratic at [id = 0]. *)
Definition power_disc (kt r w : R) (P : Z) : R := (kt * w) * (kt * w) + 12 * r * IZR P.
Definition power_iq (kt r w : R) (P : Z) : R :=
  (- (kt * w) + R_sqrt.sqrt (power_disc kt r w P)) / (6 * r).

(** A voltage limit above which the voltage constraint does not bind (the
    current limit does not bind above [power_iq]). *)
Definition volt_threshold (kt r l w : R) (P : Z) : R :=
  1 + Rabs ((r * r + (w * l) * (w * l)) * (power_iq kt r w P * power_iq kt r w P)
            + 2 * r * w * kt * power_iq kt r w P)
  + (w * kt) * (w * kt).

(** ** The constraints the solver enforces *)

(** The dq model displayed by the component: [v_d = R i_d - w L i_q] and
    [v_q = R i_q + w L i_d + w K_e], and its three constraints at the point
    [(idv, iq)] of the current plane: [|i| <= I_max], [v_d^2 + v_q^2 <=
    V_phase,max^2] and, when motoring, [P_in = tau w + 3 I^2 R <= P_limit]
    with [tau = Kt i_q]. *)
Definition v_d (p : params) (w idv iq : R) : R :=
  RphaseR p * idv - w * LphaseR p * iq.

Definition v_q (p : params) (w idv iq : R) : R :=
  RphaseR p * iq + w * LphaseR p * idv + w * KtR p.

Definition current_ok (p : params) (idv iq : R) : Prop :=
  idv * idv + iq * iq <= Imax p * Imax p.

Definition voltage_ok (p : params) (w idv iq : R) : Prop :=
  v_d p w idv iq * v_d p w idv iq + v_q p w idv iq * v_q p w idv iq
  <= VmaxR p * VmaxR p.

Definition power_ok (p : params) (w : R) (P : Z) (idv iq : R) : Prop :=
  KtR p * iq * w + 3 * (idv * idv + iq * iq) * RphaseR p <= IZR P.

(** The force plotted for a best torque [b], on reals. *)
Definition forceR (p : params) (b : R) : R :=
  Rmax 0 (Rmin b (KtR p * Imax p) * gearRatio p * gearEff p
          / Rmax 1e-9 (drumRadius p) * (1 / 4.4482216152605)).

(** The real values of the admissible currents of the voltage and power
    solves, for non-zero denominators. *)
Definition iqVoltConcR (p : params) (w : R) (k : nat) : R :=
  if Rle_dec 0 (discR p w k)
  then Rmax 0 ((- BabsR p w + R_sqrt.sqrt (discR p w k)) / (2 * AR p w))
  else 0.

Definition iqVoltEccR (p : params) (w : R) (k : nat) : R :=
  if Rle_dec 0 (discR p w k)
  then Rmax 0 ((BabsR p w + R_sqrt.sqrt (discR p w k)) / (2 * AR p w))
  else 0.

Definition iqPowR (p : params) (w : R) (P : Z) (k : nat) : R :=
  if Rle_dec 0 (DpR p w P k)
  then Rmax 0 ((- bPR p w + R_sqrt.sqrt (DpR p w P k)) / (2 * aPR p))
  else 0.

(** ** The axis bound [maxY] *)

(** [Math.ceil]. *)
Definition Math_ceil (a : num) : num :=
  match a with
  | Fin x => Fin (IZR (1 - up (- x)))
  | _ => a
  end.

(** [number(d[k])]: a missing key reads as [undefined], which is not
    finite. *)
Definition number_opt (o : option num) : num :=
  match o with
  | Some n => number n
  | None => Fin 0
  end.

(** The memo cell [maxY], for the table [rows] and the keys [keys]. *)
Definition maxY (rows : list row) (keys : list string) : num :=
  let m :=
    fold_left
      (fun (m : num) (d : row) =>
         fold_left (fun (m : num) (k : string) => JS.max m (number_opt (d !! k)))
           keys m)
      rows (Fin 0) in
  (Math_ceil (m / Fin 25) * Fin 25)%js.

(** ** The input handlers *)

(** The real stored in the state for a handler's result (every handler
    result is finite, see [handler_values_finite]). *)
Definition real_of (a : num) : R :=
  match a with
  | Fin x => x
  | _ => 0
  end.

(** [Math.max(0, Math.min(1, number(v)))], for [util] and [gearEff]. *)
Definition clamp_unit (v : num) : num :=
  JS.max (Fin 0) (JS.min (Fin 1) (number v)).

(** [Math.max(10, Math.min(500, number(v)))], for [steps]. *)
Definition clamp_steps (v : num) : num :=
  JS.max (Fin 10) (JS.min (Fin 500) (number v)).

(** [Math.max(0, number(v))], for [idFWmax]. *)
Definition clamp_idFW (v : num) : num := JS.max (Fin 0) (number v).

(** [number(v) / Math.max(1e-9, Kt)], the current limit entered as a
    torque. *)
Definition Imax_of_torque (p : params) (v : num) : num :=
  (number v / JS.max (Fin 1e-9) (Kt p))%js.

(** ** The selection of supplies *)

Definition presets : list Z := [450; 1000; 1500; 2000; 3000; 5000]%Z.

(** [[...prev, w].sort((a, b) => a - b)]: the ascending sort of integers. *)
Definition sort_asc (l : list Z) : list Z := merge_sort Z.le l.

(** The updater of [togglePreset(w)]. *)
Definition togglePreset (w : Z) (prev : list Z) : list Z :=
  if bool_decide (w ∈ prev)
  then filter (fun x : Z => x <> w) prev
  else sort_asc (prev ++ [w]).

(** [Math.round(number(customW))]: an integer, [number] being finite;
    [Math.round(x)] is [floor(x + 0.5)]. *)
Definition round_number (v : num) : Z :=
  match number v with
  | Fin x => (up (x + / 2) - 1)%Z
  | _ => 0%Z
  end.

(** The updater of [addCustom()], [v] being the number read from
    [customW]; nothing happens when it rounds to [0]. *)
Definition addCustom (v : num) (prev : list Z) : list Z :=
  let z := round_number v in
  if (z =? 0)%Z then prev
  else if bool_decide (z ∈ prev) then prev
  else sort_asc (prev ++ [z]).

(** ** The component as a state machine *)

(** The events of the form: each input carries the number read from its
    text. *)
Inductive event : Type :=
| SetConstMode (m : ConstMode)
| SetKtState (v : num)
| SetKvState (v : num)
| SetRll (v : num)
| SetLll_uH (v : num)
| SetWinding (w : Winding)
| SetCopperTempC (v : num)
| SetVbus (v : num)
| SetUtil (v : num)
| SetImax (v : num)
| SetTorque (v : num)
| SetIdFWmax (v : num)
| SetMode (m : Mode)
| SetGearRatio (v : num)
| SetGearEff (v : num)
| SetDrumRadius (v : num)
| SetMaxSpeed (v : num)
| SetSteps (v : num)
| Reset
| TogglePreset (w : Z)
| AddCustom (v : num).

(** The state after an event. *)
Definition handle (e : event) (p : params) : params := {|
  constMode := match e with SetConstMode m => m | Reset => KT | _ => constMode p end;
  KtState := match e with SetKtState v => real_of (number v) | Reset => 0.272 | _ => KtState p end;
  KvState := match e with SetKvState v => real_of (number v) | Reset => 35 | _ => KvState p end;
  mode := match e with SetMode m => m | Reset => CONC | _ => mode p end;
  Rll := match e with SetRll v => real_of (number v) | Reset => 0.164 | _ => Rll p end;
  Lll_uH := match e with SetLll_uH v => real_of (number v) | Reset => 235 | _ => Lll_uH p end;
  winding := match e with SetWinding w => w | Reset => DELTA | _ => winding p end;
  copperTempC := match e with SetCopperTempC v => real_of (number v) | Reset => 25 | _ => copperTempC p end;
  Vbus := match e with SetVbus v => real_of (number v) | Reset => 48 | _ => Vbus p end;
  util := match e with SetUtil v => real_of (clamp_unit v) | Reset => 0.95 | _ => util p end;
  Imax := match e with
          | SetImax v => real_of (number v)
          | SetTorque v => real_of (Imax_of_torque p v)
          | Reset => 72
          | _ => Imax p
          end;
  idFWmax := match e with SetIdFWmax v => real_of (clamp_idFW v) | Reset => 0 | _ => idFWmax p end;
  gearRatio := match e with SetGearRatio v => real_of (number v) | Reset => 10 | _ => gearRatio p end;
  gearEff := match e with SetGearEff v => real_of (clamp_unit v) | Reset => 0.9 | _ => gearEff p end;
  drumRadius := match e with SetDrumRadius v => real_of (number v) | Reset => 0.05 | _ => drumRadius p end;
  maxSpeed := match e with SetMaxSpeed v => real_of (number v) | Reset => 3 | _ => maxSpeed p end;
  steps := match e with SetSteps v => real_of (clamp_steps v) | Reset => 60 | _ => steps p end;
  selected := match e with
              | TogglePreset w => togglePreset w (selected p)
              | AddCustom v => addCustom v (selected p)
              | Reset => [3000%Z]
              | _ => selected p
              end
|}.

(** The states the component can be in: the initial one and those that
    events lead to. *)
Inductive reachable : params -> Prop :=
| reachable_init : reachable defaults
| reachable_step e p : reachable p -> reachable (handle e p).

(** What the handlers keep true of the state. *)
Definition state_ok (p : params) : Prop :=
  0 <= util p <= 1
  /\ 0 <= gearEff p <= 1
  /\ 10 <= steps p <= 500
  /\ 0 <= idFWmax p
  /\ StronglySorted Z.lt (selected p).

(** The default state after [10.5] is typed into the chart-points box. *)
Definition fractional_steps : params := handle (SetSteps (Fin 10.5)) defaults.

(** * Properties *)

(** ** Arithmetic of [JS.num] on finite values *)

Lemma Rsign_pos x : 0 < x -> Rsign x = Gt.
Proof. intros H. unfold Rsign. destruct (total_order_T x 0) as [[?|?]|?]; try lra; reflexivity. Qed.

Lemma Rsign_neg x : x < 0 -> Rsign x = Lt.
Proof. intros H. unfold Rsign. destruct (total_order_T x 0) as [[?|?]|?]; try lra; reflexivity. Qed.

Lemma Rsign_zero : Rsign 0 = Eq.
Proof. unfold Rsign. destruct (total_order_T 0 0) as [[?|?]|?]; try lra; reflexivity. Qed.

Lemma Rsign_Eq x : Rsign x = Eq -> x = 0.
Proof. unfold Rsign. destruct (total_order_T x 0) as [[?|?]|?]; congruence. Qed.

Lemma Rltb_true x y : Rltb x y = true <-> x < y.
Proof. unfold Rltb. destruct (Rlt_dec x y); split; intros; try lra; congruence. Qed.

Lemma Rltb_false x y : Rltb x y = false <-> y <= x.
Proof. unfold Rltb. destruct (Rlt_dec x y); split; intros; try lra; congruence. Qed.

Lemma Rleb_true x y : Rleb x y = true <-> x <= y.
Proof. unfold Rleb. destruct (Rle_dec x y); split; intros; try lra; congruence. Qed.

Lemma Rleb_false x y : Rleb x y = false <-> y < x.
Proof. unfold Rleb. destruct (Rle_dec x y); split; intros; try lra; congruence. Qed.

Lemma div_Fin x y : y <> 0 -> (Fin x / Fin y)%js = Fin (x / y).
Proof.
  intros Hy. unfold JS.div.
  destruct (Rsign y) eqn:E; try reflexivity.
  apply Rsign_Eq in E. contradiction.
Qed.

Lemma div_Fin_zero_zero : (Fin 0 / Fin 0)%js = NaN.
Proof. unfold JS.div. rewrite Rsign_zero. reflexivity. Qed.

Lemma div_Fin_pos_zero x : 0 < x -> (Fin x / Fin 0)%js = PInf.
Proof. intros H. unfold JS.div. rewrite Rsign_zero, (Rsign_pos x H). reflexivity. Qed.

Lemma sqrt_Fin x : 0 <= x -> JS.sqrt (Fin x) = Fin (R_sqrt.sqrt x).
Proof.
  intros H. unfold JS.sqrt.
  destruct (Rltb x 0) eqn:E; [apply Rltb_true in E; lra | reflexivity].
Qed.

Lemma ge_Fin x y : (Fin x >=? Fin y)%js = Rleb y x.
Proof. reflexivity. Qed.

Lemma gt_Fin x y : (Fin x >? Fin y)%js = Rltb y x.
Proof. reflexivity. Qed.

Lemma le_Fin x y : (Fin x <=? Fin y)%js = Rleb x y.
Proof. reflexivity. Qed.

Lemma sqrt3_pos : 0 < R_sqrt.sqrt 3.
Proof. apply sqrt_lt_R0. lra. Qed.

Lemma sqrt3_sq : R_sqrt.sqrt 3 * R_sqrt.sqrt 3 = 3.
Proof. apply sqrt_sqrt. lra. Qed.

Lemma Rmax_eps_pos x : 1e-9 <= Rmax 1e-9 x.
Proof. apply Rmax_l. Qed.

Lemma Rmax_eps_nz x : Rmax 1e-9 x <> 0.
Proof. pose proof (Rmax_eps_pos x). lra. Qed.

(** [number] only lets finite values into the component state. *)
Lemma number_finite n : exists x, number n = Fin x.
Proof. destruct n as [| | |x]; cbn; eexists; reflexivity. Qed.

(** ** The derived quantities are finite *)

Lemma Kt_Fin p : Kt p = Fin (KtR p).
Proof.
  unfold Kt, KtR, KTKV. destruct (constMode p); [reflexivity|].
  cbn [JS.max]. apply div_Fin, Rmax_eps_nz.
Qed.

Lemma RphaseBase_Fin p : RphaseBase p = Fin (RphaseBaseR p).
Proof.
  unfold RphaseBase, RphaseBaseR. destruct (winding p); [reflexivity|].
  apply div_Fin. lra.
Qed.

Lemma Rphase_Fin p : Rphase p = Fin (RphaseR p).
Proof. unfold Rphase. rewrite RphaseBase_Fin. reflexivity. Qed.

Lemma LphaseBase_Fin p : LphaseBase p = Fin (LphaseR p).
Proof.
  unfold LphaseBase, LphaseR. destruct (winding p); [reflexivity|].
  cbn [JS.mul]. apply div_Fin. lra.
Qed.

Lemma VphaseMax_Fin p : VphaseMax p = Fin (VmaxR p).
Proof.
  unfold VphaseMax, VmaxR. rewrite sqrt_Fin by lra. cbn [JS.mul].
  apply div_Fin. pose proof sqrt3_pos. lra.
Qed.

Lemma TmMax_Fin p : TmMax p = Fin (KtR p * Imax p).
Proof. unfold TmMax. rewrite Kt_Fin. reflexivity. Qed.

Lemma step_Fin p : step p = Fin (stepR p).
Proof. reflexivity. Qed.

Lemma stepR_pos p : 1 <= stepR p.
Proof. apply Rmax_l. Qed.

Lemma speed_at_Fin p i : speed_at p i = Fin (speedR p i).
Proof.
  unfold speed_at, speedR. rewrite step_Fin. cbn [JS.mul JS.of_nat].
  apply div_Fin. pose proof (stepR_pos p). lra.
Qed.

Lemma omega_m_at_Fin p i : omega_m_at p i = Fin (omegaR p i).
Proof.
  unfold omega_m_at, omega_out, omegaR. rewrite speed_at_Fin. cbn [JS.max].
  rewrite div_Fin by apply Rmax_eps_nz. reflexivity.
Qed.

(** ** Topology transform *)

(** C3, as stated: the WYE per-phase resistance is half the DELTA one.  It
    fails at the default line-to-line resistance 0.164: WYE gives 0.082 and
    half of DELTA is 0.123. *)
Lemma C3_wye_not_half_delta :
  RphaseBase (setWinding WYE defaults)
  <> (RphaseBase (setWinding DELTA defaults) / Fin 2)%js.
Proof.
  rewrite !RphaseBase_Fin. rewrite div_Fin by lra.
  unfold RphaseBaseR. cbn. intros H. injection H as H. lra.
Qed.

(** C3, amended: for the same line-to-line resistance, the WYE per-phase
    resistance is exactly one third of the DELTA per-phase resistance. *)
Theorem C3_wye_third_of_delta (p : params) :
  RphaseBase (setWinding WYE p)
  = (RphaseBase (setWinding DELTA p) / Fin 3)%js.
Proof.
  rewrite !RphaseBase_Fin. rewrite div_Fin by lra.
  unfold RphaseBaseR. cbn. f_equal. lra.
Qed.

(** ** The outer loop: trip count and termination *)

Lemma up_stepR_pos p : (0 < up (stepR p))%Z.
Proof.
  pose proof (stepR_pos p) as Hs. destruct (archimed (stepR p)) as [Hu _].
  apply lt_IZR. lra.
Qed.

Lemma INR_trip_count p : INR (trip_count p) = IZR (up (stepR p)).
Proof.
  unfold trip_count. rewrite INR_IZR_INZ, Z2Nat.id; [reflexivity|].
  pose proof (up_stepR_pos p). lia.
Qed.

Lemma loop_test_iff p i :
  (JS.of_nat i <=? step p)%js = true <-> (i < trip_count p)%nat.
Proof.
  rewrite step_Fin. unfold JS.of_nat. rewrite le_Fin, Rleb_true.
  destruct (archimed (stepR p)) as [Hu Hd].
  split; intros H.
  - apply INR_lt. rewrite INR_trip_count. lra.
  - assert (Hz : (Z.of_nat i + 1 <= up (stepR p))%Z).
    { pose proof (up_stepR_pos p). unfold trip_count in H. lia. }
    apply IZR_le in Hz. rewrite plus_IZR, <- INR_IZR_INZ in Hz. lra.
Qed.

Lemma rows_from_enough p (m : nat) :
  forall i fuel, (i + m = trip_count p)%nat -> (m < fuel)%nat ->
    rows_from p fuel i = Some (map (row_at p) (seq i m)).
Proof.
  induction m as [|m IH]; intros i fuel Hi Hf;
    (destruct fuel as [|fuel]; [lia|]); cbn [rows_from].
  - destruct (JS.of_nat i <=? step p)%js eqn:E; [|reflexivity].
    apply loop_test_iff in E. lia.
  - destruct (JS.of_nat i <=? step p)%js eqn:E.
    + rewrite (IH (S i) fuel) by lia. reflexivity.
    + assert (i < trip_count p)%nat as Hlt by lia.
      apply loop_test_iff in Hlt. congruence.
Qed.

Lemma rows_from_Some p :
  forall fuel i rows, rows_from p fuel i = Some rows ->
    rows = map (row_at p) (seq i (trip_count p - i)).
Proof.
  induction fuel as [|fuel IH]; intros i rows H; [discriminate|].
  cbn [rows_from] in H.
  destruct (JS.of_nat i <=? step p)%js eqn:E.
  - destruct (rows_from p fuel (S i)) as [arr|] eqn:Er; [|discriminate].
    injection H as <-. apply IH in Er. subst arr.
    apply loop_test_iff in E.
    replace (trip_count p - i)%nat with (S (trip_count p - S i)) by lia.
    reflexivity.
  - injection H as <-.
    assert (~ (i < trip_count p)%nat) as Hn.
    { intros Hlt. apply loop_test_iff in Hlt. congruence. }
    replace (trip_count p - i)%nat with 0%nat by lia. reflexivity.
Qed.

(** [data] returns: one more unit of fuel than the trip count is enough. *)
Lemma data_terminates p :
  data p (S (trip_count p)) = Some (map (row_at p) (seq 0 (trip_count p))).
Proof. apply rows_from_enough; lia. Qed.

(** Whatever the fuel, a returned table is the same list of rows. *)
Lemma data_Some p fuel rows :
  data p fuel = Some rows -> rows = map (row_at p) (seq 0 (trip_count p)).
Proof.
  intros H. apply rows_from_Some in H. rewrite Nat.sub_0_r in H. exact H.
Qed.

(** ** The keys of a row *)

Lemma ends_with_W_app s : ends_with_W (s +:+ " W") = true.
Proof.
  induction s as [|c s IH]; [reflexivity|].
  change (String c s +:+ " W") with (String c (s +:+ " W")).
  destruct (s +:+ " W") eqn:E; [destruct s; discriminate|].
  exact IH.
Qed.

Lemma series_key_ne_speed w : series_key w <> "speed".
Proof.
  intros H. pose proof (ends_with_W_app (pretty w)) as E.
  unfold series_key in H. rewrite H in E. discriminate.
Qed.

Section RowFold.

Variable f : Z -> num.

Lemma fold_put_lookup (l : list Z) :
  forall (r0 : row) (k : string) (v : num),
    fold_left (put_series f) l r0 !! k = Some v ->
    (exists P, P ∈ l /\ k = series_key P /\ v = f P) \/ r0 !! k = Some v.
Proof.
  induction l as [|P l IH]; intros r0 k v H; cbn [fold_left] in H.
  - right. exact H.
  - apply IH in H as [(P' & Hin & Hk & Hv)|H].
    + left. exists P'. split; [right; exact Hin | auto].
    + unfold put_series in H.
      destruct (decide (series_key P = k)) as [<-|Hne].
      * rewrite lookup_insert_eq in H. injection H as <-.
        left. exists P. split; [left | auto].
      * rewrite lookup_insert_ne in H by exact Hne. right. exact H.
Qed.

Lemma fold_put_keeps (l : list Z) :
  forall (r0 : row) (k : string),
    (forall P, P ∈ l -> series_key P <> k) ->
    fold_left (put_series f) l r0 !! k = r0 !! k.
Proof.
  induction l as [|P l IH]; intros r0 k H; cbn [fold_left]; [reflexivity|].
  rewrite IH by (intros P' HP'; apply H; right; exact HP').
  unfold put_series. apply lookup_insert_ne. apply H. left.
Qed.

Lemma fold_put_member (l : list Z) :
  forall (r0 : row) (P : Z), P ∈ l ->
    exists P', P' ∈ l /\ series_key P' = series_key P
               /\ fold_left (put_series f) l r0 !! series_key P = Some (f P').
Proof.
  induction l as [|Q l IH] using rev_ind; intros r0 P Hin; [inversion Hin|].
  rewrite fold_left_app. cbn [fold_left]. unfold put_series at 1.
  destruct (decide (series_key Q = series_key P)) as [Hk|Hk].
  - exists Q. split; [apply elem_of_app; right; left|]. split; [exact Hk|].
    rewrite Hk. apply lookup_insert_eq.
  - rewrite lookup_insert_ne by exact Hk.
    apply elem_of_app in Hin as [Hin|Hin].
    + destruct (IH r0 P Hin) as (P' & Hin' & Hk' & Hv).
      exists P'. split; [apply elem_of_app; left; exact Hin' | auto].
    + apply list_elem_of_singleton in Hin. congruence.
Qed.

End RowFold.

(** What a row holds: the speed under ["speed"], and under each series key
    the force of a selected supply. *)
Lemma row_at_speed p i : row_at p i !! "speed" = Some (speed_at p i).
Proof.
  unfold row_at.
  rewrite (fold_put_keeps (force p (omega_m_at p i))).
  - apply lookup_singleton_eq.
  - intros P _. apply series_key_ne_speed.
Qed.

Lemma row_at_lookup p i k v :
  row_at p i !! k = Some v ->
  (k = "speed" /\ v = speed_at p i)
  \/ (exists P, P ∈ selected p /\ k = series_key P
                /\ v = force p (omega_m_at p i) P).
Proof.
  unfold row_at. intros H.
  apply (fold_put_lookup (force p (omega_m_at p i))) in H as [H|H].
  - right. exact H.
  - left. apply lookup_singleton_Some in H. destruct H; auto.
Qed.

Lemma row_at_member p i P :
  P ∈ selected p ->
  exists P', P' ∈ selected p /\ series_key P' = series_key P
             /\ row_at p i !! series_key P = Some (force p (omega_m_at p i) P').
Proof. intros H. apply (fold_put_member (force p (omega_m_at p i))), H. Qed.

(** ** Non-negative finite output (C7) *)

Lemma force_Fin_nonneg p w P : exists x, force p w P = Fin x /\ 0 <= x.
Proof.
  unfold force. destruct (lbf p w P) as [| | |x]; cbn [isFinite andb];
    try (exists 0; split; [reflexivity | lra]).
  rewrite gt_Fin. destruct (Rltb 0 x) eqn:E.
  - apply Rltb_true in E. exists x. split; [reflexivity | lra].
  - exists 0. split; [reflexivity | lra].
Qed.

(** C7: [data] returns, and every force value stored in a returned row
    (every entry other than ["speed"]) is a finite number that is [>= 0];
    a negative or non-finite [lbf] has been replaced by [0].  The snapshot
    is arbitrary: zero torque constant, resistance or current limit
    included. *)
Theorem C7_forces_finite_nonneg (p : params) :
  (exists fuel rows, data p fuel = Some rows)
  /\ (forall fuel rows r k v,
        data p fuel = Some rows -> r ∈ rows -> k <> "speed" ->
        r !! k = Some v ->
        exists x, v = Fin x /\ 0 <= x
                  /\ JS.isFinite v = true /\ (v >=? Fin 0)%js = true)
  /\ (forall w P,
        (JS.isFinite (lbf p w P) = false \/ (lbf p w P >? Fin 0)%js = false ->
         force p w P = Fin 0)
        /\ (JS.isFinite (lbf p w P) = true -> (lbf p w P >? Fin 0)%js = true ->
            force p w P = lbf p w P)).
Proof.
  split; [|split].
  - eexists _, _. apply data_terminates.
  - intros fuel rows r k v Hd Hr Hk Hv.
    apply data_Some in Hd. subst rows.
    apply list_elem_of_fmap in Hr as (i & -> & _).
    apply row_at_lookup in Hv as [[? _]|(P & _ & _ & ->)]; [contradiction|].
    destruct (force_Fin_nonneg p (omega_m_at p i) P) as (x & -> & Hx).
    exists x. repeat split; try assumption.
    rewrite ge_Fin. apply Rleb_true. exact Hx.
  - intros w P. unfold force. split.
    + intros [-> | ->]; [reflexivity | rewrite andb_false_r; reflexivity].
    + intros -> ->. reflexivity.
Qed.

(** ** Supply independence in eccentric mode (C4) *)

Lemma fold_left_ext_in {X Y : Type} (g h : X -> Y -> X) (l : list Y) :
  (forall a y, g a y = h a y) ->
  forall a, fold_left g l a = fold_left h l a.
Proof.
  intros E. induction l as [|y l IH]; intros a; cbn [fold_left]; [reflexivity|].
  rewrite E. apply IH.
Qed.

Lemma fold_left_seq_S {X : Type} (g : X -> nat -> X) (n : nat) (a : X) :
  fold_left g (seq 0 (S n)) a = fold_left g (seq 1 n) (g a 0%nat).
Proof. reflexivity. Qed.

Lemma iqMaxPower_ecc p w P k : mode p = ECC -> iqMaxPower p w P k = PInf.
Proof. intros H. unfold iqMaxPower. rewrite H. reflexivity. Qed.

Lemma force_ecc_indep p w P1 P2 :
  mode p = ECC -> force p w P1 = force p w P2.
Proof.
  intros H.
  assert (Hb : bestTm p w P1 = bestTm p w P2).
  { unfold bestTm. apply fold_left_ext_in. intros a k.
    unfold bestTm_step, Tm, iqMax. rewrite !iqMaxPower_ecc by exact H.
    reflexivity. }
  unfold force, lbf, F, Tout, TmFinal. rewrite Hb. reflexivity.
Qed.

(** C4: in eccentric (regenerating) mode [data] returns, and in every
    returned row the entries of any two selected supply limits hold the same
    force: the curves of all selected supplies coincide pointwise. *)
Theorem C4_regen_supply_independent (p : params) (Hecc : mode p = ECC) :
  (exists fuel rows, data p fuel = Some rows)
  /\ (forall fuel rows r P1 P2,
        data p fuel = Some rows -> r ∈ rows ->
        P1 ∈ selected p -> P2 ∈ selected p ->
        exists v, r !! series_key P1 = Some v /\ r !! series_key P2 = Some v).
Proof.
  split.
  - eexists _, _. apply data_terminates.
  - intros fuel rows r P1 P2 Hd Hr H1 H2.
    apply data_Some in Hd. subst rows.
    apply list_elem_of_fmap in Hr as (i & -> & _).
    destruct (row_at_member p i P1 H1) as (Q1 & _ & _ & E1).
    destruct (row_at_member p i P2 H2) as (Q2 & _ & _ & E2).
    exists (force p (omega_m_at p i) Q1). split; [exact E1|].
    rewrite E2. f_equal. apply force_ecc_indep, Hecc.
Qed.

Lemma C4_regen_supply_independent_witness :
  mode eccentric = ECC
  /\ (exists fuel rows, data eccentric fuel = Some rows)
  /\ (forall fuel rows r P1 P2,
        data eccentric fuel = Some rows -> r ∈ rows ->
        P1 ∈ selected eccentric -> P2 ∈ selected eccentric ->
        exists v, r !! series_key P1 = Some v /\ r !! series_key P2 = Some v).
Proof.
  split; [reflexivity|]. apply (C4_regen_supply_independent eccentric). reflexivity.
Defined.

(** ** The speed sweep with an integer number of steps *)

Lemma up_INR (n : nat) : up (INR n) = (Z.of_nat n + 1)%Z.
Proof.
  symmetry. apply tech_up; rewrite plus_IZR, <- INR_IZR_INZ; lra.
Qed.

Lemma stepR_integer p (n : nat) :
  (1 <= n)%nat -> steps p = INR n -> stepR p = INR n.
Proof.
  intros Hn Hs. unfold stepR. rewrite Hs. apply Rmax_right.
  apply le_INR in Hn. cbn in Hn. lra.
Qed.

Lemma trip_count_integer p (n : nat) :
  (1 <= n)%nat -> steps p = INR n -> trip_count p = S n.
Proof.
  intros Hn Hs. unfold trip_count. rewrite (stepR_integer p n Hn Hs), up_INR. lia.
Qed.

(** With an integer [steps = n] in [10, 500] and [maxSpeed >= 0],
    [data] returns [n + 1] rows; row [i] has speed [maxSpeed * i / n], so
    that the speeds start at [0], end at [maxSpeed], are non-decreasing and
    are spaced by [maxSpeed / n]. *)
Lemma integer_steps_sweep (p : params) (n : nat)
    (Hn : (10 <= n <= 500)%nat) (Hs : steps p = INR n) (Hm : 0 <= maxSpeed p) :
  (exists fuel rows, data p fuel = Some rows)
  /\ (forall fuel rows, data p fuel = Some rows ->
        length rows = S n
        /\ (forall i, (i <= n)%nat ->
              exists r, rows !! i = Some r
                        /\ r !! "speed" = Some (Fin (sweep p n i))))
  /\ sweep p n 0 = 0
  /\ sweep p n n = maxSpeed p
  /\ (forall i, sweep p n (S i) - sweep p n i = maxSpeed p / INR n)
  /\ (forall i, sweep p n i <= sweep p n (S i)).
Proof.
  assert (Hn1 : (1 <= n)%nat) by lia.
  assert (Hpos : 0 < INR n) by (apply lt_0_INR; lia).
  pose proof (trip_count_integer p n Hn1 Hs) as Ht.
  pose proof (stepR_integer p n Hn1 Hs) as Hst.
  split; [|split; [|split; [|split; [|split]]]].
  - eexists _, _. apply data_terminates.
  - intros fuel rows Hd. apply data_Some in Hd. rewrite Ht in Hd. subst rows.
    split; [rewrite length_map, length_seq; reflexivity|].
    intros i Hi. exists (row_at p i). split.
    + rewrite list_lookup_fmap, lookup_seq_lt by lia. reflexivity.
    + rewrite row_at_speed, speed_at_Fin. unfold speedR, sweep.
      rewrite Hst. reflexivity.
  - unfold sweep. cbn [INR]. unfold Rdiv. lra.
  - unfold sweep. field. lra.
  - intros i. unfold sweep. rewrite S_INR. field. lra.
  - intros i. unfold sweep. rewrite S_INR.
    apply Rmult_le_compat_r; [left; apply Rinv_0_lt_compat; exact Hpos|].
    nra.
Qed.


(** ** The solver on a finite motor speed *)

Ltac js_fin :=
  rewrite ?Kt_Fin, ?Rphase_Fin, ?LphaseBase_Fin, ?VphaseMax_Fin, ?TmMax_Fin;
  unfold JS.of_nat, JS.of_Z, JS.pow2, JS.min3, JS.sub;
  cbn [JS.add JS.neg JS.mul JS.max JS.min].

Lemma INR_N_ID_pos : 0 < INR N_ID.
Proof. apply lt_0_INR. unfold N_ID. lia. Qed.

Lemma A_Fin p w : A p (Fin w) = Fin (AR p w).
Proof. unfold A. js_fin. reflexivity. Qed.

Lemma Babs_Fin p w : Babs p (Fin w) = Fin (BabsR p w).
Proof. unfold Babs. js_fin. reflexivity. Qed.

Lemma id_Fin p k : id p k = Fin (idR p k).
Proof.
  unfold id, idR, JS.of_nat. cbn [JS.neg].
  rewrite div_Fin by (pose proof INR_N_ID_pos; lra). reflexivity.
Qed.

Lemma C_Fin p w k : C p (Fin w) k = Fin (CR p w k).
Proof. unfold C. rewrite id_Fin. js_fin. unfold CR. f_equal; lra. Qed.

Lemma disc_Fin p w k : disc p (Fin w) k = Fin (discR p w k).
Proof.
  unfold disc. rewrite A_Fin, Babs_Fin, C_Fin. js_fin. unfold discR. f_equal; lra.
Qed.

Lemma aP_Fin p : aP p = Fin (aPR p).
Proof. unfold aP. js_fin. reflexivity. Qed.

Lemma bP_Fin p w : bP p (Fin w) = Fin (bPR p w).
Proof. unfold bP. js_fin. reflexivity. Qed.

Lemma cP_Fin p P k : cP p P k = Fin (cPR p P k).
Proof. unfold cP. rewrite id_Fin. js_fin. unfold cPR. f_equal; lra. Qed.

Lemma Dp_Fin p w P k : Dp p (Fin w) P k = Fin (DpR p w P k).
Proof.
  unfold Dp. rewrite aP_Fin, bP_Fin, cP_Fin. js_fin. unfold DpR. f_equal; lra.
Qed.

Lemma iqMaxCurrent_Fin p k : iqMaxCurrent p k = Fin (iqCurR p k).
Proof.
  unfold iqMaxCurrent. rewrite id_Fin. js_fin.
  rewrite sqrt_Fin by apply Rmax_l. unfold iqCurR. do 3 f_equal; lra.
Qed.

Lemma iqCurR_nonneg p k : 0 <= iqCurR p k.
Proof. apply sqrt_pos. Qed.

Lemma iqCurR_le_Imax p k : 0 <= Imax p -> iqCurR p k <= Imax p.
Proof.
  intros HI. unfold iqCurR.
  rewrite <- (sqrt_square (Imax p) HI) at 3.
  apply sqrt_le_1_alt. apply Rmax_lub; nra.
Qed.

(** ** The shape of the admissible currents *)

Lemma nonneg_zero : nonneg_or_nan (Fin 0).
Proof. right. right. exists 0. split; [reflexivity | lra]. Qed.

Lemma max0_shape a : nonneg_or_nan (JS.max (Fin 0) a).
Proof.
  destruct a as [| | |x]; cbn [JS.max].
  - left. reflexivity.
  - right. left. reflexivity.
  - apply nonneg_zero.
  - right. right. exists (Rmax 0 x). split; [reflexivity | apply Rmax_l].
Qed.

Lemma iqMaxVolt_shape p w k : nonneg_or_nan (iqMaxVolt p w k).
Proof.
  unfold iqMaxVolt, iqMaxVoltConc, iqMaxVoltEcc.
  destruct (mode p), (disc p w k >=? Fin 0)%js;
    first [apply max0_shape | apply nonneg_zero].
Qed.

Lemma iqMaxPower_shape p w P k : nonneg_or_nan (iqMaxPower p w P k).
Proof.
  unfold iqMaxPower. destruct (mode p).
  - destruct (Dp p w P k >=? Fin 0)%js; [apply max0_shape | apply nonneg_zero].
  - right. left. reflexivity.
Qed.

(** The minimum of a finite non-negative bound and two such values. *)
Lemma min3_shape c v pw :
  0 <= c -> nonneg_or_nan v -> nonneg_or_nan pw ->
  JS.min3 (Fin c) v pw = NaN
  \/ exists x, JS.min3 (Fin c) v pw = Fin x /\ 0 <= x <= c.
Proof.
  intros Hc [->|[->|(x & -> & Hx)]] [->|[->|(y & -> & Hy)]];
    unfold JS.min3; cbn [JS.min]; auto; right.
  - exists c. split; [reflexivity | lra].
  - exists (Rmin c y). split; [reflexivity|].
    split; [apply Rmin_glb; lra | apply Rmin_l].
  - exists (Rmin c x). split; [reflexivity|].
    split; [apply Rmin_glb; lra | apply Rmin_l].
  - exists (Rmin (Rmin c x) y). split; [reflexivity|].
    split; [repeat apply Rmin_glb; lra|].
    eapply Rle_trans; [apply Rmin_l | apply Rmin_l].
Qed.

Lemma iqMax_shape p w P k :
  iqMax p w P k = NaN
  \/ exists x, iqMax p w P k = Fin x /\ 0 <= x <= iqCurR p k.
Proof.
  unfold iqMax. rewrite iqMaxCurrent_Fin.
  apply min3_shape;
    [apply iqCurR_nonneg | apply iqMaxVolt_shape | apply iqMaxPower_shape].
Qed.

Lemma Tm_shape p w P k :
  Tm p w P k = NaN
  \/ exists x, iqMax p w P k = Fin x /\ 0 <= x <= iqCurR p k
               /\ Tm p w P k = Fin (KtR p * x).
Proof.
  unfold Tm. rewrite Kt_Fin.
  destruct (iqMax_shape p w P k) as [->|(x & E & Hx)]; [left; reflexivity|].
  right. exists x. rewrite E. auto.
Qed.

(** [bestTm] stays a non-negative real through the loop over [k]. *)
Lemma bestTm_step_Fin p w P b k :
  0 <= b -> exists b', bestTm_step p w P (Fin b) k = Fin b' /\ b <= b'.
Proof.
  intros Hb. unfold bestTm_step.
  destruct (Tm_shape p w P k) as [->|(x & _ & _ & ->)].
  - exists b. split; [reflexivity | lra].
  - rewrite gt_Fin. destruct (Rltb b (KtR p * x)) eqn:E.
    + apply Rltb_true in E. eexists. split; [reflexivity | lra].
    + exists b. split; [reflexivity | lra].
Qed.

Lemma bestTm_fold_Fin p w P (l : list nat) :
  forall b, 0 <= b ->
    exists b', fold_left (bestTm_step p w P) l (Fin b) = Fin b' /\ b <= b'.
Proof.
  induction l as [|k l IH]; intros b Hb; cbn [fold_left].
  - exists b. split; [reflexivity | lra].
  - destruct (bestTm_step_Fin p w P b k Hb) as (b1 & -> & H1).
    destruct (IH b1) as (b2 & -> & H2); [lra|].
    exists b2. split; [reflexivity | lra].
Qed.

Lemma bestTm_Fin p w P : exists b, bestTm p w P = Fin b /\ 0 <= b.
Proof. unfold bestTm. apply bestTm_fold_Fin. lra. Qed.

Lemma TmFinal_Fin p w P :
  exists t, TmFinal p w P = Fin t /\ t <= KtR p * Imax p.
Proof.
  unfold TmFinal. destruct (bestTm_Fin p w P) as (b & -> & _).
  rewrite TmMax_Fin. cbn [JS.min]. eexists. split; [reflexivity | apply Rmin_r].
Qed.

(** ** The voltage and power solves on real values *)

Lemma AR_nonneg p w : 0 <= AR p w.
Proof. unfold AR. nra. Qed.

Lemma AR_pos p w : RphaseR p <> 0 -> 0 < AR p w.
Proof. intros H. unfold AR. nra. Qed.

Lemma disc_test p w k : (disc p (Fin w) k >=? Fin 0)%js = Rleb 0 (discR p w k).
Proof. rewrite disc_Fin. reflexivity. Qed.

Lemma Dp_test p w P k : (Dp p (Fin w) P k >=? Fin 0)%js = Rleb 0 (DpR p w P k).
Proof. rewrite Dp_Fin. reflexivity. Qed.

Lemma rootConc_Fin p w k :
  AR p w <> 0 -> 0 <= discR p w k ->
  rootConc p (Fin w) k
  = Fin ((- BabsR p w + R_sqrt.sqrt (discR p w k)) / (2 * AR p w)).
Proof.
  intros HA Hd. unfold rootConc. rewrite disc_Fin, Babs_Fin, A_Fin.
  rewrite sqrt_Fin by exact Hd. js_fin. apply div_Fin. lra.
Qed.

Lemma rootEcc_Fin p w k :
  AR p w <> 0 -> 0 <= discR p w k ->
  rootEcc p (Fin w) k
  = Fin ((BabsR p w + R_sqrt.sqrt (discR p w k)) / (2 * AR p w)).
Proof.
  intros HA Hd. unfold rootEcc. rewrite disc_Fin, Babs_Fin, A_Fin.
  rewrite sqrt_Fin by exact Hd. js_fin. apply div_Fin. lra.
Qed.

Lemma iqMaxVolt_Fin p w k :
  AR p w <> 0 -> exists x, iqMaxVolt p (Fin w) k = Fin x /\ 0 <= x.
Proof.
  intros HA. unfold iqMaxVolt, iqMaxVoltConc, iqMaxVoltEcc.
  rewrite disc_test.
  destruct (Rleb 0 (discR p w k)) eqn:E.
  - apply Rleb_true in E.
    rewrite rootConc_Fin, rootEcc_Fin by assumption. cbn [JS.max].
    destruct (mode p); eexists; (split; [reflexivity | apply Rmax_l]).
  - destruct (mode p); exists 0; (split; [reflexivity | lra]).
Qed.

Lemma iqMaxPower_conc_Fin p w P k :
  mode p = CONC -> aPR p <> 0 -> 0 <= DpR p w P k ->
  iqMaxPower p (Fin w) P k
  = Fin (Rmax 0 ((- bPR p w + R_sqrt.sqrt (DpR p w P k)) / (2 * aPR p))).
Proof.
  intros Hm Ha Hd. unfold iqMaxPower. rewrite Hm, Dp_test.
  rewrite (proj2 (Rleb_true _ _) Hd).
  rewrite Dp_Fin, bP_Fin, aP_Fin, sqrt_Fin by exact Hd. js_fin.
  rewrite div_Fin by lra. reflexivity.
Qed.

Lemma iqMaxPower_conc_infeasible p w P k :
  mode p = CONC -> DpR p w P k < 0 -> iqMaxPower p (Fin w) P k = Fin 0.
Proof.
  intros Hm Hd. unfold iqMaxPower. rewrite Hm, Dp_test.
  rewrite (proj2 (Rleb_false _ _) Hd). reflexivity.
Qed.

Lemma iqMaxPower_not_NaN p w P k :
  RphaseR p <> 0 -> iqMaxPower p (Fin w) P k <> NaN.
Proof.
  intros HR. destruct (mode p) eqn:Hm.
  - destruct (Rle_dec 0 (DpR p w P k)) as [Hd|Hd].
    + rewrite iqMaxPower_conc_Fin; [discriminate | exact Hm | | exact Hd].
      unfold aPR. lra.
    + rewrite iqMaxPower_conc_infeasible; [discriminate | exact Hm | lra].
  - rewrite iqMaxPower_ecc by exact Hm. discriminate.
Qed.

Lemma iqMax_not_NaN p w P k :
  RphaseR p <> 0 -> iqMax p (Fin w) P k <> NaN.
Proof.
  intros HR. unfold iqMax. rewrite iqMaxCurrent_Fin.
  destruct (iqMaxVolt_Fin p w k) as (v & -> & _);
    [pose proof (AR_pos p w HR); lra|].
  pose proof (iqMaxPower_not_NaN p w P k HR) as Hp.
  destruct (iqMaxPower_shape p (Fin w) P k) as [E|[->|(y & -> & _)]];
    [contradiction | |]; unfold JS.min3; cbn [JS.min]; discriminate.
Qed.

(** With zero phase resistance the voltage solve at standstill is [0/0]. *)
Lemma iqMaxVolt_degenerate p k :
  RphaseR p = 0 -> iqMaxVolt p (Fin 0) k = NaN.
Proof.
  intros HR.
  assert (HA : AR p 0 = 0) by (unfold AR; rewrite HR; lra).
  assert (HB : BabsR p 0 = 0) by (unfold BabsR; lra).
  assert (HD : discR p 0 k = 0) by (unfold discR; rewrite HA, HB; lra).
  unfold iqMaxVolt, iqMaxVoltConc, iqMaxVoltEcc, rootConc, rootEcc.
  rewrite disc_Fin, Babs_Fin, A_Fin, HD, HB, HA.
  rewrite ge_Fin, (proj2 (Rleb_true 0 0)) by lra.
  rewrite sqrt_Fin, sqrt_0 by lra. js_fin.
  replace (- 0 + 0) with 0 by lra. replace (0 + 0) with 0 by lra.
  replace (2 * 0) with 0 by lra. rewrite div_Fin_zero_zero.
  destruct (mode p); reflexivity.
Qed.

Lemma omegaR_0 p : omegaR p 0 = 0.
Proof. unfold omegaR, speedR. cbn [INR]. unfold Rdiv. lra. Qed.

Lemma min3_NaN_mid a c : JS.min3 a NaN c = NaN.
Proof. unfold JS.min3. destruct a, c; reflexivity. Qed.

(** ** The current clamp (C6) *)

Lemma RphaseR_lossless : RphaseR lossless = 0.
Proof. unfold RphaseR, RphaseBaseR. cbn. lra. Qed.

(** C6, as stated, fails for the snapshot [lossless] ([Imax = 72 >= 0],
    [Kt = 0.272 >= 0]) at the first sample (speed 0): the voltage solve is
    [0/0], the selected current [iqMax] is NaN, and [NaN <= Imax] is false. *)
Lemma C6_iqMax_NaN_at_zero_resistance :
  0 <= Imax lossless /\ 0 <= KtR lossless
  /\ iqMax lossless (omega_m_at lossless 0) 3000 0 = NaN
  /\ (iqMax lossless (omega_m_at lossless 0) 3000 0 <=? Fin (Imax lossless))%js
     = false.
Proof.
  assert (E : iqMax lossless (omega_m_at lossless 0) 3000 0 = NaN).
  { rewrite omega_m_at_Fin, omegaR_0. unfold iqMax.
    rewrite (iqMaxVolt_degenerate lossless 0 RphaseR_lossless).
    apply min3_NaN_mid. }
  rewrite E. repeat split; try reflexivity; cbn; lra.
Qed.

(** C6, amended: for every snapshot with [Imax >= 0], at every motor speed,
    supply limit and [id] sample, the selected current [iqMax] is either NaN
    or a real in [[0, Imax]]; it is such a real at every sample speed as
    soon as the phase resistance is not zero; and the final motor torque
    [TmFinal] is always a real that is at most [Kt * Imax]. *)
Theorem C6_current_clamp (p : params) (HI : 0 <= Imax p) :
  (forall (w : num) P k,
      iqMax p w P k = NaN
      \/ exists x, iqMax p w P k = Fin x /\ 0 <= x <= Imax p)
  /\ (forall i P k, RphaseR p <> 0 ->
        exists x, iqMax p (omega_m_at p i) P k = Fin x /\ 0 <= x <= Imax p)
  /\ (forall (w : num) P,
        exists t, TmFinal p w P = Fin t /\ t <= KtR p * Imax p
                  /\ (TmFinal p w P <=? TmMax p)%js = true).
Proof.
  assert (H1 : forall (w : num) P k,
             iqMax p w P k = NaN
             \/ exists x, iqMax p w P k = Fin x /\ 0 <= x <= Imax p).
  { intros w P k. destruct (iqMax_shape p w P k) as [E|(x & E & Hx)]; [left; exact E|].
    right. exists x. split; [exact E|].
    pose proof (iqCurR_le_Imax p k HI). lra. }
  split; [exact H1 | split].
  - intros i P k HR. destruct (H1 (omega_m_at p i) P k) as [E|H]; [|exact H].
    rewrite omega_m_at_Fin in E. apply iqMax_not_NaN in E; [contradiction | exact HR].
  - intros w P. destruct (TmFinal_Fin p w P) as (t & E & Ht).
    exists t. split; [exact E | split; [exact Ht|]].
    rewrite E, TmMax_Fin, le_Fin. apply Rleb_true. exact Ht.
Qed.

Lemma C6_current_clamp_witness :
  0 <= Imax defaults
  /\ (forall (w : num) P k,
        iqMax defaults w P k = NaN
        \/ exists x, iqMax defaults w P k = Fin x /\ 0 <= x <= Imax defaults)
  /\ (forall i P k, RphaseR defaults <> 0 ->
        exists x, iqMax defaults (omega_m_at defaults i) P k = Fin x
                  /\ 0 <= x <= Imax defaults)
  /\ (forall (w : num) P,
        exists t, TmFinal defaults w P = Fin t
                  /\ t <= KtR defaults * Imax defaults
                  /\ (TmFinal defaults w P <=? TmMax defaults)%js = true).
Proof.
  assert (H : 0 <= Imax defaults) by (cbn; lra).
  split; [exact H | exact (C6_current_clamp defaults H)].
Defined.

(** ** A negative voltage discriminant (C1) *)

Lemma VmaxR_sq p : VmaxR p * VmaxR p = (util p * Vbus p) * (util p * Vbus p) / 3.
Proof.
  unfold VmaxR. pose proof sqrt3_pos as Hs. pose proof sqrt3_sq as Hq.
  field_simplify_eq; [|lra].
  replace (R_sqrt.sqrt 3 ^ 2) with (R_sqrt.sqrt 3 * R_sqrt.sqrt 3) by ring.
  rewrite Hq. ring.
Qed.

Lemma idR_no_weakening p k : idFWmax p = 0 -> idR p k = 0.
Proof. intros H. unfold idR. rewrite H. unfold Rdiv. lra. Qed.

Lemma omegaR_defaults_60 : omegaR defaults 60 = 600.
Proof.
  unfold omegaR, speedR, stepR. cbn [maxSpeed steps drumRadius gearRatio defaults].
  rewrite INR_IZR_INZ. change (Z.of_nat 60) with 60%Z.
  rewrite (Rmax_right 1 60) by lra. rewrite (Rmax_right 1e-9 0.05) by lra.
  lra.
Qed.

Lemma discR_defaults_600 k : discR defaults 600 k < 0.
Proof.
  unfold discR, CR. rewrite VmaxR_sq, (idR_no_weakening defaults k) by reflexivity.
  unfold AR, BabsR, RphaseR, RphaseBaseR, LphaseR, KtR. fields. lra.
Qed.

Lemma lt_false_of_ge_false a : (a <? Fin 0)%js = true -> (a >=? Fin 0)%js = false.
Proof.
  destruct a as [| | |x]; cbn; try discriminate; try reflexivity.
  rewrite Rltb_true. intros H. apply Rleb_false. exact H.
Qed.

Lemma iqMaxVolt_blocked p w k :
  (disc p w k >=? Fin 0)%js = false -> iqMaxVolt p w k = Fin 0.
Proof.
  intros H. unfold iqMaxVolt, iqMaxVoltConc, iqMaxVoltEcc. rewrite H.
  destruct (mode p); reflexivity.
Qed.

Lemma min3_zero_mid c pw :
  0 <= c -> nonneg_or_nan pw ->
  JS.min3 (Fin c) (Fin 0) pw = Fin 0 \/ JS.min3 (Fin c) (Fin 0) pw = NaN.
Proof.
  intros Hc [->|[->|(y & -> & Hy)]]; unfold JS.min3; cbn [JS.min]; auto; left; f_equal.
  - apply Rmin_right. exact Hc.
  - rewrite (Rmin_right c 0) by exact Hc. apply Rmin_left. exact Hy.
Qed.

Lemma iqMax_blocked p w P k :
  (disc p w k >=? Fin 0)%js = false ->
  iqMax p w P k = Fin 0 \/ iqMax p w P k = NaN.
Proof.
  intros H. unfold iqMax. rewrite iqMaxCurrent_Fin, (iqMaxVolt_blocked p w k H).
  apply min3_zero_mid; [apply iqCurR_nonneg | apply iqMaxPower_shape].
Qed.

Lemma bestTm_step_blocked p w P k b :
  (disc p w k >=? Fin 0)%js = false -> 0 <= b ->
  bestTm_step p w P (Fin b) k = Fin b.
Proof.
  intros H Hb. unfold bestTm_step, Tm. rewrite Kt_Fin.
  destruct (iqMax_blocked p w P k H) as [-> | ->]; cbn [JS.mul]; [|reflexivity].
  rewrite gt_Fin. replace (KtR p * 0) with 0 by lra.
  rewrite (proj2 (Rltb_false b 0)) by exact Hb. reflexivity.
Qed.

Lemma bestTm_fold_blocked p w P (l : list nat) :
  (forall k, k ∈ l -> (disc p w k >=? Fin 0)%js = false) ->
  fold_left (bestTm_step p w P) l (Fin 0) = Fin 0.
Proof.
  induction l as [|k l IH]; intros H; cbn [fold_left]; [reflexivity|].
  rewrite bestTm_step_blocked; [|apply H; left|lra].
  apply IH. intros k' Hk'. apply H. right. exact Hk'.
Qed.

(** C1, as stated, fails for the default snapshot at its last sample
    (3 m/s, motor speed 600 rad/s): the voltage discriminant is negative,
    the voltage bound handed to [Math.min] is [0] and not [Infinity], and
    although the current limit (72 A) and the power limit are positive the
    selected current is [0]; the torque found and the plotted force are [0]. *)
Lemma C1_negative_disc_gives_zero_bound :
  omega_m_at defaults 60 = Fin 600
  /\ (disc defaults (Fin 600) 0 <? Fin 0)%js = true
  /\ iqMaxVolt defaults (Fin 600) 0 = Fin 0
  /\ iqMaxVolt defaults (Fin 600) 0 <> PInf
  /\ iqMaxCurrent defaults 0 = Fin 72
  /\ (exists q, iqMaxPower defaults (Fin 600) 3000 0 = Fin q /\ 0 < q)
  /\ iqMax defaults (Fin 600) 3000 0 = Fin 0
  /\ bestTm defaults (Fin 600) 3000 = Fin 0
  /\ force defaults (Fin 600) 3000 = Fin 0.
Proof.
  assert (Hlt : (disc defaults (Fin 600) 0 <? Fin 0)%js = true).
  { rewrite disc_Fin. cbn [JS.lt]. apply Rltb_true, discR_defaults_600. }
  pose proof (lt_false_of_ge_false _ Hlt) as Hge.
  assert (Hv : iqMaxVolt defaults (Fin 600) 0 = Fin 0)
    by (apply iqMaxVolt_blocked, Hge).
  assert (Hc : iqMaxCurrent defaults 0 = Fin 72).
  { rewrite iqMaxCurrent_Fin. f_equal. unfold iqCurR.
    rewrite (idR_no_weakening defaults 0) by reflexivity. cbn [Imax defaults].
    rewrite Rmax_right by lra.
    replace (72 * 72 - 0 * 0) with (72 * 72) by lra. apply sqrt_square. lra. }
  assert (HD : 163.2 * 163.2 < DpR defaults 600 3000 0).
  { unfold DpR, bPR, aPR, cPR.
    rewrite (idR_no_weakening defaults 0) by reflexivity.
    unfold RphaseR, RphaseBaseR, KtR. fields. lra. }
  assert (Hs : 163.2 < R_sqrt.sqrt (DpR defaults 600 3000 0)).
  { rewrite <- (sqrt_square 163.2) at 1 by lra. apply sqrt_lt_1_alt. lra. }
  assert (Hp : exists q, iqMaxPower defaults (Fin 600) 3000 0 = Fin q /\ 0 < q).
  { rewrite iqMaxPower_conc_Fin; [|reflexivity| |nra].
    - eexists. split; [reflexivity|].
      eapply Rlt_le_trans; [|apply Rmax_r].
      unfold bPR, aPR, RphaseR, RphaseBaseR, KtR in *. fields.
      apply Rdiv_lt_0_compat; lra.
    - unfold aPR, RphaseR, RphaseBaseR. fields. lra. }
  assert (Hb : bestTm defaults (Fin 600) 3000 = Fin 0).
  { unfold bestTm. apply bestTm_fold_blocked. intros k _.
    rewrite disc_test. apply Rleb_false, discR_defaults_600. }
  repeat split; try assumption.
  - rewrite omega_m_at_Fin, omegaR_defaults_60. reflexivity.
  - rewrite Hv. discriminate.
  - destruct Hp as (q & Eq & Hq). unfold iqMax. rewrite Hc, Hv, Eq.
    unfold JS.min3. cbn [JS.min]. f_equal.
    rewrite (Rmin_right 72 0) by lra. apply Rmin_left. lra.
  - unfold force, lbf, F, Tout, TmFinal, LBF_PER_N. rewrite Hb, TmMax_Fin.
    unfold KtR. fields. js_fin.
    rewrite (Rmin_left 0 (0.272 * 72)) by lra.
    rewrite !div_Fin by (try apply Rmax_eps_nz; lra). js_fin.
    rewrite gt_Fin.
    replace (0 * 10 * 0.9 / Rmax 1e-9 0.05 * (1 / 4.4482216152605)) with 0
      by (unfold Rdiv; ring).
    rewrite (proj2 (Rltb_false 0 0)) by lra. reflexivity.
Qed.

(** C1, amended: when the voltage discriminant is negative at an [id]
    sample, the voltage bound passed to [Math.min] is [0]; the selected
    current there is [0] (or NaN) and the sample leaves [bestTm] unchanged;
    when it is negative at every [id] sample the motor torque found is [0]:
    a negative voltage discriminant suppresses torque. *)
Theorem C1_negative_disc_blocks_torque (p : params) (w : num) (P : Z) (k : nat)
    (Hneg : (disc p w k <? Fin 0)%js = true) :
  iqMaxVolt p w k = Fin 0
  /\ (iqMax p w P k = Fin 0 \/ iqMax p w P k = NaN)
  /\ (forall b, 0 <= b -> bestTm_step p w P (Fin b) k = Fin b)
  /\ ((forall j, (j <= N_ID)%nat -> (disc p w j <? Fin 0)%js = true) ->
      bestTm p w P = Fin 0).
Proof.
  pose proof (lt_false_of_ge_false _ Hneg) as Hge.
  split; [apply iqMaxVolt_blocked, Hge|].
  split; [apply iqMax_blocked, Hge|].
  split; [intros b Hb; apply bestTm_step_blocked; assumption|].
  intros Hall. unfold bestTm. apply bestTm_fold_blocked.
  intros j Hj. apply lt_false_of_ge_false, Hall.
  apply elem_of_seq in Hj. lia.
Qed.

Lemma C1_negative_disc_blocks_torque_witness :
  (disc defaults (Fin 600) 0 <? Fin 0)%js = true
  /\ iqMaxVolt defaults (Fin 600) 0 = Fin 0
  /\ (iqMax defaults (Fin 600) 3000 0 = Fin 0
      \/ iqMax defaults (Fin 600) 3000 0 = NaN)
  /\ (forall b, 0 <= b -> bestTm_step defaults (Fin 600) 3000 (Fin b) 0 = Fin b)
  /\ ((forall j, (j <= N_ID)%nat -> (disc defaults (Fin 600) j <? Fin 0)%js = true) ->
      bestTm defaults (Fin 600) 3000 = Fin 0).
Proof.
  assert (H : (disc defaults (Fin 600) 0 <? Fin 0)%js = true).
  { rewrite disc_Fin. cbn [JS.lt]. apply Rltb_true, discR_defaults_600. }
  split; [exact H | exact (C1_negative_disc_blocks_torque defaults (Fin 600) 3000 0 H)].
Defined.

(** ** The power limit (C9) *)

Lemma min_PInf_r a : JS.min a PInf = a.
Proof. destruct a; reflexivity. Qed.

Lemma DpR_spec p w P k :
  DpR p w P k
  = (KtR p * w) * (KtR p * w)
    - 4 * (3 * RphaseR p) * (3 * RphaseR p * (idR p k * idR p k) - IZR P).
Proof. unfold DpR, bPR, aPR, cPR. ring. Qed.

(** C9: in motoring mode, at every motor speed, supply limit and [id]
    sample, the power-limited current is the specification's
    [max(0, (-b + sqrt(disc)) / (2*3R))] with [b = Kt*w] and
    [disc = b^2 - 4*(3R)*(3R*id^2 - P)] when [disc >= 0], and [0] when
    [disc < 0]; in regenerating mode it is [+Infinity], so that the selected
    current is the minimum of the current and voltage limits alone. *)
Theorem C9_power_limit (p : params) (w : R) (P : Z) (k : nat) :
  (mode p = CONC ->
     iqMaxPower p (Fin w) P k
     = iq_max_power_spec (RphaseR p) (KtR p) w (idR p k) P
     /\ (0 <= DpR p w P k ->
           iqMaxPower p (Fin w) P k
           = JS.max (Fin 0)
               (Fin (- (KtR p * w) + R_sqrt.sqrt (DpR p w P k))
                / Fin (2 * (3 * RphaseR p)))%js)
     /\ (DpR p w P k < 0 ->
           iqMaxPower p (Fin w) P k = Fin 0
           /\ (iqMax p (Fin w) P k = Fin 0 \/ iqMax p (Fin w) P k = NaN)))
  /\ (mode p = ECC ->
        iqMaxPower p (Fin w) P k = PInf
        /\ iqMax p (Fin w) P k
           = JS.min (iqMaxCurrent p k) (iqMaxVolt p (Fin w) k)).
Proof.
  split.
  - intros Hm.
    assert (Hge : 0 <= DpR p w P k ->
              iqMaxPower p (Fin w) P k
              = JS.max (Fin 0)
                  (Fin (- (KtR p * w) + R_sqrt.sqrt (DpR p w P k))
                   / Fin (2 * (3 * RphaseR p)))%js).
    { intros Hd. unfold iqMaxPower. rewrite Hm, Dp_test.
      rewrite (proj2 (Rleb_true _ _) Hd).
      rewrite Dp_Fin, bP_Fin, aP_Fin, sqrt_Fin by exact Hd. js_fin.
      reflexivity. }
    assert (Hlt : DpR p w P k < 0 -> iqMaxPower p (Fin w) P k = Fin 0)
      by (apply iqMaxPower_conc_infeasible, Hm).
    split; [|split; [exact Hge|]].
    + unfold iq_max_power_spec. cbv zeta. rewrite <- DpR_spec.
      destruct (Rle_dec 0 (DpR p w P k)) as [Hd|Hd]; [apply Hge, Hd | apply Hlt; lra].
    + intros Hd. split; [apply Hlt, Hd|].
      unfold iqMax. rewrite (Hlt Hd), iqMaxCurrent_Fin.
      destruct (iqMaxVolt_shape p (Fin w) k) as [->|[->|(v & -> & Hv)]];
        unfold JS.min3; cbn [JS.min]; auto; left; f_equal.
      * apply Rmin_right, iqCurR_nonneg.
      * apply Rmin_right. apply Rmin_glb; [apply iqCurR_nonneg | exact Hv].
  - intros Hm. split; [apply iqMaxPower_ecc, Hm|].
    unfold iqMax, JS.min3. rewrite iqMaxPower_ecc by exact Hm. apply min_PInf_r.
Qed.

(** ** Eccentric against concentric voltage roots (C10) *)

Lemma BabsR_nonneg p w :
  0 <= RphaseR p -> 0 <= w -> 0 <= KtR p -> 0 <= BabsR p w.
Proof.
  intros HR Hw HK. unfold BabsR.
  apply Rmult_le_pos; [apply Rmult_le_pos; [apply Rmult_le_pos; [lra | exact HR] | exact Hw] | exact HK].
Qed.

(** C10, as stated, fails for the snapshot [lossless] at standstill
    ([Rphase = 0 >= 0], [omega_m = 0 >= 0], [Kt = 0.272 >= 0]): the
    discriminant is [0 >= 0], [A] is [0], both quotients are [0/0 = NaN],
    and [NaN >= NaN] is false. *)
Lemma C10_roots_NaN_when_A_zero :
  0 <= RphaseR lossless /\ 0 <= KtR lossless
  /\ (disc lossless (Fin 0) 0 >=? Fin 0)%js = true
  /\ A lossless (Fin 0) = Fin 0
  /\ rootEcc lossless (Fin 0) 0 = NaN
  /\ rootConc lossless (Fin 0) 0 = NaN
  /\ (rootEcc lossless (Fin 0) 0 >=? rootConc lossless (Fin 0) 0)%js = false.
Proof.
  pose proof RphaseR_lossless as HR.
  assert (HA : AR lossless 0 = 0) by (unfold AR; rewrite HR; lra).
  assert (HB : BabsR lossless 0 = 0) by (unfold BabsR; lra).
  assert (HD : discR lossless 0 0 = 0) by (unfold discR; rewrite HA, HB; lra).
  assert (HE : rootEcc lossless (Fin 0) 0 = NaN).
  { unfold rootEcc. rewrite disc_Fin, Babs_Fin, A_Fin, HD, HB, HA.
    rewrite sqrt_Fin, sqrt_0 by lra. js_fin.
    replace (0 + 0) with 0 by lra. replace (2 * 0) with 0 by lra.
    apply div_Fin_zero_zero. }
  assert (HC : rootConc lossless (Fin 0) 0 = NaN).
  { unfold rootConc. rewrite disc_Fin, Babs_Fin, A_Fin, HD, HB, HA.
    rewrite sqrt_Fin, sqrt_0 by lra. js_fin.
    replace (- 0 + 0) with 0 by lra. replace (2 * 0) with 0 by lra.
    apply div_Fin_zero_zero. }
  repeat split.
  - lra.
  - unfold KtR. fields. lra.
  - rewrite disc_Fin, HD, ge_Fin. apply Rleb_true. lra.
  - rewrite A_Fin, HA. reflexivity.
  - exact HE.
  - exact HC.
  - rewrite HE, HC. reflexivity.
Qed.

(** C10, amended: for [Rphase >= 0], [omega_m >= 0], [Kt >= 0], a
    non-negative voltage discriminant and a non-zero coefficient
    [A = R^2 + (omega_m L)^2], the eccentric quotient
    [(Babs + sqrt(disc)) / (2A)] is greater than or equal to the concentric
    one [(-Babs + sqrt(disc)) / (2A)], and so is the eccentric voltage-limited
    current against the concentric one. *)
Theorem C10_ecc_root_ge_conc_root (p : params) (w : R) (k : nat)
    (HR : 0 <= RphaseR p) (Hw : 0 <= w) (HK : 0 <= KtR p)
    (HA : A p (Fin w) <> Fin 0)
    (Hd : (disc p (Fin w) k >=? Fin 0)%js = true) :
  (rootEcc p (Fin w) k >=? rootConc p (Fin w) k)%js = true
  /\ (iqMaxVoltEcc p (Fin w) k >=? iqMaxVoltConc p (Fin w) k)%js = true.
Proof.
  assert (HA' : AR p w <> 0) by (intros E; apply HA; rewrite A_Fin, E; reflexivity).
  assert (HApos : 0 < AR p w) by (pose proof (AR_nonneg p w); lra).
  pose proof Hd as Hd'. rewrite disc_test in Hd'. apply Rleb_true in Hd'.
  pose proof (BabsR_nonneg p w HR Hw HK) as HB.
  assert (Hle : (- BabsR p w + R_sqrt.sqrt (discR p w k)) / (2 * AR p w)
                <= (BabsR p w + R_sqrt.sqrt (discR p w k)) / (2 * AR p w)).
  { apply Rmult_le_compat_r; [|lra].
    left. apply Rinv_0_lt_compat. lra. }
  split.
  - rewrite rootEcc_Fin, rootConc_Fin by assumption.
    rewrite ge_Fin. apply Rleb_true, Hle.
  - unfold iqMaxVoltEcc, iqMaxVoltConc. rewrite Hd.
    rewrite rootEcc_Fin, rootConc_Fin by assumption. cbn [JS.max].
    rewrite ge_Fin. apply Rleb_true.
    apply Rmax_lub; [apply Rmax_l|].
    eapply Rle_trans; [exact Hle | apply Rmax_r].
Qed.

Lemma discR_defaults_0 : 0 <= discR defaults 0 0.
Proof.
  unfold discR, CR. rewrite VmaxR_sq, (idR_no_weakening defaults 0) by reflexivity.
  unfold AR, BabsR, RphaseR, RphaseBaseR, LphaseR, KtR. fields. lra.
Qed.

Lemma AR_defaults_0 : AR defaults 0 <> 0.
Proof. unfold AR, RphaseR, RphaseBaseR, LphaseR. fields. lra. Qed.

Lemma C10_ecc_root_ge_conc_root_witness :
  (rootEcc defaults (Fin 0) 0 >=? rootConc defaults (Fin 0) 0)%js = true
  /\ (iqMaxVoltEcc defaults (Fin 0) 0 >=? iqMaxVoltConc defaults (Fin 0) 0)%js
     = true.
Proof.
  apply (C10_ecc_root_ge_conc_root defaults 0 0).
  - unfold RphaseR, RphaseBaseR. fields. lra.
  - lra.
  - unfold KtR. fields. lra.
  - rewrite A_Fin. intros E. injection E as E. exact (AR_defaults_0 E).
  - rewrite disc_test. apply Rleb_true, discR_defaults_0.
Defined.

(** ** Clamped and unclamped denominators (C5) *)

Lemma Tout_Fin p w P : exists t, Tout p w P = Fin t.
Proof.
  unfold Tout. destruct (TmFinal_Fin p w P) as (t & -> & _).
  eexists. reflexivity.
Qed.

Lemma F_Fin p w P : exists f, F p w P = Fin f.
Proof.
  unfold F. destruct (Tout_Fin p w P) as (t & ->). cbn [JS.max].
  rewrite div_Fin by apply Rmax_eps_nz. eexists. reflexivity.
Qed.

Lemma lbf_Fin p w P : exists f, lbf p w P = Fin f.
Proof.
  unfold lbf, LBF_PER_N. destruct (F_Fin p w P) as (f & ->).
  rewrite div_Fin by lra. eexists. reflexivity.
Qed.

(** C5, as stated, fails: the denominator [2 * A] of the voltage solve is
    not clamped.  For the snapshot [lossless] at the first sample (speed 0)
    it is [0], below [1e-9], and the quotient is [0/0 = NaN]; and with a zero
    torque constant the unclamped [Kt * Kt] makes [kcu] infinite. *)
Lemma C5_voltage_denominator_unclamped :
  (Fin 2 * A lossless (omega_m_at lossless 0))%js = Fin 0
  /\ (Fin 2 * A lossless (omega_m_at lossless 0) >=? Fin 1e-9)%js = false
  /\ rootConc lossless (omega_m_at lossless 0) 0 = NaN
  /\ iqMaxVoltConc lossless (omega_m_at lossless 0) 0 = NaN
  /\ (Kt (setKtState 0 defaults) * Kt (setKtState 0 defaults))%js = Fin 0
  /\ kcu (setKtState 0 defaults) = PInf.
Proof.
  pose proof RphaseR_lossless as HR.
  assert (HA : AR lossless 0 = 0) by (unfold AR; rewrite HR; lra).
  assert (HV : iqMaxVolt lossless (Fin 0) 0 = NaN)
    by (apply iqMaxVolt_degenerate, HR).
  unfold iqMaxVolt in HV. change (mode lossless) with CONC in HV.
  assert (Hge : (disc lossless (Fin 0) 0 >=? Fin 0)%js = true).
  { unfold iqMaxVoltConc in HV.
    destruct (disc lossless (Fin 0) 0 >=? Fin 0)%js; [reflexivity | discriminate]. }
  rewrite omega_m_at_Fin, omegaR_0, A_Fin, HA. js_fin.
  replace (2 * 0) with 0 by lra.
  split; [reflexivity|].
  split; [rewrite ge_Fin; apply Rleb_false; lra|].
  split.
  - unfold iqMaxVoltConc in HV. rewrite Hge in HV.
    destruct (rootConc lossless (Fin 0) 0) as [| | |x]; try reflexivity;
      cbn [JS.max] in HV; discriminate.
  - split; [exact HV|].
    unfold kcu. rewrite Kt_Fin, Rphase_Fin. js_fin.
    unfold KtR, RphaseR, RphaseBaseR. fields.
    replace (0 * 0) with 0 by lra. split; [reflexivity|].
    apply div_Fin_pos_zero. lra.
Qed.

Lemma div_by_zero_not_finite a :
  isFinite (a / Fin 0)%js = false.
Proof.
  destruct a as [| | |x]; unfold JS.div; try reflexivity.
  - destruct (JS.Rltb 0 0); reflexivity.
  - destruct (JS.Rltb 0 0); reflexivity.
  - rewrite Rsign_zero. destruct (JS.Rsign x); reflexivity.
Qed.

Lemma voltage_quotients_unclamped p w k :
  AR p w = 0 ->
  (Fin 2 * A p (Fin w))%js = Fin 0
  /\ isFinite (rootConc p (Fin w) k) = false
  /\ isFinite (rootEcc p (Fin w) k) = false.
Proof.
  intros HA.
  assert (E : (Fin 2 * A p (Fin w))%js = Fin 0).
  { rewrite A_Fin, HA. cbn [JS.mul]. f_equal. lra. }
  split; [exact E|].
  unfold rootConc, rootEcc. rewrite E.
  split; apply div_by_zero_not_finite.
Qed.

Lemma power_quotient_unclamped p w P k :
  RphaseR p = 0 ->
  (Fin 2 * aP p)%js = Fin 0
  /\ (mode p = CONC -> isFinite (iqMaxPower p (Fin w) P k) = false).
Proof.
  intros HR.
  assert (Ha : aPR p = 0) by (unfold aPR; rewrite HR; lra).
  assert (E : (Fin 2 * aP p)%js = Fin 0).
  { rewrite aP_Fin, Ha. cbn [JS.mul]. f_equal. lra. }
  split; [exact E|].
  intros Hm. unfold iqMaxPower. rewrite Hm, Dp_test.
  assert (HD : DpR p w P k = bPR p w * bPR p w) by (unfold DpR; rewrite Ha; ring).
  assert (H0 : 0 <= DpR p w P k) by (rewrite HD; apply Rle_0_sqr).
  rewrite (proj2 (Rleb_true _ _) H0), E, Dp_Fin, bP_Fin, sqrt_Fin by exact H0.
  cbn [JS.neg JS.add].
  assert (Hn : 0 <= - bPR p w + R_sqrt.sqrt (DpR p w P k)).
  { pose proof (sqrt_pos (DpR p w P k)) as Hs.
    destruct (Rle_or_lt (bPR p w) 0) as [Hb|Hb]; [lra|].
    rewrite HD, sqrt_square by lra. lra. }
  unfold JS.div. rewrite Rsign_zero.
  destruct Hn as [Hn|Hn].
  - rewrite (Rsign_pos _ Hn). reflexivity.
  - rewrite <- Hn, Rsign_zero. reflexivity.
Qed.

Lemma kcu_unclamped p :
  KtR p = 0 -> (Kt p * Kt p)%js = Fin 0 /\ isFinite (kcu p) = false.
Proof.
  intros HK.
  assert (E : (Kt p * Kt p)%js = Fin 0).
  { rewrite Kt_Fin, HK. cbn [JS.mul]. f_equal. lra. }
  split; [exact E|].
  unfold kcu. rewrite E. apply div_by_zero_not_finite.
Qed.

(** C5, amended: the denominators that are clamped are the drum radius
    (in [omega_out] and in [F]) and the constant entered by the user when
    the other motor constant is derived from it; each is at least [1e-9].
    Hence [Kt], [Kv], the speed, the output and motor angular speeds, and the
    force quantities [F] and [lbf] are real numbers for every snapshot.
    These quotients are the real quotients by [max(1e-9, .)]: [Kt] in Kv
    mode and [Kv] in Kt mode divide [9.5492965964254] by the clamped entry,
    [omega_out] divides the speed and [F] divides the output torque by the
    clamped radius.  The gear ratio is never a denominator: it multiplies
    [omega_out] into [omega_m] and the motor torque into [Tout].  And
    [2 * A], [2 * aP] and [Kt * Kt] are divided by as they are: when [A] is
    zero both voltage quotients are not finite, when [Rphase] is zero the
    power bound of the motoring mode is not finite, and when [Kt] is zero
    [kcu] is not finite. *)
Theorem C5_clamped_denominators (p : params) :
  (exists d, JS.max (Fin 1e-9) (Fin (drumRadius p)) = Fin d /\ 1e-9 <= d)
  /\ (exists d, JS.max (Fin 1e-9) (Fin (KvState p)) = Fin d /\ 1e-9 <= d)
  /\ (exists d, JS.max (Fin 1e-9) (Fin (KtState p)) = Fin d /\ 1e-9 <= d)
  /\ (exists kt kv, Kt p = Fin kt /\ Kv p = Fin kv)
  /\ (forall i, exists v wo wm,
        speed_at p i = Fin v /\ omega_out p i = Fin wo
        /\ omega_m_at p i = Fin wm)
  /\ (forall w P, exists f l, F p w P = Fin f /\ lbf p w P = Fin l)
  /\ (constMode p = KV ->
        Kt p = Fin (9.5492965964254 / Rmax 1e-9 (KvState p)))
  /\ (constMode p = KT ->
        Kv p = Fin (9.5492965964254 / Rmax 1e-9 (KtState p)))
  /\ (forall i v, speed_at p i = Fin v ->
        omega_out p i = Fin (v / Rmax 1e-9 (drumRadius p))
        /\ omega_m_at p i = Fin (v / Rmax 1e-9 (drumRadius p) * gearRatio p))
  /\ (forall w P, exists t,
        TmFinal p w P = Fin t
        /\ Tout p w P = Fin (t * gearRatio p * gearEff p)
        /\ F p w P
           = Fin (t * gearRatio p * gearEff p / Rmax 1e-9 (drumRadius p)))
  /\ (forall w k, AR p w = 0 ->
        (Fin 2 * A p (Fin w))%js = Fin 0
        /\ isFinite (rootConc p (Fin w) k) = false
        /\ isFinite (rootEcc p (Fin w) k) = false)
  /\ (forall w P k, RphaseR p = 0 ->
        (Fin 2 * aP p)%js = Fin 0
        /\ (mode p = CONC -> isFinite (iqMaxPower p (Fin w) P k) = false))
  /\ (KtR p = 0 -> (Kt p * Kt p)%js = Fin 0 /\ isFinite (kcu p) = false).
Proof.
  repeat match goal with |- _ /\ _ => split end;
    try (eexists; split; [reflexivity | apply Rmax_eps_pos]).
  - exists (KtR p). rewrite Kt_Fin. unfold Kv, KTKV.
    destruct (constMode p); cbn [JS.max]; [rewrite div_Fin by apply Rmax_eps_nz|];
      eexists; split; reflexivity.
  - intros i. exists (speedR p i).
    unfold omega_m_at, omega_out. rewrite speed_at_Fin. cbn [JS.max].
    rewrite div_Fin by apply Rmax_eps_nz. do 2 eexists. repeat split.
  - intros w P. destruct (F_Fin p w P) as (f & Hf).
    destruct (lbf_Fin p w P) as (l & Hl). exists f, l. split; assumption.
  - intros Hc. unfold Kt, KTKV. rewrite Hc. cbn [JS.max].
    apply div_Fin, Rmax_eps_nz.
  - intros Hc. unfold Kv, KTKV. rewrite Hc. cbn [JS.max].
    apply div_Fin, Rmax_eps_nz.
  - intros i v Hv. unfold omega_m_at, omega_out. rewrite Hv. cbn [JS.max].
    rewrite div_Fin by apply Rmax_eps_nz. split; reflexivity.
  - intros w P. destruct (TmFinal_Fin p w P) as (t & Ht & _). exists t.
    split; [exact Ht|]. unfold F, Tout. rewrite Ht. cbn [JS.mul JS.max].
    split; [reflexivity|]. apply div_Fin, Rmax_eps_nz.
  - intros w k. apply voltage_quotients_unclamped.
  - intros w P k. apply power_quotient_unclamped.
  - apply kcu_unclamped.
Qed.

(** ** Power-limit consistency with the power-only model (C2) *)

Lemma positive_root_unique (c w P a b : R) :
  0 < c -> 0 < P -> 0 < a -> 0 < b ->
  c * (a * a) + w * a - P = 0 -> c * (b * b) + w * b - P = 0 -> a = b.
Proof.
  intros Hc HP Ha Hb Ea Eb.
  assert (H1 : 0 < c * a + w).
  { assert (a * (c * a + w) = P) by lra.
    destruct (Rlt_or_le 0 (c * a + w)) as [H0|H0]; [exact H0|]. nra. }
  assert (H2 : (a - b) * (c * (a + b) + w) = 0) by (ring_simplify; nra).
  apply Rmult_integral in H2 as [H2|H2]; [lra|].
  assert (0 < c * b) by (apply Rmult_lt_0_compat; assumption). lra.
Qed.

(** When every [id] sample gives the same positive torque, it is the best. *)
Lemma bestTm_constant p w P t :
  0 < t -> (forall k, Tm p w P k = Fin t) -> bestTm p w P = Fin t.
Proof.
  intros Ht H.
  assert (Hstep : forall b k, bestTm_step p w P (Fin b) k
                              = if Rltb b t then Fin t else Fin b).
  { intros b k. unfold bestTm_step. rewrite H, gt_Fin. reflexivity. }
  assert (Hfold : forall ks, fold_left (bestTm_step p w P) ks (Fin t) = Fin t).
  { induction ks as [|k ks IH]; cbn [fold_left]; [reflexivity|].
    rewrite Hstep, (proj2 (Rltb_false _ _)) by lra. exact IH. }
  unfold bestTm. rewrite fold_left_seq_S, Hstep.
  rewrite (proj2 (Rltb_true 0 t) Ht). apply Hfold.
Qed.

Section PowerLimit.

Variables (kt r l w : R) (P : Z).
Hypothesis Hkt : 0 < kt.
Hypothesis Hr : 0 < r.
Hypothesis HP : (0 < P)%Z.

Local Abbreviation pdisc := (power_disc kt r w P).
Local Abbreviation piq := (power_iq kt r w P).
Local Abbreviation vthr := (volt_threshold kt r l w P).

Lemma IZR_P_pos : 0 < IZR P.
Proof. apply IZR_lt in HP. exact HP. Qed.

Lemma power_disc_pos : 0 < pdisc.
Proof. pose proof IZR_P_pos. unfold power_disc. nra. Qed.

Lemma sqrt_power_disc_sq :
  R_sqrt.sqrt pdisc * R_sqrt.sqrt pdisc = pdisc.
Proof. apply sqrt_sqrt. pose proof power_disc_pos. lra. Qed.

Lemma sqrt_power_disc_gt : kt * w < R_sqrt.sqrt pdisc.
Proof.
  pose proof IZR_P_pos as Hp. pose proof sqrt_power_disc_sq as Hq.
  pose proof (sqrt_pos pdisc) as Hs. unfold power_disc in Hq at 3.
  destruct (Rlt_or_le (kt * w) (R_sqrt.sqrt pdisc)) as [H|H]; [exact H|].
  nra.
Qed.

Lemma power_iq_pos : 0 < piq.
Proof.
  unfold power_iq. pose proof sqrt_power_disc_gt.
  apply Rdiv_lt_0_compat; lra.
Qed.

Lemma power_iq_root :
  3 * r * (piq * piq) + kt * w * piq - IZR P = 0.
Proof.
  pose proof sqrt_power_disc_sq as Hq. unfold power_disc in Hq at 3.
  unfold power_iq. field_simplify_eq; [|lra]. nra.
Qed.

(** The torque [kt * piq] is the positive root of the simple model. *)
Lemma power_tau_root :
  3 * r / (kt * kt) * ((kt * piq) * (kt * piq))
  + w * (kt * piq) - IZR P = 0.
Proof.
  pose proof power_iq_root as H. field_simplify_eq; [|lra]. nra.
Qed.

Lemma AppOld_Tm_root :
  AppOld.Tm (Fin (3 * r / (kt * kt))) (Fin w) P = Fin (kt * piq).
Proof.
  set (c := 3 * r / (kt * kt)).
  assert (Hc : 0 < c) by (unfold c; apply Rdiv_lt_0_compat; nra).
  pose proof IZR_P_pos as Hp.
  set (d := w * w + 4 * c * IZR P).
  assert (Hd : 0 < d) by (unfold d; nra).
  pose proof (sqrt_sqrt d (Rlt_le _ _ Hd)) as Hq.
  pose proof (sqrt_pos d) as Hs.
  assert (Hgt : w < R_sqrt.sqrt d).
  { destruct (Rlt_or_le w (R_sqrt.sqrt d)) as [H|H]; [exact H|].
    unfold d in Hq at 3. nra. }
  unfold AppOld.Tm. js_fin. fold c. fold d.
  rewrite sqrt_Fin by lra. js_fin. rewrite div_Fin by lra. f_equal.
  set (t := (R_sqrt.sqrt d + - w) / (2 * c)).
  assert (Ht : 0 < t) by (unfold t; apply Rdiv_lt_0_compat; lra).
  assert (Et : c * (t * t) + w * t - IZR P = 0).
  { unfold t. unfold d in Hq at 3. field_simplify_eq; [|lra]. nra. }
  apply (positive_root_unique c w (IZR P)); try assumption.
  - apply Rmult_lt_0_compat; [exact Hkt | exact power_iq_pos].
  - exact power_tau_root.
Qed.

Variable p : params.
Hypothesis Hmode : mode p = CONC.
Hypothesis Hfw : idFWmax p = 0.
Hypothesis HKt : KtR p = kt.
Hypothesis HR : RphaseR p = r.
Hypothesis HL : LphaseR p = l.
Hypothesis HV : vthr <= VmaxR p.
Hypothesis HI : piq <= Imax p.

Lemma iqCurR_unweakened k : iqCurR p k = Imax p.
Proof.
  pose proof power_iq_pos as Hq.
  unfold iqCurR. rewrite (idR_no_weakening p k Hfw).
  rewrite Rmax_right by nra.
  replace (Imax p * Imax p - 0 * 0) with (Imax p * Imax p) by lra.
  apply sqrt_square. lra.
Qed.

Lemma iqMaxPower_unweakened k : iqMaxPower p (Fin w) P k = Fin piq.
Proof.
  assert (ED : DpR p w P k = pdisc).
  { unfold DpR, bPR, aPR, cPR, power_disc.
    rewrite (idR_no_weakening p k Hfw), HKt, HR. ring. }
  pose proof power_disc_pos as Hd. pose proof power_iq_pos as Hq.
  rewrite iqMaxPower_conc_Fin; [|exact Hmode| |rewrite ED; lra].
  - f_equal. rewrite ED. unfold bPR, aPR. rewrite HKt, HR.
    replace (2 * (3 * r)) with (6 * r) by ring. fold (power_iq kt r w P).
    apply Rmax_right. lra.
  - unfold aPR. rewrite HR. lra.
Qed.

Lemma Vmax_sq_large :
  (r * r + (w * l) * (w * l)) * (piq * piq)
  + 2 * r * w * kt * piq + (w * kt) * (w * kt)
  <= VmaxR p * VmaxR p
  /\ (w * kt) * (w * kt) <= VmaxR p * VmaxR p.
Proof.
  unfold volt_threshold in HV.
  set (e := (r * r + (w * l) * (w * l)) * (piq * piq)
            + 2 * r * w * kt * piq) in *.
  pose proof (Rle_abs e) as H1. pose proof (Rabs_pos e) as H2.
  assert (0 <= (w * kt) * (w * kt)) by nra.
  assert (1 <= VmaxR p) by lra.
  assert (VmaxR p <= VmaxR p * VmaxR p) by nra.
  split; lra.
Qed.

Lemma iqMaxVolt_unweakened k :
  exists v, iqMaxVolt p (Fin w) k = Fin v /\ piq <= v.
Proof.
  destruct Vmax_sq_large as [HV1 HV2].
  pose proof power_iq_pos as Hq.
  assert (HA : 0 < AR p w) by (apply AR_pos; lra).
  assert (EA : AR p w = r * r + (w * l) * (w * l))
    by (unfold AR; rewrite HR, HL; reflexivity).
  assert (EB : BabsR p w = 2 * r * w * kt)
    by (unfold BabsR; rewrite HR, HKt; reflexivity).
  assert (EC : CR p w k = (w * kt) * (w * kt) - VmaxR p * VmaxR p).
  { unfold CR. rewrite (idR_no_weakening p k Hfw), HKt. ring. }
  set (m := 2 * AR p w * piq + BabsR p w).
  assert (Hm : m * m <= discR p w k).
  { unfold m, discR. rewrite EC.
    assert (0 <= 4 * AR p w * (VmaxR p * VmaxR p - (w * kt) * (w * kt)
                              - AR p w * (piq * piq)
                              - BabsR p w * piq)).
    { apply Rmult_le_pos; [lra|]. rewrite EA, EB. lra. }
    lra. }
  assert (Hd : 0 <= discR p w k) by nra.
  assert (Hs : m <= R_sqrt.sqrt (discR p w k)).
  { destruct (Rle_or_lt m 0) as [H0|H0].
    - pose proof (sqrt_pos (discR p w k)). lra.
    - rewrite <- (sqrt_square m) by lra. apply sqrt_le_1_alt. exact Hm. }
  assert (Hroot : piq
                  <= (- BabsR p w + R_sqrt.sqrt (discR p w k)) / (2 * AR p w)).
  { apply Rmult_le_reg_r with (2 * AR p w); [lra|].
    unfold Rdiv. rewrite Rmult_assoc, Rinv_l by lra. unfold m in Hs. lra. }
  unfold iqMaxVolt, iqMaxVoltConc. rewrite Hmode, disc_test.
  rewrite (proj2 (Rleb_true _ _) Hd), rootConc_Fin by lra.
  cbn [JS.max]. eexists. split; [reflexivity|].
  eapply Rle_trans; [exact Hroot | apply Rmax_r].
Qed.

Lemma Tm_unweakened k : Tm p (Fin w) P k = Fin (kt * piq).
Proof.
  unfold Tm, iqMax.
  rewrite Kt_Fin, iqMaxCurrent_Fin, iqCurR_unweakened, iqMaxPower_unweakened.
  destruct (iqMaxVolt_unweakened k) as (v & -> & Hv).
  unfold JS.min3. cbn [JS.min JS.mul]. rewrite HKt. do 2 f_equal.
  apply Rmin_right. apply Rmin_glb; assumption.
Qed.

Lemma bestTm_unweakened : bestTm p (Fin w) P = Fin (kt * piq).
Proof.
  apply bestTm_constant; [|exact Tm_unweakened].
  apply Rmult_lt_0_compat; [exact Hkt | exact power_iq_pos].
Qed.

Lemma TmFinal_unweakened : TmFinal p (Fin w) P = Fin (kt * piq).
Proof.
  unfold TmFinal. rewrite bestTm_unweakened, TmMax_Fin. cbn [JS.min]. f_equal.
  apply Rmin_left. rewrite HKt. apply Rmult_le_compat_l; lra.
Qed.

Lemma kcu_unweakened : kcu p = Fin (3 * r / (kt * kt)).
Proof.
  unfold kcu. js_fin. rewrite HKt, HR. apply div_Fin. nra.
Qed.

End PowerLimit.

Lemma sqrt3_le_2 : R_sqrt.sqrt 3 <= 2.
Proof. pose proof sqrt3_pos. pose proof sqrt3_sq. nra. Qed.

(** Snapshots with prescribed motor constants and arbitrarily large voltage
    and current limits exist. *)
Lemma unconstrained_snapshot_exists (kt r l V I : R) :
  exists p : params,
    mode p = CONC /\ idFWmax p = 0
    /\ KtR p = kt /\ RphaseR p = r /\ LphaseR p = l
    /\ V <= VmaxR p /\ I <= Imax p.
Proof.
  exists {| constMode := KT; KtState := kt; KvState := 35; mode := CONC;
            Rll := r / 1.5; Lll_uH := l / 1.5 / 1e-6; winding := DELTA;
            copperTempC := 25; Vbus := 2 * (Rabs V + 1); util := 1;
            Imax := I; idFWmax := 0; gearRatio := 10; gearEff := 0.9;
            drumRadius := 0.05; maxSpeed := 3; steps := 60;
            selected := [3000%Z] |}.
  unfold KtR, RphaseR, RphaseBaseR, LphaseR, VmaxR.
  cbn [constMode KtState mode Rll Lll_uH winding copperTempC Vbus util Imax idFWmax].
  repeat split; try reflexivity; try lra; try (field; lra).
  pose proof sqrt3_pos as Hs. pose proof sqrt3_le_2 as H2.
  pose proof (Rle_abs V) as Ha. pose proof (Rabs_pos V) as Hp.
  apply Rmult_le_reg_r with (R_sqrt.sqrt 3); [exact Hs|].
  unfold Rdiv. rewrite Rmult_assoc, Rinv_l by lra. nra.
Qed.

(** With zero phase resistance the power solve is [0/0] as soon as
    [Kt * w >= 0], and the loop over [k] never raises [bestTm]. *)
Lemma iqMaxPower_degenerate p w P k :
  mode p = CONC -> RphaseR p = 0 -> 0 <= KtR p * w ->
  iqMaxPower p (Fin w) P k = NaN.
Proof.
  intros Hm HR Hb.
  assert (Ha : aPR p = 0) by (unfold aPR; rewrite HR; lra).
  assert (Hd : DpR p w P k = bPR p w * bPR p w)
    by (unfold DpR; rewrite Ha; lra).
  unfold iqMaxPower. rewrite Hm, Dp_Fin, bP_Fin, aP_Fin, Hd, Ha, ge_Fin.
  rewrite (proj2 (Rleb_true 0 _)) by nra.
  rewrite sqrt_Fin by nra. rewrite sqrt_square by exact Hb. js_fin.
  replace (- bPR p w + bPR p w) with 0 by lra.
  replace (2 * 0) with 0 by lra.
  rewrite div_Fin_zero_zero. reflexivity.
Qed.

Lemma min3_NaN_last a b : JS.min3 a b NaN = NaN.
Proof. unfold JS.min3. destruct (JS.min a b); reflexivity. Qed.

Lemma bestTm_fold_NaN p w P (ks : list nat) b :
  (forall k, Tm p w P k = NaN) ->
  fold_left (bestTm_step p w P) ks b = b.
Proof.
  intros H. revert b. induction ks as [|k ks IH]; intros b; cbn [fold_left]; [reflexivity|].
  rewrite IH. unfold bestTm_step. rewrite H. destruct b; reflexivity.
Qed.

Lemma TmFinal_degenerate p w P :
  mode p = CONC -> RphaseR p = 0 -> 0 <= KtR p * w ->
  TmFinal p (Fin w) P = Fin (Rmin 0 (KtR p * Imax p)).
Proof.
  intros Hm HR Hb. unfold TmFinal, bestTm.
  rewrite bestTm_fold_NaN.
  - rewrite TmMax_Fin. reflexivity.
  - intros k. unfold Tm, iqMax.
    rewrite (iqMaxPower_degenerate p w P k Hm HR Hb), min3_NaN_last.
    rewrite Kt_Fin. reflexivity.
Qed.

(** C2, as stated, fails for a motor with zero phase resistance: with
    [Kt = 1], [Rphase = 0], [L = 0], at [omega_m = 1] and [P = 1] the
    equation [kcu*tau^2 + omega_m*tau - P = 0] has the positive root
    [tau = 1], but however large the voltage and current limits the solver
    never returns it (its power solve is [0/0] and [TmFinal] is [<= 0]). *)
Lemma C2_zero_resistance_never_consistent :
  (0 < 1 /\ 3 * 0 / (1 * 1) * (1 * 1) + 1 * 1 - IZR 1 = 0)
  /\ ~ power_limit_consistency 1 0 0 1 1 1.
Proof.
  split; [split; lra|].
  intros (V0 & I0 & H).
  destruct (unconstrained_snapshot_exists 1 0 0 V0 I0)
    as (p & Hm & Hfw & HK & HR & HL & HV & HI).
  destruct (H p Hm Hfw HK HR HL HV HI) as (E & _ & _).
  rewrite TmFinal_degenerate in E; [|exact Hm|exact HR|rewrite HK; lra].
  injection E as E. pose proof (Rmin_l 0 (KtR p * Imax p)). lra.
Qed.

(** C2: for a motor with [Kt > 0] and [Rphase > 0], every motor speed [w]
    and every supply limit [P > 0], the equation
    [kcu*tau^2 + w*tau - P = 0] with [kcu = 3*Rphase/Kt^2] has exactly one
    positive root [tau], and there are thresholds [V0], [I0] such that every
    motoring snapshot of this motor without field weakening whose voltage
    limit is at least [V0] and whose current limit is at least [I0] (such
    snapshots exist) has [TmFinal = tau], which is also the torque the
    power-only model computes, so that both models plot the same force.  The arithmetic is exact, so the tolerance
    is zero. *)
Theorem C2_power_limit_consistency (kt r l w : R) (P : Z)
    (Hkt : 0 < kt) (Hr : 0 < r) (HP : (0 < P)%Z) :
  exists tau,
    0 < tau
    /\ 3 * r / (kt * kt) * (tau * tau) + w * tau - IZR P = 0
    /\ (forall t, 0 < t ->
          3 * r / (kt * kt) * (t * t) + w * t - IZR P = 0 -> t = tau)
    /\ power_limit_consistency kt r l w P tau
    /\ (forall V I, exists p : params,
          mode p = CONC /\ idFWmax p = 0
          /\ KtR p = kt /\ RphaseR p = r /\ LphaseR p = l
          /\ V <= VmaxR p /\ I <= Imax p).
Proof.
  assert (Hq : 0 < power_iq kt r w P) by (apply power_iq_pos; assumption).
  assert (Hroot : 3 * r / (kt * kt)
                  * ((kt * power_iq kt r w P) * (kt * power_iq kt r w P))
                  + w * (kt * power_iq kt r w P) - IZR P = 0)
    by (apply power_tau_root; assumption).
  assert (Hc : 0 < 3 * r / (kt * kt)) by (apply Rdiv_lt_0_compat; nra).
  assert (Ht : 0 < kt * power_iq kt r w P) by (apply Rmult_lt_0_compat; assumption).
  exists (kt * power_iq kt r w P).
  split; [exact Ht|]. split; [exact Hroot|]. split; [|split].
  - intros t Ht0 Et.
    apply (positive_root_unique (3 * r / (kt * kt)) w (IZR P)); try assumption.
    apply IZR_lt in HP. exact HP.
  - exists (volt_threshold kt r l w P), (power_iq kt r w P).
    intros p Hmode Hfw HKt HR HL HV HI.
    assert (E1 : TmFinal p (Fin w) P = Fin (kt * power_iq kt r w P))
      by (apply (TmFinal_unweakened kt r l w P); assumption).
    assert (Ek : kcu p = Fin (3 * r / (kt * kt)))
      by (apply kcu_unweakened; assumption).
    assert (E2 : AppOld.Tm (kcu p) (Fin w) P = Fin (kt * power_iq kt r w P))
      by (rewrite Ek; apply AppOld_Tm_root; assumption).
    split; [exact E1 | split; [exact E2|]].
    unfold force, lbf, F, Tout, AppOld.force. rewrite E1, E2. reflexivity.
  - intros V I. apply unconstrained_snapshot_exists.
Qed.

Lemma C2_power_limit_consistency_witness :
  exists tau,
    0 < tau
    /\ 3 * 0.246 / (0.272 * 0.272) * (tau * tau) + 600 * tau - IZR 3000 = 0
    /\ (forall t, 0 < t ->
          3 * 0.246 / (0.272 * 0.272) * (t * t) + 600 * t - IZR 3000 = 0 ->
          t = tau)
    /\ power_limit_consistency 0.272 0.246 0.0003525 600 3000 tau
    /\ (forall V I, exists p : params,
          mode p = CONC /\ idFWmax p = 0
          /\ KtR p = 0.272 /\ RphaseR p = 0.246 /\ LphaseR p = 0.0003525
          /\ V <= VmaxR p /\ I <= Imax p).
Proof.
  apply (C2_power_limit_consistency 0.272 0.246 0.0003525 600 3000); [lra | lra | lia].
Defined.

(** ** Concrete scenarios *)

Lemma iqCurR_defaults k : iqCurR defaults k = 72.
Proof.
  unfold iqCurR. rewrite (idR_no_weakening defaults k) by reflexivity. fields.
  rewrite Rmax_right by lra.
  replace (72 * 72 - 0 * 0) with (72 * 72) by lra. apply sqrt_square. lra.
Qed.

Lemma sqrt_lower (a x : R) : 0 <= a -> a * a <= x -> a <= R_sqrt.sqrt x.
Proof.
  intros Ha Hx. rewrite <- (sqrt_square a) at 1 by exact Ha.
  apply sqrt_le_1_alt. exact Hx.
Qed.

(** The default motor at standstill with a 5000 W supply is limited by the
    phase current alone: the torque is [Kt * Imax = 0.272 * 72]. *)
Example standstill_is_current_limited :
  omega_m_at defaults 0 = Fin 0
  /\ TmFinal defaults (Fin 0) 5000 = Fin 19.584.
Proof.
  split; [rewrite omega_m_at_Fin, omegaR_0; reflexivity|].
  assert (HR : RphaseR defaults = 0.246)
    by (unfold RphaseR, RphaseBaseR; fields; lra).
  assert (HK : KtR defaults = 0.272) by reflexivity.
  assert (HA : AR defaults 0 = 0.246 * 0.246) by (unfold AR; rewrite HR; lra).
  assert (HB : BabsR defaults 0 = 0) by (unfold BabsR; lra).
  assert (HT : forall k, Tm defaults (Fin 0) 5000 k = Fin 19.584).
  { intros k.
    assert (Hd : discR defaults 0 k = 4 * (0.246 * 0.246) * (45.6 * 45.6 / 3)).
    { unfold discR, CR. rewrite HA, HB, HK, VmaxR_sq.
      rewrite (idR_no_weakening defaults k) by reflexivity. fields. lra. }
    assert (Hs : 72 * (2 * (0.246 * 0.246)) <= R_sqrt.sqrt (discR defaults 0 k)).
    { apply sqrt_lower; [lra | rewrite Hd; lra]. }
    assert (Hv : exists v, iqMaxVolt defaults (Fin 0) k = Fin v /\ 72 <= v).
    { unfold iqMaxVolt, iqMaxVoltConc. fields. rewrite disc_test.
      rewrite (proj2 (Rleb_true 0 _)) by (rewrite Hd; lra).
      rewrite rootConc_Fin by (rewrite ?HA, ?Hd; lra). cbn [JS.max].
      eexists. split; [reflexivity|].
      eapply Rle_trans; [|apply Rmax_r]. rewrite HA, HB.
      apply Rmult_le_reg_r with (2 * (0.246 * 0.246)); [lra|].
      unfold Rdiv. rewrite Rmult_assoc, Rinv_l by lra. lra. }
    assert (HD : DpR defaults 0 5000 k = 4 * (3 * 0.246) * 5000).
    { unfold DpR, bPR, aPR, cPR. rewrite HR, HK.
      rewrite (idR_no_weakening defaults k) by reflexivity. lra. }
    assert (Hq : 72 * (2 * (3 * 0.246)) <= R_sqrt.sqrt (DpR defaults 0 5000 k)).
    { apply sqrt_lower; [lra | rewrite HD; lra]. }
    assert (Hp : exists q, iqMaxPower defaults (Fin 0) 5000 k = Fin q /\ 72 <= q).
    { rewrite iqMaxPower_conc_Fin;
        [|reflexivity|unfold aPR; rewrite HR; lra|rewrite HD; lra].
      eexists. split; [reflexivity|].
      eapply Rle_trans; [|apply Rmax_r]. unfold bPR, aPR. rewrite HR, HK.
      apply Rmult_le_reg_r with (2 * (3 * 0.246)); [lra|].
      unfold Rdiv. rewrite Rmult_assoc, Rinv_l by lra. lra. }
    destruct Hv as (v & Ev & Hv). destruct Hp as (q & Eq & Hq').
    unfold Tm, iqMax. rewrite Kt_Fin, iqMaxCurrent_Fin, iqCurR_defaults, Ev, Eq, HK.
    unfold JS.min3. cbn [JS.min JS.mul]. f_equal.
    rewrite (Rmin_left 72 v) by exact Hv. rewrite (Rmin_left 72 q) by exact Hq'.
    lra. }
  unfold TmFinal. rewrite (bestTm_constant defaults (Fin 0) 5000 19.584) by (lra || exact HT).
  rewrite TmMax_Fin, HK. fields. cbn [JS.min]. f_equal.
  rewrite Rmin_left; lra.
Qed.

(** With a fractional [steps] the loop makes [floor steps + 1] rows and the
    last speed falls short of [maxSpeed]: [steps = 10.5] gives 11 rows. *)
Remark fractional_steps_trip_count (p : params) :
  steps p = 10.5 ->
  trip_count p = 11%nat /\ speedR p 10 = maxSpeed p * 10 / 10.5.
Proof.
  intros Hs.
  assert (Hst : stepR p = 10.5) by (unfold stepR; rewrite Hs; apply Rmax_right; lra).
  split.
  - unfold trip_count. rewrite Hst.
    replace (up 10.5) with 11%Z; [reflexivity|].
    apply tech_up; lra.
  - unfold speedR. rewrite Hst, INR_IZR_INZ. reflexivity.
Qed.

(** * Further properties of the solver *)

(** ** The grid search keeps the maximum *)

Lemma bestTm_fold_max p w P (ks : list nat) :
  forall b0, 0 <= b0 ->
    exists b, fold_left (bestTm_step p w P) ks (Fin b0) = Fin b
      /\ b0 <= b
      /\ (forall k t, k ∈ ks -> Tm p w P k = Fin t -> t <= b)
      /\ (b = b0 \/ exists k, k ∈ ks /\ Tm p w P k = Fin b).
Proof.
  induction ks as [|k ks IH]; intros b0 Hb0; cbn [fold_left].
  - exists b0. split; [reflexivity|]. split; [lra|]. split; [|left; reflexivity].
    intros k t Hk. inversion Hk.
  - assert (Hstep : exists b1, bestTm_step p w P (Fin b0) k = Fin b1 /\ b0 <= b1
              /\ (forall t, Tm p w P k = Fin t -> t <= b1)
              /\ (b1 = b0 \/ Tm p w P k = Fin b1)).
    { unfold bestTm_step.
      destruct (Tm_shape p w P k) as [E|(x & _ & _ & E)]; rewrite E.
      - exists b0. cbn. repeat split; [lra | discriminate | left; reflexivity].
      - rewrite gt_Fin. destruct (Rltb b0 (KtR p * x)) eqn:Hlt.
        + apply Rltb_true in Hlt. exists (KtR p * x).
          repeat split; [lra | | right; reflexivity].
          intros t Ht. injection Ht as <-. lra.
        + apply Rltb_false in Hlt. exists b0.
          repeat split; [lra | | left; reflexivity].
          intros t Ht. injection Ht as <-. exact Hlt. }
    destruct Hstep as (b1 & -> & H01 & Hk & Hatt).
    destruct (IH b1) as (b & -> & H1b & Hall & Hatt'); [lra|].
    exists b. split; [reflexivity|]. split; [lra|]. split.
    + intros k' t Hin Ht. apply elem_of_cons in Hin as [->|Hin].
      * specialize (Hk t Ht). lra.
      * exact (Hall k' t Hin Ht).
    + destruct Hatt' as [->|(k' & Hin & E)].
      * destruct Hatt as [->|E]; [left; reflexivity|].
        right. exists k. split; [left | exact E].
      * right. exists k'. split; [right; exact Hin | exact E].
Qed.

(** X1: the loop over the [id] samples keeps the largest torque: [bestTm] is a
    real [b >= 0] that no sample torque exceeds, and it is either [0] or the
    torque of one of the 41 samples. *)
Theorem bestTm_is_maximum (p : params) (w : num) (P : Z) :
  exists b, bestTm p w P = Fin b /\ 0 <= b
    /\ (forall k t, (k <= N_ID)%nat -> Tm p w P k = Fin t -> t <= b)
    /\ (b = 0 \/ exists k, (k <= N_ID)%nat /\ Tm p w P k = Fin b).
Proof.
  unfold bestTm.
  destruct (bestTm_fold_max p w P (seq 0 (S N_ID)) 0) as (b & E & Hb & Hall & Hatt); [lra|].
  exists b. split; [exact E|]. split; [exact Hb|]. split.
  - intros k t Hk. apply Hall. apply elem_of_seq. lia.
  - destruct Hatt as [->|(k & Hin & Ek)]; [left; reflexivity|].
    right. exists k. split; [|exact Ek]. apply elem_of_seq in Hin. lia.
Qed.

(** ** No field weakening *)

Lemma Tm_depends_on_id p w P k k' :
  id p k = id p k' -> Tm p w P k = Tm p w P k'.
Proof.
  intros H.
  unfold Tm, iqMax, iqMaxCurrent, iqMaxVolt, iqMaxVoltConc, iqMaxVoltEcc,
    rootConc, rootEcc, disc, C, iqMaxPower, Dp, cP.
  rewrite !H. reflexivity.
Qed.

Lemma bestTm_of_constant_Tm p w P :
  (forall k, Tm p w P k = Tm p w P 0) ->
  bestTm p w P = if (Tm p w P 0 >? Fin 0)%js then Tm p w P 0 else Fin 0.
Proof.
  intros H.
  destruct (Tm_shape p w P 0) as [E|(x & _ & _ & E)].
  - rewrite E. change (NaN >? Fin 0)%js with false. cbv iota.
    unfold bestTm. apply bestTm_fold_NaN.
    intros k. rewrite H. exact E.
  - rewrite E, gt_Fin. destruct (Rltb 0 (KtR p * x)) eqn:Hlt.
    + apply Rltb_true in Hlt. apply bestTm_constant; [exact Hlt|].
      intros k. rewrite H. exact E.
    + apply Rltb_false in Hlt. unfold bestTm.
      assert (Hfold : forall ks, fold_left (bestTm_step p w P) ks (Fin 0) = Fin 0).
      { induction ks as [|k ks IH]; cbn [fold_left]; [reflexivity|].
        unfold bestTm_step at 2. rewrite H, E, gt_Fin.
        rewrite (proj2 (Rltb_false _ _) Hlt). exact IH. }
      apply Hfold.
Qed.

Lemma id_zero_sample p : id p 0 = Fin 0.
Proof. rewrite id_Fin. f_equal. unfold idR. cbn [INR]. unfold Rdiv. lra. Qed.

(** X2: zero field-weakening collapse.  With [idFWmax = 0] the search over
    [id] finds what the single sample [id = 0] gives: [bestTm] is the torque
    of sample 0 when that is positive, and [0] otherwise. *)
Theorem no_field_weakening_collapse (p : params) (w : num) (P : Z)
    (Hfw : idFWmax p = 0) :
  (forall k, id p k = Fin 0)
  /\ bestTm p w P = if (Tm p w P 0 >? Fin 0)%js then Tm p w P 0 else Fin 0.
Proof.
  assert (Hid : forall k, id p k = Fin 0).
  { intros k. rewrite id_Fin, (idR_no_weakening p k Hfw). reflexivity. }
  split; [exact Hid|].
  apply bestTm_of_constant_Tm. intros k. apply Tm_depends_on_id.
  rewrite !Hid. reflexivity.
Qed.

Lemma no_field_weakening_collapse_witness :
  idFWmax defaults = 0
  /\ (forall k, id defaults k = Fin 0)
  /\ bestTm defaults (Fin 600) 3000
     = if (Tm defaults (Fin 600) 3000 0 >? Fin 0)%js
       then Tm defaults (Fin 600) 3000 0 else Fin 0.
Proof.
  split; [reflexivity|].
  apply (no_field_weakening_collapse defaults (Fin 600) 3000). reflexivity.
Defined.

(** ** From the best torque to the plotted force *)

Lemma guard_Fin x :
  (if JS.isFinite (Fin x) && (Fin x >? Fin 0)%js then Fin x else Fin 0)
  = Fin (Rmax 0 x).
Proof.
  cbn [JS.isFinite andb]. rewrite gt_Fin. destruct (Rltb 0 x) eqn:E; f_equal.
  - apply Rltb_true in E. symmetry. apply Rmax_right. lra.
  - apply Rltb_false in E. symmetry. apply Rmax_left. exact E.
Qed.

Lemma force_forceR p w P b :
  bestTm p w P = Fin b -> force p w P = Fin (forceR p b).
Proof.
  intros H. unfold force, lbf, F, Tout, TmFinal, LBF_PER_N.
  rewrite H, TmMax_Fin. js_fin.
  rewrite !div_Fin by (try apply Rmax_eps_nz; lra). js_fin.
  apply guard_Fin.
Qed.

Lemma forceR_mono p b1 b2 :
  0 <= gearRatio p -> 0 <= gearEff p -> b1 <= b2 ->
  forceR p b1 <= forceR p b2.
Proof.
  intros HG HE Hb. unfold forceR.
  pose proof (Rmax_eps_pos (drumRadius p)) as Hd.
  assert (Hm : Rmin b1 (KtR p * Imax p) <= Rmin b2 (KtR p * Imax p)).
  { apply Rmin_glb; [eapply Rle_trans; [apply Rmin_l | exact Hb] | apply Rmin_r]. }
  apply Rmax_lub; [apply Rmax_l|].
  eapply Rle_trans; [|apply Rmax_r].
  apply Rmult_le_compat_r; [lra|].
  apply Rmult_le_compat_r; [left; apply Rinv_0_lt_compat; lra|].
  apply Rmult_le_compat_r; [exact HE|].
  apply Rmult_le_compat_r; [exact HG | exact Hm].
Qed.

(** The rows compare forces with [<=] on numbers. *)
Lemma force_le_of_bestTm p1 p2 w1 w2 P1 P2 b1 b2 :
  bestTm p1 w1 P1 = Fin b1 -> bestTm p2 w2 P2 = Fin b2 ->
  forceR p1 b1 <= forceR p2 b2 ->
  (force p1 w1 P1 <=? force p2 w2 P2)%js = true.
Proof.
  intros H1 H2 H. rewrite (force_forceR _ _ _ _ H1), (force_forceR _ _ _ _ H2).
  rewrite le_Fin. apply Rleb_true. exact H.
Qed.

(** ** The stall-force cap and the degenerate motors *)

(** X3: with a non-negative gear ratio and efficiency, no plotted force
    exceeds the force of the torque cap [Kt * Imax] seen through the
    transmission; and when [Kt * Imax = 0] (a zero torque constant or a zero
    current limit) every plotted force is [0]. *)
Theorem force_capped_by_torque_limit (p : params) (w : num) (P : Z)
    (HG : 0 <= gearRatio p) (HE : 0 <= gearEff p) :
  exists f, force p w P = Fin f
    /\ 0 <= f
    /\ f <= Rmax 0 (KtR p * Imax p * gearRatio p * gearEff p
                    / Rmax 1e-9 (drumRadius p) * (1 / 4.4482216152605))
    /\ (KtR p * Imax p = 0 -> f = 0).
Proof.
  destruct (bestTm_Fin p w P) as (b & E & Hb).
  exists (forceR p b). split; [apply force_forceR, E|].
  pose proof (Rmax_eps_pos (drumRadius p)) as Hd.
  assert (Hinv : 0 < / Rmax 1e-9 (drumRadius p)) by (apply Rinv_0_lt_compat; lra).
  split; [apply Rmax_l|]. split.
  - unfold forceR. apply Rmax_lub; [apply Rmax_l|].
    eapply Rle_trans; [|apply Rmax_r].
    apply Rmult_le_compat_r; [lra|].
    apply Rmult_le_compat_r; [lra|].
    apply Rmult_le_compat_r; [exact HE|].
    apply Rmult_le_compat_r; [exact HG | apply Rmin_r].
  - intros H0. unfold forceR. rewrite H0, (Rmin_right b 0) by exact Hb.
    unfold Rdiv. rewrite !Rmult_0_l. apply Rmax_left. lra.
Qed.

Lemma force_capped_by_torque_limit_witness :
  0 <= gearRatio defaults /\ 0 <= gearEff defaults
  /\ exists f, force defaults (Fin 600) 3000 = Fin f
    /\ 0 <= f
    /\ f <= Rmax 0 (KtR defaults * Imax defaults * gearRatio defaults
                    * gearEff defaults
                    / Rmax 1e-9 (drumRadius defaults) * (1 / 4.4482216152605))
    /\ (KtR defaults * Imax defaults = 0 -> f = 0).
Proof.
  assert (HG : 0 <= gearRatio defaults) by (fields; lra).
  assert (HE : 0 <= gearEff defaults) by (fields; lra).
  split; [exact HG|]. split; [exact HE|].
  exact (force_capped_by_torque_limit defaults (Fin 600) 3000 HG HE).
Defined.

(** ** Field weakening never lowers the force *)

Lemma Tm_setIdFWmax_zero p w P k : Tm (setIdFWmax 0 p) w P k = Tm p w P 0.
Proof.
  assert (H : id (setIdFWmax 0 p) k = id p 0).
  { rewrite id_zero_sample, id_Fin. f_equal.
    apply idR_no_weakening. reflexivity. }
  unfold Tm, iqMax, iqMaxCurrent, iqMaxVolt, iqMaxVoltConc, iqMaxVoltEcc,
    rootConc, rootEcc, disc, C, iqMaxPower, Dp, cP.
  rewrite !H. reflexivity.
Qed.

(** X4: switching field weakening off ([idFWmax = 0]) never raises the best
    torque, and with a non-negative gear ratio and efficiency never raises
    the plotted force: the sample [id = 0] is always part of the search. *)
Theorem field_weakening_never_lowers_force (p : params) (w : num) (P : Z)
    (HG : 0 <= gearRatio p) (HE : 0 <= gearEff p) :
  (bestTm (setIdFWmax 0 p) w P <=? bestTm p w P)%js = true
  /\ (force (setIdFWmax 0 p) w P <=? force p w P)%js = true.
Proof.
  assert (Hmax : exists b, bestTm p w P = Fin b /\ 0 <= b
            /\ (forall t, Tm p w P 0 = Fin t -> t <= b)).
  { unfold bestTm.
    destruct (bestTm_fold_max p w P (seq 0 (S N_ID)) 0) as (b & E & Hb & Hall & _);
      [lra|].
    exists b. split; [exact E|]. split; [exact Hb|].
    intros t Ht. apply (Hall 0%nat); [|exact Ht]. apply elem_of_seq. lia. }
  destruct Hmax as (b & E & Hb & Hall).
  assert (E0 : bestTm (setIdFWmax 0 p) w P
               = if (Tm p w P 0 >? Fin 0)%js then Tm p w P 0 else Fin 0).
  { rewrite bestTm_of_constant_Tm.
    - rewrite Tm_setIdFWmax_zero. reflexivity.
    - intros k. rewrite !Tm_setIdFWmax_zero. reflexivity. }
  assert (H0 : exists b0, bestTm (setIdFWmax 0 p) w P = Fin b0 /\ b0 <= b).
  { rewrite E0. destruct (Tm_shape p w P 0) as [Et|(x & _ & _ & Et)]; rewrite Et.
    - exists 0. split; [reflexivity | exact Hb].
    - rewrite gt_Fin. destruct (Rltb 0 (KtR p * x)).
      + eexists. split; [reflexivity|]. apply Hall. exact Et.
      + exists 0. split; [reflexivity | exact Hb]. }
  destruct H0 as (b0 & Eb0 & Hle).
  split.
  - rewrite Eb0, E, le_Fin. apply Rleb_true. exact Hle.
  - apply (force_le_of_bestTm _ _ _ _ _ _ b0 b Eb0 E).
    change (forceR (setIdFWmax 0 p) b0) with (forceR p b0).
    apply forceR_mono; assumption.
Qed.

Lemma field_weakening_never_lowers_force_witness :
  0 <= gearRatio (setIdFWmax 20 defaults)
  /\ 0 <= gearEff (setIdFWmax 20 defaults)
  /\ (bestTm (setIdFWmax 0 (setIdFWmax 20 defaults)) (Fin 600) 3000
      <=? bestTm (setIdFWmax 20 defaults) (Fin 600) 3000)%js = true
  /\ (force (setIdFWmax 0 (setIdFWmax 20 defaults)) (Fin 600) 3000
      <=? force (setIdFWmax 20 defaults) (Fin 600) 3000)%js = true.
Proof.
  assert (HG : 0 <= gearRatio (setIdFWmax 20 defaults))
    by (cbn [gearRatio setIdFWmax defaults]; lra).
  assert (HE : 0 <= gearEff (setIdFWmax 20 defaults))
    by (cbn [gearEff setIdFWmax defaults]; lra).
  split; [exact HG|]. split; [exact HE|].
  exact (field_weakening_never_lowers_force
           (setIdFWmax 20 defaults) (Fin 600) 3000 HG HE).
Defined.

(** ** The admissible currents as reals *)

Lemma iqMaxVoltConc_R p w k :
  AR p w <> 0 -> iqMaxVoltConc p (Fin w) k = Fin (iqVoltConcR p w k).
Proof.
  intros HA. unfold iqMaxVoltConc, iqVoltConcR. rewrite disc_test.
  destruct (Rle_dec 0 (discR p w k)) as [Hd|Hd].
  - rewrite (proj2 (Rleb_true _ _) Hd), rootConc_Fin by assumption. reflexivity.
  - rewrite (proj2 (Rleb_false _ _)) by lra. reflexivity.
Qed.

Lemma iqMaxVoltEcc_R p w k :
  AR p w <> 0 -> iqMaxVoltEcc p (Fin w) k = Fin (iqVoltEccR p w k).
Proof.
  intros HA. unfold iqMaxVoltEcc, iqVoltEccR. rewrite disc_test.
  destruct (Rle_dec 0 (discR p w k)) as [Hd|Hd].
  - rewrite (proj2 (Rleb_true _ _) Hd), rootEcc_Fin by assumption. reflexivity.
  - rewrite (proj2 (Rleb_false _ _)) by lra. reflexivity.
Qed.

Lemma iqMaxPower_R p w P k :
  mode p = CONC -> aPR p <> 0 ->
  iqMaxPower p (Fin w) P k = Fin (iqPowR p w P k).
Proof.
  intros Hm Ha. unfold iqPowR.
  destruct (Rle_dec 0 (DpR p w P k)) as [Hd|Hd].
  - apply iqMaxPower_conc_Fin; assumption.
  - apply iqMaxPower_conc_infeasible; [exact Hm | lra].
Qed.

Lemma iqMax_conc_R p w P k :
  mode p = CONC -> RphaseR p <> 0 ->
  iqMax p (Fin w) P k
  = Fin (Rmin (Rmin (iqCurR p k) (iqVoltConcR p w k)) (iqPowR p w P k)).
Proof.
  intros Hm HR.
  assert (HA : AR p w <> 0) by (pose proof (AR_pos p w HR); lra).
  assert (Ha : aPR p <> 0) by (unfold aPR; lra).
  unfold iqMax, iqMaxVolt. rewrite Hm, iqMaxCurrent_Fin, iqMaxVoltConc_R,
    iqMaxPower_R by assumption. reflexivity.
Qed.

Lemma iqMax_ecc_R p w P k :
  mode p = ECC -> RphaseR p <> 0 ->
  iqMax p (Fin w) P k = Fin (Rmin (iqCurR p k) (iqVoltEccR p w k)).
Proof.
  intros Hm HR.
  assert (HA : AR p w <> 0) by (pose proof (AR_pos p w HR); lra).
  unfold iqMax, iqMaxVolt, JS.min3.
  rewrite Hm, iqMaxCurrent_Fin, iqMaxVoltEcc_R, iqMaxPower_ecc by assumption.
  reflexivity.
Qed.

Lemma iqVoltConcR_nonneg p w k : 0 <= iqVoltConcR p w k.
Proof. unfold iqVoltConcR. destruct (Rle_dec _ _); [apply Rmax_l | lra]. Qed.

Lemma iqPowR_nonneg p w P k : 0 <= iqPowR p w P k.
Proof. unfold iqPowR. destruct (Rle_dec _ _); [apply Rmax_l | lra]. Qed.

Lemma iqVolt_conc_le_ecc p w k :
  0 < RphaseR p -> 0 <= w -> 0 <= KtR p ->
  iqVoltConcR p w k <= iqVoltEccR p w k.
Proof.
  intros HR Hw HK. unfold iqVoltConcR, iqVoltEccR.
  destruct (Rle_dec 0 (discR p w k)) as [Hd|Hd]; [|lra].
  pose proof (AR_pos p w (Rgt_not_eq _ _ HR)) as HA.
  pose proof (BabsR_nonneg p w (Rlt_le _ _ HR) Hw HK) as HB.
  apply Rmax_lub; [apply Rmax_l|].
  eapply Rle_trans; [|apply Rmax_r].
  apply Rmult_le_compat_r; [left; apply Rinv_0_lt_compat; lra | lra].
Qed.

Lemma iqPowR_mono p w P1 P2 k :
  0 < RphaseR p -> (P1 <= P2)%Z -> iqPowR p w P1 k <= iqPowR p w P2 k.
Proof.
  intros HR HP. apply IZR_le in HP.
  assert (Ha : 0 < aPR p) by (unfold aPR; lra).
  assert (HD : DpR p w P1 k <= DpR p w P2 k).
  { unfold DpR, cPR. nra. }
  unfold iqPowR.
  destruct (Rle_dec 0 (DpR p w P1 k)) as [H1|H1];
    destruct (Rle_dec 0 (DpR p w P2 k)) as [H2|H2]; try lra.
  - apply Rmax_lub; [apply Rmax_l|].
    eapply Rle_trans; [|apply Rmax_r].
    apply Rmult_le_compat_r; [left; apply Rinv_0_lt_compat; lra|].
    pose proof (sqrt_le_1_alt _ _ HD). lra.
  - apply Rmax_l.
Qed.

(** ** Pointwise larger sample torques give a larger best torque *)

Lemma bestTm_step_Rmax p w P b k t :
  Tm p w P k = Fin t -> bestTm_step p w P (Fin b) k = Fin (Rmax b t).
Proof.
  intros E. unfold bestTm_step. rewrite E, gt_Fin.
  destruct (Rltb b t) eqn:H; f_equal.
  - apply Rltb_true in H. symmetry. apply Rmax_right. lra.
  - apply Rltb_false in H. symmetry. apply Rmax_left. exact H.
Qed.

Lemma bestTm_fold_mono p1 w1 P1 p2 w2 P2 (ks : list nat) :
  (forall k, exists t1 t2,
      Tm p1 w1 P1 k = Fin t1 /\ Tm p2 w2 P2 k = Fin t2 /\ t1 <= t2) ->
  forall a1 a2, a1 <= a2 ->
    exists b1 b2,
      fold_left (bestTm_step p1 w1 P1) ks (Fin a1) = Fin b1
      /\ fold_left (bestTm_step p2 w2 P2) ks (Fin a2) = Fin b2
      /\ b1 <= b2.
Proof.
  intros H. induction ks as [|k ks IH]; intros a1 a2 Ha; cbn [fold_left].
  - exists a1, a2. auto.
  - destruct (H k) as (t1 & t2 & E1 & E2 & Ht).
    rewrite (bestTm_step_Rmax _ _ _ _ _ _ E1), (bestTm_step_Rmax _ _ _ _ _ _ E2).
    apply IH. apply Rmax_lub.
    + eapply Rle_trans; [exact Ha | apply Rmax_l].
    + eapply Rle_trans; [exact Ht | apply Rmax_r].
Qed.

Lemma bestTm_mono p1 w1 P1 p2 w2 P2 :
  (forall k, exists t1 t2,
      Tm p1 w1 P1 k = Fin t1 /\ Tm p2 w2 P2 k = Fin t2 /\ t1 <= t2) ->
  exists b1 b2,
    bestTm p1 w1 P1 = Fin b1 /\ bestTm p2 w2 P2 = Fin b2 /\ b1 <= b2.
Proof. intros H. unfold bestTm. apply bestTm_fold_mono; [exact H | lra]. Qed.

(** ** A larger supply never gives less force *)

(** X5: for a motor with [Rphase > 0] and [Kt >= 0] and a non-negative gear
    ratio and efficiency, at every motor speed the force plotted for a
    supply limit [P1] is at most the one plotted for a larger limit [P2]. *)
Theorem force_monotone_in_supply (p : params) (w : R) (P1 P2 : Z)
    (HR : 0 < RphaseR p) (HK : 0 <= KtR p)
    (HG : 0 <= gearRatio p) (HE : 0 <= gearEff p) (HP : (P1 <= P2)%Z) :
  (force p (Fin w) P1 <=? force p (Fin w) P2)%js = true.
Proof.
  destruct (mode p) eqn:Hm.
  - destruct (bestTm_mono p (Fin w) P1 p (Fin w) P2) as (b1 & b2 & E1 & E2 & Hb).
    { intros k. unfold Tm. rewrite Kt_Fin, !iqMax_conc_R by (assumption || lra).
      do 2 eexists. split; [reflexivity|]. split; [reflexivity|].
      apply Rmult_le_compat_l; [exact HK|].
      pose proof (iqPowR_mono p w P1 P2 k HR HP).
      apply Rmin_glb; [apply Rmin_l|].
      eapply Rle_trans; [apply Rmin_r | assumption]. }
    apply (force_le_of_bestTm _ _ _ _ _ _ b1 b2 E1 E2).
    apply forceR_mono; assumption.
  - rewrite (force_ecc_indep p (Fin w) P1 P2 Hm).
    destruct (force_Fin_nonneg p (Fin w) P2) as (x & -> & _).
    rewrite le_Fin. apply Rleb_true. lra.
Qed.

Lemma force_monotone_in_supply_witness :
  (force defaults (Fin 600) 450 <=? force defaults (Fin 600) 3000)%js = true.
Proof.
  apply (force_monotone_in_supply defaults 600 450 3000).
  - unfold RphaseR, RphaseBaseR. fields. lra.
  - unfold KtR. fields. lra.
  - fields. lra.
  - fields. lra.
  - lia.
Defined.

(** ** Regenerating against motoring *)

(** X6: for [Rphase > 0], [omega_m >= 0], [Kt >= 0] and a non-negative gear
    ratio and efficiency, the force plotted in eccentric (regenerating) mode
    is at least the one plotted in concentric (motoring) mode at the same
    speed and supply: the voltage root is larger and the power limit is
    absent. *)
Theorem regen_force_at_least_motoring (p : params) (w : R) (P : Z)
    (HR : 0 < RphaseR p) (Hw : 0 <= w) (HK : 0 <= KtR p)
    (HG : 0 <= gearRatio p) (HE : 0 <= gearEff p) :
  (force (setMode CONC p) (Fin w) P <=? force (setMode ECC p) (Fin w) P)%js
  = true.
Proof.
  destruct (bestTm_mono (setMode CONC p) (Fin w) P (setMode ECC p) (Fin w) P)
    as (b1 & b2 & E1 & E2 & Hb).
  { intros k. unfold Tm.
    rewrite !Kt_Fin, iqMax_conc_R, iqMax_ecc_R
      by (try reflexivity; apply Rgt_not_eq; exact HR).
    do 2 eexists. split; [reflexivity|]. split; [reflexivity|].
    change (KtR (setMode CONC p)) with (KtR p).
    change (KtR (setMode ECC p)) with (KtR p).
    apply Rmult_le_compat_l; [exact HK|].
    change (iqCurR (setMode CONC p) k) with (iqCurR p k).
    change (iqCurR (setMode ECC p) k) with (iqCurR p k).
    change (iqVoltConcR (setMode CONC p) w k) with (iqVoltConcR p w k).
    change (iqVoltEccR (setMode ECC p) w k) with (iqVoltEccR p w k).
    pose proof (iqVolt_conc_le_ecc p w k HR Hw HK).
    apply Rmin_glb.
    - eapply Rle_trans; [apply Rmin_l | apply Rmin_l].
    - eapply Rle_trans; [apply Rmin_l|].
      eapply Rle_trans; [apply Rmin_r | assumption]. }
  apply (force_le_of_bestTm _ _ _ _ _ _ b1 b2 E1 E2).
  change (forceR (setMode CONC p) b1) with (forceR p b1).
  change (forceR (setMode ECC p) b2) with (forceR p b2).
  apply forceR_mono; assumption.
Qed.

Lemma regen_force_at_least_motoring_witness :
  (force (setMode CONC defaults) (Fin 600) 3000
   <=? force (setMode ECC defaults) (Fin 600) 3000)%js = true.
Proof.
  apply (regen_force_at_least_motoring defaults 600 3000).
  - unfold RphaseR, RphaseBaseR. fields. lra.
  - lra.
  - unfold KtR. fields. lra.
  - fields. lra.
  - fields. lra.
Defined.

(** ** The selected current is the largest feasible one (motoring) *)

Lemma quadratic_below_root (a b c x : R) :
  0 < a -> 0 <= b -> 0 <= b * b - 4 * a * c ->
  0 < x -> x <= (- b + R_sqrt.sqrt (b * b - 4 * a * c)) / (2 * a) ->
  a * (x * x) + b * x + c <= 0.
Proof.
  intros Ha Hb HD Hx Hle.
  set (s := R_sqrt.sqrt (b * b - 4 * a * c)) in *.
  assert (Hs : s * s = b * b - 4 * a * c) by (apply sqrt_sqrt; exact HD).
  clearbody s.
  assert (H : 2 * a * x + b <= s).
  { apply (Rmult_le_compat_r (2 * a)) in Hle; [|lra].
    unfold Rdiv in Hle. rewrite Rmult_assoc, Rinv_l in Hle by lra. lra. }
  assert (Hax : 0 < a * x) by (apply Rmult_lt_0_compat; assumption).
  assert (H2 : (2 * a * x + b) * (2 * a * x + b) <= s * s)
    by (apply Rmult_le_compat; lra).
  assert (E : 4 * (a * (a * (x * x) + b * x + c))
              = (2 * a * x + b) * (2 * a * x + b) - (b * b - 4 * a * c)) by ring.
  destruct (Rle_or_lt (a * (x * x) + b * x + c) 0) as [H0|H0]; [exact H0|].
  assert (0 < a * (a * (x * x) + b * x + c)) by (apply Rmult_lt_0_compat; lra).
  lra.
Qed.

Lemma quadratic_above_root (a b c y : R) :
  0 < a -> 0 <= b * b - 4 * a * c ->
  (- b + R_sqrt.sqrt (b * b - 4 * a * c)) / (2 * a) < y ->
  0 < a * (y * y) + b * y + c.
Proof.
  intros Ha HD Hlt.
  set (s := R_sqrt.sqrt (b * b - 4 * a * c)) in *.
  assert (Hs : s * s = b * b - 4 * a * c) by (apply sqrt_sqrt; exact HD).
  pose proof (sqrt_pos (b * b - 4 * a * c)) as Hs0. fold s in Hs0.
  clearbody s.
  assert (H : s < 2 * a * y + b).
  { apply (Rmult_lt_compat_r (2 * a)) in Hlt; [|lra].
    unfold Rdiv in Hlt. rewrite Rmult_assoc, Rinv_l in Hlt by lra. lra. }
  assert (H2 : s * s < (2 * a * y + b) * (2 * a * y + b))
    by (apply Rmult_le_0_lt_compat; lra).
  assert (E : 4 * (a * (a * (y * y) + b * y + c))
              = (2 * a * y + b) * (2 * a * y + b) - (b * b - 4 * a * c)) by ring.
  destruct (Rlt_or_le 0 (a * (y * y) + b * y + c)) as [H0|H0]; [exact H0|].
  assert (a * (a * (y * y) + b * y + c) <= 0).
  { rewrite <- (Rmult_0_r a). apply Rmult_le_compat_l; lra. }
  lra.
Qed.

Lemma quadratic_no_root (a b c y : R) :
  0 < a -> b * b - 4 * a * c < 0 -> 0 < a * (y * y) + b * y + c.
Proof.
  intros Ha HD.
  pose proof (Rle_0_sqr (2 * a * y + b)) as Hsq. unfold Rsqr in Hsq.
  assert (E : 4 * (a * (a * (y * y) + b * y + c))
              = (2 * a * y + b) * (2 * a * y + b) - (b * b - 4 * a * c)) by ring.
  destruct (Rlt_or_le 0 (a * (y * y) + b * y + c)) as [H|H]; [exact H|].
  assert (a * (a * (y * y) + b * y + c) <= 0).
  { rewrite <- (Rmult_0_r a). apply Rmult_le_compat_l; lra. }
  lra.
Qed.

Lemma voltage_quadratic p w k x :
  v_d p w (idR p k) x * v_d p w (idR p k) x
  + v_q p w (idR p k) x * v_q p w (idR p k) x - VmaxR p * VmaxR p
  = AR p w * (x * x) + BabsR p w * x + CR p w k.
Proof. unfold v_d, v_q, AR, BabsR, CR. ring. Qed.

Lemma power_quadratic p w P k x :
  KtR p * x * w + 3 * (idR p k * idR p k + x * x) * RphaseR p - IZR P
  = aPR p * (x * x) + bPR p w * x + cPR p P k.
Proof. unfold aPR, bPR, cPR. ring. Qed.

(** X7: in motoring mode, for [Rphase > 0], [Kt >= 0] and [omega_m >= 0],
    a positive selected current [iqMax] is feasible: the point
    [(id, iqMax)] satisfies the current limit, the voltage limit of the dq
    model and the supply power limit. *)
Theorem selected_current_is_feasible (p : params) (w : R) (P : Z) (k : nat) (x : R)
    (Hm : mode p = CONC) (HR : 0 < RphaseR p) (HK : 0 <= KtR p) (Hw : 0 <= w)
    (Hx : iqMax p (Fin w) P k = Fin x) (Hpos : 0 < x) :
  current_ok p (idR p k) x
  /\ voltage_ok p w (idR p k) x
  /\ power_ok p w P (idR p k) x.
Proof.
  rewrite iqMax_conc_R in Hx by (assumption || lra). injection Hx as Hx.
  assert (Hc : x <= iqCurR p k)
    by (rewrite <- Hx; eapply Rle_trans; [apply Rmin_l | apply Rmin_l]).
  assert (Hv : x <= iqVoltConcR p w k)
    by (rewrite <- Hx; eapply Rle_trans; [apply Rmin_l | apply Rmin_r]).
  assert (Hp : x <= iqPowR p w P k) by (rewrite <- Hx; apply Rmin_r).
  pose proof (AR_pos p w (Rgt_not_eq _ _ HR)) as HA.
  pose proof (BabsR_nonneg p w (Rlt_le _ _ HR) Hw HK) as HB.
  split; [|split].
  - unfold current_ok. unfold iqCurR in Hc.
    set (m := Imax p * Imax p - idR p k * idR p k) in *.
    assert (Hm0 : 0 < Rmax 0 m).
    { destruct (Rlt_or_le 0 (Rmax 0 m)) as [H|H]; [exact H|].
      assert (Rmax 0 m = 0) by (pose proof (Rmax_l 0 m); lra).
      rewrite H0, sqrt_0 in Hc. lra. }
    assert (Em : Rmax 0 m = m).
    { unfold Rmax in *. destruct (Rle_dec 0 m); lra. }
    rewrite Em in Hc.
    assert (Hsq : x * x <= m).
    { rewrite <- (sqrt_sqrt m) by lra.
      pose proof (sqrt_pos m). nra. }
    unfold m in Hsq. lra.
  - unfold voltage_ok.
    pose proof (voltage_quadratic p w k x) as Hq.
    unfold iqVoltConcR in Hv.
    destruct (Rle_dec 0 (discR p w k)) as [Hd|Hd]; [|lra].
    assert (Hroot : x <= (- BabsR p w + R_sqrt.sqrt (discR p w k)) / (2 * AR p w)).
    { unfold Rmax in Hv. destruct (Rle_dec 0 _); lra. }
    pose proof (quadratic_below_root (AR p w) (BabsR p w) (CR p w k) x HA HB Hd Hpos Hroot).
    lra.
  - unfold power_ok.
    pose proof (power_quadratic p w P k x) as Hq.
    unfold iqPowR in Hp.
    destruct (Rle_dec 0 (DpR p w P k)) as [Hd|Hd]; [|lra].
    assert (Hroot : x <= (- bPR p w + R_sqrt.sqrt (DpR p w P k)) / (2 * aPR p)).
    { unfold Rmax in Hp. destruct (Rle_dec 0 _); lra. }
    assert (Ha : 0 < aPR p) by (unfold aPR; lra).
    assert (Hb : 0 <= bPR p w) by (unfold bPR; apply Rmult_le_pos; assumption).
    pose proof (quadratic_below_root (aPR p) (bPR p w) (cPR p P k) x Ha Hb Hd Hpos Hroot).
    lra.
Qed.

(** X8: in motoring mode, for [Rphase > 0], no current above the selected
    [iqMax] is feasible: every larger [iq] violates the current limit, the
    voltage limit or the power limit at that [id]. *)
Theorem selected_current_is_maximal (p : params) (w : R) (P : Z) (k : nat) (x y : R)
    (Hm : mode p = CONC) (HR : 0 < RphaseR p)
    (Hx : iqMax p (Fin w) P k = Fin x) (Hy : x < y) :
  ~ (current_ok p (idR p k) y
     /\ voltage_ok p w (idR p k) y
     /\ power_ok p w P (idR p k) y).
Proof.
  rewrite iqMax_conc_R in Hx by (assumption || lra). injection Hx as Hx.
  pose proof (AR_pos p w (Rgt_not_eq _ _ HR)) as HA.
  assert (Ha : 0 < aPR p) by (unfold aPR; lra).
  intros (Hc & Hv & Hp).
  assert (Hcase : iqCurR p k < y \/ iqVoltConcR p w k < y \/ iqPowR p w P k < y).
  { unfold Rmin in Hx.
    destruct (Rle_dec (iqCurR p k) (iqVoltConcR p w k));
      destruct (Rle_dec _ (iqPowR p w P k)); lra. }
  destruct Hcase as [H|[H|H]].
  - unfold current_ok in Hc. unfold iqCurR in H.
    set (m := Imax p * Imax p - idR p k * idR p k) in *.
    pose proof (Rmax_l 0 m) as H0. pose proof (Rmax_r 0 m) as H1.
    pose proof (sqrt_pos (Rmax 0 m)) as Hs.
    pose proof (sqrt_sqrt (Rmax 0 m) H0) as Hss.
    assert (Hlt : Rmax 0 m < y * y).
    { rewrite <- Hss. apply Rmult_le_0_lt_compat; lra. }
    unfold m in *. lra.
  - unfold voltage_ok in Hv.
    pose proof (voltage_quadratic p w k y) as Hq.
    unfold iqVoltConcR in H.
    destruct (Rle_dec 0 (discR p w k)) as [Hd|Hd].
    + assert (Hroot : (- BabsR p w + R_sqrt.sqrt (discR p w k)) / (2 * AR p w) < y).
      { eapply Rle_lt_trans; [apply Rmax_r | exact H]. }
      pose proof (quadratic_above_root (AR p w) (BabsR p w) (CR p w k) y HA Hd Hroot).
      lra.
    + pose proof (quadratic_no_root (AR p w) (BabsR p w) (CR p w k) y HA).
      unfold discR in Hd. lra.
  - unfold power_ok in Hp.
    pose proof (power_quadratic p w P k y) as Hq.
    unfold iqPowR in H.
    destruct (Rle_dec 0 (DpR p w P k)) as [Hd|Hd].
    + assert (Hroot : (- bPR p w + R_sqrt.sqrt (DpR p w P k)) / (2 * aPR p) < y).
      { eapply Rle_lt_trans; [apply Rmax_r | exact H]. }
      pose proof (quadratic_above_root (aPR p) (bPR p w) (cPR p P k) y Ha Hd Hroot).
      lra.
    + pose proof (quadratic_no_root (aPR p) (bPR p w) (cPR p P k) y Ha).
      unfold DpR in Hd. lra.
Qed.

Lemma iqMax_defaults_standstill k : iqMax defaults (Fin 0) 5000 k = Fin 72.
Proof.
  assert (HR : RphaseR defaults = 0.246)
    by (unfold RphaseR, RphaseBaseR; fields; lra).
  assert (HK : KtR defaults = 0.272) by reflexivity.
  assert (HA : AR defaults 0 = 0.246 * 0.246) by (unfold AR; rewrite HR; lra).
  assert (HB : BabsR defaults 0 = 0) by (unfold BabsR; lra).
  assert (Hd : discR defaults 0 k = 4 * (0.246 * 0.246) * (45.6 * 45.6 / 3)).
  { unfold discR, CR. rewrite HA, HB, HK, VmaxR_sq.
    rewrite (idR_no_weakening defaults k) by reflexivity. fields. lra. }
  assert (HD : DpR defaults 0 5000 k = 4 * (3 * 0.246) * 5000).
  { unfold DpR, bPR, aPR, cPR. rewrite HR, HK.
    rewrite (idR_no_weakening defaults k) by reflexivity. lra. }
  assert (Hv : 72 <= iqVoltConcR defaults 0 k).
  { unfold iqVoltConcR. destruct (Rle_dec 0 (discR defaults 0 k)) as [H|H];
      [|rewrite Hd in H; lra].
    eapply Rle_trans; [|apply Rmax_r]. rewrite HA, HB.
    assert (Hs : 72 * (2 * (0.246 * 0.246)) <= R_sqrt.sqrt (discR defaults 0 k))
      by (apply sqrt_lower; [lra | rewrite Hd; lra]).
    apply Rmult_le_reg_r with (2 * (0.246 * 0.246)); [lra|].
    unfold Rdiv. rewrite Rmult_assoc, Rinv_l by lra. lra. }
  assert (Hq : 72 <= iqPowR defaults 0 5000 k).
  { unfold iqPowR. destruct (Rle_dec 0 (DpR defaults 0 5000 k)) as [H|H];
      [|rewrite HD in H; lra].
    eapply Rle_trans; [|apply Rmax_r]. unfold bPR, aPR. rewrite HR, HK.
    assert (Hs : 72 * (2 * (3 * 0.246)) <= R_sqrt.sqrt (DpR defaults 0 5000 k))
      by (apply sqrt_lower; [lra | rewrite HD; lra]).
    apply Rmult_le_reg_r with (2 * (3 * 0.246)); [lra|].
    unfold Rdiv. rewrite Rmult_assoc, Rinv_l by lra. lra. }
  rewrite iqMax_conc_R; [|reflexivity|rewrite HR; lra].
  rewrite iqCurR_defaults. f_equal.
  rewrite (Rmin_left 72 _) by exact Hv. apply Rmin_left. exact Hq.
Qed.

Lemma selected_current_is_feasible_witness :
  current_ok defaults (idR defaults 0) 72
  /\ voltage_ok defaults 0 (idR defaults 0) 72
  /\ power_ok defaults 0 5000 (idR defaults 0) 72.
Proof.
  apply (selected_current_is_feasible defaults 0 5000 0 72).
  - reflexivity.
  - unfold RphaseR, RphaseBaseR. fields. lra.
  - unfold KtR. fields. lra.
  - lra.
  - apply iqMax_defaults_standstill.
  - lra.
Defined.

Lemma selected_current_is_maximal_witness :
  ~ (current_ok defaults (idR defaults 0) 73
     /\ voltage_ok defaults 0 (idR defaults 0) 73
     /\ power_ok defaults 0 5000 (idR defaults 0) 73).
Proof.
  apply (selected_current_is_maximal defaults 0 5000 0 72 73).
  - reflexivity.
  - unfold RphaseR, RphaseBaseR. fields. lra.
  - apply iqMax_defaults_standstill.
  - lra.
Defined.

(** * Further properties of the table *)

(** ** The keys of a row, exactly *)

Lemma string_length_app (s t : string) :
  String.length (s +:+ t) = (String.length s + String.length t)%nat.
Proof.
  induction s as [|c s IH]; [reflexivity|].
  change (String c s +:+ t) with (String c (s +:+ t)).
  cbn [String.length]. rewrite IH. reflexivity.
Qed.

Lemma string_app_inj_r (t s1 s2 : string) : s1 +:+ t = s2 +:+ t -> s1 = s2.
Proof.
  revert s2. induction s1 as [|c1 s1 IH]; intros [|c2 s2] H.
  - reflexivity.
  - apply (f_equal String.length) in H.
    change (String c2 s2 +:+ t) with (String c2 (s2 +:+ t)) in H.
    change ("" +:+ t) with t in H.
    cbn [String.length] in H. rewrite string_length_app in H. lia.
  - apply (f_equal String.length) in H.
    change (String c1 s1 +:+ t) with (String c1 (s1 +:+ t)) in H.
    change ("" +:+ t) with t in H.
    cbn [String.length] in H. rewrite string_length_app in H. lia.
  - change (String c1 (s1 +:+ t) = String c2 (s2 +:+ t)) in H.
    injection H as -> H. f_equal. apply IH, H.
Qed.

Lemma series_key_inj (w1 w2 : Z) : series_key w1 = series_key w2 -> w1 = w2.
Proof.
  unfold series_key. intros H. apply string_app_inj_r in H.
  apply (inj pretty) in H. exact H.
Qed.

(** X9: the keys of a row.  Every row holds its speed under ["speed"] and,
    for each selected supply, the force of that very supply under its key
    [`${P} W`]; the key of a supply that is not selected is absent; and
    there are no other keys than ["speed"] and the series keys. *)
Theorem row_holds_exactly_the_selected_series (p : params) (i : nat) :
  row_at p i !! "speed" = Some (speed_at p i)
  /\ (forall P, P ∈ selected p ->
        row_at p i !! series_key P = Some (force p (omega_m_at p i) P))
  /\ (forall P, P ∉ selected p -> row_at p i !! series_key P = None)
  /\ (forall k, is_Some (row_at p i !! k) <-> k = "speed" \/ k ∈ seriesKeys p).
Proof.
  split; [apply row_at_speed|]. split; [|split].
  - intros P HP. destruct (row_at_member p i P HP) as (P' & _ & Hk & E).
    apply series_key_inj in Hk. subst P'. exact E.
  - intros P HP. destruct (row_at p i !! series_key P) as [v|] eqn:E; [|reflexivity].
    apply row_at_lookup in E as [[Hk _]|(P' & HP' & Hk & _)].
    + exfalso. exact (series_key_ne_speed P Hk).
    + apply series_key_inj in Hk. subst P'. contradiction.
  - intros k. split.
    + intros [v E]. apply row_at_lookup in E as [[Hk _]|(P' & HP' & Hk & _)];
        [left; exact Hk | right].
      unfold seriesKeys. apply list_elem_of_fmap. exists P'. auto.
    + intros [->|Hk].
      * rewrite row_at_speed. eexists. reflexivity.
      * unfold seriesKeys in Hk. apply list_elem_of_fmap in Hk as (P & -> & HP).
        destruct (row_at_member p i P HP) as (P' & _ & _ & E).
        rewrite E. eexists. reflexivity.
Qed.

(** ** The number of rows, whatever [steps] is *)

Lemma trip_count_bounds p :
  INR (trip_count p) - 1 <= stepR p < INR (trip_count p).
Proof.
  rewrite INR_trip_count. destruct (archimed (stepR p)) as [H1 H2]. lra.
Qed.

Lemma trip_count_ge_2 p : (2 <= trip_count p)%nat.
Proof.
  pose proof (trip_count_bounds p) as [_ H]. pose proof (stepR_pos p) as Hs.
  apply INR_lt. cbn [INR]. lra.
Qed.

Lemma trip_count_small_steps p : steps p <= 1 -> trip_count p = 2%nat.
Proof.
  intros H.
  assert (Hs : stepR p = 1) by (unfold stepR; apply Rmax_left; exact H).
  unfold trip_count. rewrite Hs.
  replace (up 1) with 2%Z; [reflexivity|]. apply tech_up; lra.
Qed.

(** X10: the table for any [steps].  [data] returns [floor(step) + 1] rows
    with [step = max(1, steps)], at least two; row [i] is the one computed
    at speed [maxSpeed * i / step]; the first speed is [0]; with
    [maxSpeed >= 0] the speeds are non-decreasing and stay within
    [[0, maxSpeed]]; and with [steps <= 1] there are exactly two rows, at
    speeds [0] and [maxSpeed]. *)
Theorem table_rows_for_any_steps (p : params) :
  exists rows,
    (exists fuel, data p fuel = Some rows)
    /\ (forall fuel rows', data p fuel = Some rows' -> rows' = rows)
    /\ length rows = trip_count p
    /\ (2 <= trip_count p)%nat
    /\ INR (trip_count p) - 1 <= Rmax 1 (steps p) < INR (trip_count p)
    /\ (forall i, (i < trip_count p)%nat ->
          rows !! i = Some (row_at p i)
          /\ row_at p i !! "speed" = Some (Fin (speedR p i)))
    /\ speedR p 0 = 0
    /\ (0 <= maxSpeed p ->
        forall i, (i < trip_count p)%nat ->
          0 <= speedR p i <= maxSpeed p /\ speedR p i <= speedR p (S i))
    /\ (steps p <= 1 ->
        trip_count p = 2%nat /\ speedR p 1 = maxSpeed p).
Proof.
  exists (map (row_at p) (seq 0 (trip_count p))).
  pose proof (stepR_pos p) as Hs.
  split; [exists (S (trip_count p)); apply data_terminates|].
  split; [intros fuel rows' H; exact (data_Some p fuel rows' H)|].
  split; [rewrite length_map, length_seq; reflexivity|].
  split; [apply trip_count_ge_2|].
  split; [apply trip_count_bounds|].
  split; [|split; [|split]].
  - intros i Hi. split.
    + rewrite list_lookup_fmap, lookup_seq_lt by exact Hi. reflexivity.
    + rewrite row_at_speed, speed_at_Fin. reflexivity.
  - unfold speedR. cbn [INR]. unfold Rdiv. lra.
  - intros Hm i Hi.
    assert (Hi' : INR i <= stepR p).
    { pose proof (proj1 (loop_test_iff p i)) as _.
      apply (proj2 (loop_test_iff p i)) in Hi.
      rewrite step_Fin in Hi. unfold JS.of_nat in Hi.
      rewrite le_Fin in Hi. apply Rleb_true in Hi. exact Hi. }
    pose proof (pos_INR i) as H0.
    assert (Hinv : 0 < / stepR p) by (apply Rinv_0_lt_compat; lra).
    unfold speedR, Rdiv. rewrite S_INR. repeat split.
    + apply Rmult_le_pos; [apply Rmult_le_pos; assumption | lra].
    + rewrite Rmult_assoc. rewrite <- (Rmult_1_r (maxSpeed p)) at 2.
      apply Rmult_le_compat_l; [exact Hm|].
      apply Rmult_le_reg_r with (stepR p); [lra|].
      rewrite Rmult_assoc, Rinv_l by lra. lra.
    + apply Rmult_le_compat_r; [lra|]. apply Rmult_le_compat_l; [exact Hm | lra].
  - intros H. split; [apply trip_count_small_steps, H|].
    unfold speedR, stepR. rewrite (Rmax_left 1 (steps p)) by exact H.
    cbn [INR]. unfold Rdiv. rewrite Rinv_1. lra.
Qed.

(** ** The speed sweep (C8) *)

Lemma steps_fractional : steps fractional_steps = 10.5.
Proof.
  unfold fractional_steps, handle, clamp_steps, number.
  cbn [steps isFinite JS.min JS.max real_of].
  rewrite (Rmin_right 500 10.5) by lra. apply Rmax_right. lra.
Qed.

Lemma maxSpeed_fractional : maxSpeed fractional_steps = 3.
Proof. reflexivity. Qed.

Lemma stepR_clamped p : 10 <= steps p -> stepR p = steps p.
Proof. intros H. unfold stepR. apply Rmax_right. lra. Qed.

Lemma trip_count_floor p :
  exists n, trip_count p = S n /\ INR n <= stepR p < INR n + 1.
Proof.
  pose proof (trip_count_ge_2 p) as H2.
  pose proof (trip_count_bounds p) as Hb.
  exists (Nat.pred (trip_count p)).
  assert (E : trip_count p = S (Nat.pred (trip_count p))) by lia.
  split; [exact E|].
  rewrite E, S_INR in Hb. lra.
Qed.

(** C8, as stated, fails: the handler of the chart-points box clamps the
    number typed to [10, 500] but does not round it.  After typing [10.5]
    the state has [steps = 10.5] and [maxSpeed = 3]; [data] returns 11 rows,
    which is not [steps + 1], and every speed in the table is below
    [maxSpeed]: the last one is [3 * 10 / 10.5]. *)
Lemma C8_fractional_steps_short_sweep :
  reachable fractional_steps
  /\ 10 <= steps fractional_steps <= 500
  /\ 0 <= maxSpeed fractional_steps
  /\ exists rows,
       data fractional_steps 12 = Some rows
       /\ length rows = 11%nat
       /\ INR (length rows) <> steps fractional_steps + 1
       /\ (exists r, last rows = Some r
             /\ r !! "speed" = Some (Fin (3 * 10 / 10.5)))
       /\ (forall r v, r ∈ rows -> r !! "speed" = Some (Fin v) ->
             v < maxSpeed fractional_steps).
Proof.
  pose proof steps_fractional as Hs.
  pose proof maxSpeed_fractional as Hm.
  destruct (fractional_steps_trip_count fractional_steps Hs) as (Ht & Hl).
  split; [apply reachable_step, reachable_init|].
  split; [rewrite Hs; lra|].
  split; [rewrite Hm; lra|].
  exists (map (row_at fractional_steps) (seq 0 11)).
  split; [rewrite <- Ht; apply data_terminates|].
  split; [rewrite length_map, length_seq; reflexivity|].
  split.
  { rewrite length_map, length_seq, Hs.
    replace (INR 11) with 11 by (rewrite INR_IZR_INZ; reflexivity). lra. }
  split.
  { exists (row_at fractional_steps 10). split.
    - change (seq 0 11) with (seq 0 10 ++ [10%nat]).
      rewrite map_app. cbn [map]. apply last_snoc.
    - rewrite row_at_speed, speed_at_Fin, Hl, Hm. reflexivity. }
  intros r v Hr Hv.
  apply list_elem_of_fmap in Hr as (i & -> & Hi).
  apply elem_of_seq in Hi.
  rewrite row_at_speed, speed_at_Fin in Hv. injection Hv as <-.
  assert (Hst : stepR fractional_steps = 10.5)
    by (rewrite stepR_clamped; rewrite Hs; lra).
  unfold speedR. rewrite Hst, Hm.
  assert (Hi' : INR i <= 10).
  { replace 10 with (INR 10) by (rewrite INR_IZR_INZ; reflexivity).
    apply le_INR. lia. }
  apply Rmult_lt_reg_r with 10.5; [lra|].
  unfold Rdiv. rewrite Rmult_assoc, Rinv_l by lra. lra.
Qed.

(** C8, amended: with [steps] in [10, 500] (an integer or not) and
    [maxSpeed >= 0], [data] returns [n + 1] rows, [n] being the integer part
    of [steps]; row [i] has speed [maxSpeed * i / steps], so that the speeds
    start at [0], are non-decreasing and are spaced by [maxSpeed / steps];
    the last speed, [maxSpeed * n / steps], is at most [maxSpeed].  When
    [steps] is an integer there are [steps + 1] rows and the last speed is
    [maxSpeed]; when it is not, the number of rows is not [steps + 1] and,
    for [maxSpeed > 0], the last speed is below [maxSpeed]. *)
Theorem C8_speed_sweep (p : params)
    (Hs : 10 <= steps p <= 500) (Hm : 0 <= maxSpeed p) :
  exists n : nat,
    INR n <= steps p < INR n + 1
    /\ (exists fuel rows, data p fuel = Some rows)
    /\ (forall fuel rows, data p fuel = Some rows ->
          length rows = S n
          /\ (forall i, (i <= n)%nat ->
                exists r, rows !! i = Some r
                  /\ r !! "speed" = Some (Fin (maxSpeed p * INR i / steps p))))
    /\ maxSpeed p * INR 0 / steps p = 0
    /\ (forall i : nat,
          maxSpeed p * INR (S i) / steps p - maxSpeed p * INR i / steps p
          = maxSpeed p / steps p)
    /\ (forall i : nat,
          maxSpeed p * INR i / steps p <= maxSpeed p * INR (S i) / steps p)
    /\ maxSpeed p * INR n / steps p <= maxSpeed p
    /\ (steps p = INR n ->
          INR (S n) = steps p + 1
          /\ maxSpeed p * INR n / steps p = maxSpeed p)
    /\ (steps p <> INR n ->
          INR (S n) <> steps p + 1
          /\ (0 < maxSpeed p -> maxSpeed p * INR n / steps p < maxSpeed p)).
Proof.
  assert (Hst : stepR p = steps p) by (apply stepR_clamped; lra).
  destruct (trip_count_floor p) as (n & Ht & Hn). rewrite Hst in Hn.
  assert (Hpos : 0 < steps p) by lra.
  assert (Hinv : 0 < / steps p) by (apply Rinv_0_lt_compat; exact Hpos).
  exists n. split; [exact Hn|].
  split; [eexists _, _; apply data_terminates|].
  split.
  { intros fuel rows Hd. apply data_Some in Hd. rewrite Ht in Hd. subst rows.
    split; [rewrite length_map, length_seq; reflexivity|].
    intros i Hi. exists (row_at p i). split.
    - rewrite list_lookup_fmap, lookup_seq_lt by lia. reflexivity.
    - rewrite row_at_speed, speed_at_Fin. unfold speedR. rewrite Hst.
      reflexivity. }
  split; [cbn [INR]; unfold Rdiv; lra|].
  split; [intros i; rewrite S_INR; field; lra|].
  split.
  { intros i. rewrite S_INR. unfold Rdiv.
    apply Rmult_le_compat_r; [lra|]. nra. }
  assert (Hlast : maxSpeed p * INR n / steps p <= maxSpeed p).
  { apply Rmult_le_reg_r with (steps p); [exact Hpos|].
    unfold Rdiv. rewrite Rmult_assoc, Rinv_l by lra.
    rewrite Rmult_1_r. apply Rmult_le_compat_l; lra. }
  split; [exact Hlast|].
  split.
  - intros E. split; [rewrite S_INR; lra|].
    rewrite <- E. field. lra.
  - intros E. split; [rewrite S_INR; lra|].
    intros Hm'. apply Rmult_lt_reg_r with (steps p); [exact Hpos|].
    unfold Rdiv. rewrite Rmult_assoc, Rinv_l by lra.
    rewrite Rmult_1_r. apply Rmult_lt_compat_l; lra.
Qed.

Lemma C8_speed_sweep_witness :
  exists n : nat,
    INR n <= steps fractional_steps < INR n + 1
    /\ (exists fuel rows, data fractional_steps fuel = Some rows)
    /\ (forall fuel rows, data fractional_steps fuel = Some rows ->
          length rows = S n
          /\ (forall i, (i <= n)%nat ->
                exists r, rows !! i = Some r
                  /\ r !! "speed"
                     = Some (Fin (maxSpeed fractional_steps * INR i
                                  / steps fractional_steps))))
    /\ maxSpeed fractional_steps * INR 0 / steps fractional_steps = 0
    /\ (forall i : nat,
          maxSpeed fractional_steps * INR (S i) / steps fractional_steps
          - maxSpeed fractional_steps * INR i / steps fractional_steps
          = maxSpeed fractional_steps / steps fractional_steps)
    /\ (forall i : nat,
          maxSpeed fractional_steps * INR i / steps fractional_steps
          <= maxSpeed fractional_steps * INR (S i) / steps fractional_steps)
    /\ maxSpeed fractional_steps * INR n / steps fractional_steps
       <= maxSpeed fractional_steps
    /\ (steps fractional_steps = INR n ->
          INR (S n) = steps fractional_steps + 1
          /\ maxSpeed fractional_steps * INR n / steps fractional_steps
             = maxSpeed fractional_steps)
    /\ (steps fractional_steps <> INR n ->
          INR (S n) <> steps fractional_steps + 1
          /\ (0 < maxSpeed fractional_steps ->
              maxSpeed fractional_steps * INR n / steps fractional_steps
              < maxSpeed fractional_steps)).
Proof.
  apply (C8_speed_sweep fractional_steps).
  - rewrite steps_fractional. lra.
  - rewrite maxSpeed_fractional. lra.
Defined.

(** ** The axis bound covers the table *)

Lemma number_opt_Fin o : exists v, number_opt o = Fin v.
Proof. destruct o as [n|]; [apply number_finite | exists 0; reflexivity]. Qed.

Lemma maxY_inner (d : row) (keys : list string) :
  forall x0,
    exists x,
      fold_left (fun (m : num) (k : string) => JS.max m (number_opt (d !! k)))
        keys (Fin x0) = Fin x
      /\ x0 <= x
      /\ (forall k v, k ∈ keys -> number_opt (d !! k) = Fin v -> v <= x)
      /\ (x = x0 \/ exists k, k ∈ keys /\ number_opt (d !! k) = Fin x).
Proof.
  induction keys as [|k keys IH]; intros x0; cbn [fold_left].
  - exists x0. split; [reflexivity|]. split; [lra|]. split; [|left; reflexivity].
    intros k v Hk. inversion Hk.
  - destruct (number_opt_Fin (d !! k)) as (v0 & E0). rewrite E0. cbn [JS.max].
    destruct (IH (Rmax x0 v0)) as (x & -> & Hx & Hall & Hatt).
    pose proof (Rmax_l x0 v0) as Hl. pose proof (Rmax_r x0 v0) as Hr.
    exists x. split; [reflexivity|]. split; [lra|]. split.
    + intros k' v Hin Hv. apply elem_of_cons in Hin as [->|Hin].
      * rewrite E0 in Hv. injection Hv as <-. lra.
      * exact (Hall k' v Hin Hv).
    + destruct Hatt as [->|(k' & Hin & E)].
      * unfold Rmax. destruct (Rle_dec x0 v0).
        -- right. exists k. split; [left | exact E0].
        -- left. reflexivity.
      * right. exists k'. split; [right; exact Hin | exact E].
Qed.

Lemma maxY_outer (rows : list row) (keys : list string) :
  forall x0,
    exists x,
      fold_left
        (fun (m : num) (d : row) =>
           fold_left (fun (m : num) (k : string) => JS.max m (number_opt (d !! k)))
             keys m)
        rows (Fin x0) = Fin x
      /\ x0 <= x
      /\ (forall d k v, d ∈ rows -> k ∈ keys ->
            number_opt (d !! k) = Fin v -> v <= x)
      /\ (x = x0 \/ exists d k, d ∈ rows /\ k ∈ keys
                                /\ number_opt (d !! k) = Fin x).
Proof.
  induction rows as [|d rows IH]; intros x0; cbn [fold_left].
  - exists x0. split; [reflexivity|]. split; [lra|]. split; [|left; reflexivity].
    intros d k v Hd. inversion Hd.
  - destruct (maxY_inner d keys x0) as (x1 & -> & H01 & Hall1 & Hatt1).
    destruct (IH x1) as (x & -> & H1x & Hall & Hatt).
    exists x. split; [reflexivity|]. split; [lra|]. split.
    + intros d' k v Hd Hk Hv. apply elem_of_cons in Hd as [->|Hd].
      * specialize (Hall1 k v Hk Hv). lra.
      * exact (Hall d' k v Hd Hk Hv).
    + destruct Hatt as [->|(d' & k & Hd & Hk & E)].
      * destruct Hatt1 as [->|(k & Hk & E)]; [left; reflexivity|].
        right. exists d, k. split; [left | auto].
      * right. exists d', k. split; [right; exact Hd | auto].
Qed.

Lemma ceil_bounds (x : R) :
  x <= IZR (1 - up (- x)) < x + 1.
Proof.
  destruct (archimed (- x)) as [H1 H2]. rewrite minus_IZR. lra.
Qed.

(** X11: the axis bound.  For every table and every list of keys, [maxY] is
    [25 * z] for an integer [z >= 0]; it is at least every value [number]
    reads under these keys (a missing key reads as [0]), in particular
    every finite value stored under them; and it is tight:
    either [z = 0], or some value of the table is above [maxY - 25]. *)
Theorem maxY_covers_the_table (rows : list row) (keys : list string) :
  exists z : Z,
    (0 <= z)%Z
    /\ maxY rows keys = Fin (IZR z * 25)
    /\ (forall d k v, d ∈ rows -> k ∈ keys ->
          number_opt (d !! k) = Fin v -> v <= IZR z * 25)
    /\ (forall d k v, d ∈ rows -> k ∈ keys ->
          d !! k = Some (Fin v) -> v <= IZR z * 25)
    /\ (z = 0%Z
        \/ exists d k v, d ∈ rows /\ k ∈ keys /\ number_opt (d !! k) = Fin v
                         /\ IZR z * 25 - 25 < v).
Proof.
  unfold maxY.
  destruct (maxY_outer rows keys 0) as (x & E & Hx & Hall & Hatt).
  cbv zeta. rewrite E. rewrite div_Fin by lra. cbn [Math_ceil JS.mul].
  destruct (ceil_bounds (x / 25)) as [Hc1 Hc2].
  set (z := (1 - up (- (x / 25)))%Z) in *.
  exists z. split; [|split; [reflexivity|split; [|split]]].
  - apply le_IZR. assert (0 <= x / 25) by (unfold Rdiv; lra). lra.
  - intros d k v Hd Hk Hv. specialize (Hall d k v Hd Hk Hv).
    unfold Rdiv in Hc1. lra.
  - intros d k v Hd Hk Hv.
    assert (Hn : number_opt (d !! k) = Fin v) by (rewrite Hv; reflexivity).
    specialize (Hall d k v Hd Hk Hn). unfold Rdiv in Hc1. lra.
  - destruct Hatt as [->|(d & k & Hd & Hk & Ev)].
    + left. unfold z. replace (- (0 / 25)) with 0 by (unfold Rdiv; lra).
      replace (up 0) with 1%Z; [reflexivity|]. apply tech_up; lra.
    + right. exists d, k, x. repeat split; try assumption.
      unfold Rdiv in Hc2. lra.
Qed.

(** * Properties of the input handlers *)

(** ** The selection stays a strictly ascending list *)

Lemma strictly_sorted_NoDup (l : list Z) : StronglySorted Z.lt l -> NoDup l.
Proof.
  induction 1 as [|x l Hs IH Hx]; constructor; [|exact IH].
  intros Hin. rewrite Forall_forall in Hx. specialize (Hx x Hin). lia.
Qed.

Lemma strictly_sorted_le (l : list Z) :
  StronglySorted Z.lt l -> StronglySorted Z.le l.
Proof.
  induction 1 as [|x l Hs IH Hx]; constructor; [exact IH|].
  eapply Forall_impl; [exact Hx|]. intros y Hy. cbn in Hy. lia.
Qed.

Lemma sorted_le_NoDup_strict (l : list Z) :
  StronglySorted Z.le l -> NoDup l -> StronglySorted Z.lt l.
Proof.
  induction 1 as [|x l Hs IH Hx]; intros Hnd; constructor.
  - apply IH. apply NoDup_cons in Hnd as [_ Hnd]. exact Hnd.
  - apply NoDup_cons in Hnd as [Hx' _].
    rewrite Forall_forall in Hx |- *. intros y Hy.
    specialize (Hx y Hy). assert (x <> y) by (intros ->; contradiction). lia.
Qed.

Lemma sort_asc_perm (l : list Z) : sort_asc l ≡ₚ l.
Proof. apply merge_sort_Permutation. Qed.

Lemma sort_asc_sorted (l : list Z) : StronglySorted Z.le (sort_asc l).
Proof. apply StronglySorted_merge_sort; apply _. Qed.

Lemma sort_asc_strict (l : list Z) : NoDup l -> StronglySorted Z.lt (sort_asc l).
Proof.
  intros H. apply sorted_le_NoDup_strict; [apply sort_asc_sorted|].
  rewrite sort_asc_perm. exact H.
Qed.

Lemma sorted_unique (l1 l2 : list Z) :
  StronglySorted Z.lt l1 -> StronglySorted Z.lt l2 -> l1 ≡ₚ l2 -> l1 = l2.
Proof.
  intros H1 H2 HP.
  apply (StronglySorted_unique Z.le); [apply strictly_sorted_le.. | exact HP];
    assumption.
Qed.

Lemma filter_strictly_sorted (w : Z) (l : list Z) :
  StronglySorted Z.lt l -> StronglySorted Z.lt (filter (fun x : Z => x <> w) l).
Proof.
  induction 1 as [|x l Hs IH Hx]; [constructor|].
  rewrite filter_cons. destruct (decide (x <> w)); [|exact IH].
  constructor; [exact IH|].
  rewrite Forall_forall in Hx |- *. intros y Hy.
  apply list_elem_of_filter in Hy as [_ Hy]. exact (Hx y Hy).
Qed.

Lemma filter_absent (w : Z) (l : list Z) :
  w ∉ l -> filter (fun x : Z => x <> w) l = l.
Proof.
  induction l as [|x l IH]; intros H; [reflexivity|].
  rewrite filter_cons. apply not_elem_of_cons in H as [Hx Hl].
  destruct (decide (x <> w)) as [_|Hn]; [rewrite IH by exact Hl; reflexivity|].
  exfalso. apply Hn. congruence.
Qed.

Lemma filter_present (w : Z) (l : list Z) :
  NoDup l -> w ∈ l -> l ≡ₚ filter (fun x : Z => x <> w) l ++ [w].
Proof.
  induction 1 as [|x l Hx Hnd IH]; intros Hin; [inversion Hin|].
  rewrite filter_cons. destruct (decide (x <> w)) as [Hne|He].
  - apply elem_of_cons in Hin as [->|Hin]; [contradiction|].
    cbn [app]. constructor. apply IH, Hin.
  - assert (x = w) as -> by (destruct (decide (x = w)); [assumption | contradiction]).
    rewrite (filter_absent w l Hx). apply Permutation_cons_append.
Qed.

Lemma NoDup_snoc_absent (w : Z) (l : list Z) :
  NoDup l -> w ∉ l -> NoDup (l ++ [w]).
Proof.
  intros Hnd Hw. apply NoDup_app. split; [exact Hnd|].
  split; [|apply NoDup_singleton].
  intros x Hx Hx'. apply list_elem_of_singleton in Hx'. subst x. contradiction.
Qed.

Lemma togglePreset_sorted (w : Z) (prev : list Z) :
  StronglySorted Z.lt prev -> StronglySorted Z.lt (togglePreset w prev).
Proof.
  intros Hs. unfold togglePreset. destruct (bool_decide (w ∈ prev)) eqn:E.
  - apply filter_strictly_sorted, Hs.
  - apply bool_decide_eq_false in E. apply sort_asc_strict.
    apply NoDup_snoc_absent; [apply strictly_sorted_NoDup, Hs | exact E].
Qed.

Lemma addCustom_sorted (v : num) (prev : list Z) :
  StronglySorted Z.lt prev -> StronglySorted Z.lt (addCustom v prev).
Proof.
  intros Hs. unfold addCustom. cbv zeta.
  destruct (round_number v =? 0)%Z; [exact Hs|].
  destruct (bool_decide (round_number v ∈ prev)) eqn:E; [exact Hs|].
  apply bool_decide_eq_false in E. apply sort_asc_strict.
  apply NoDup_snoc_absent; [apply strictly_sorted_NoDup, Hs | exact E].
Qed.

(** X12: [togglePreset] on a strictly ascending selection.  The result is
    strictly ascending; it holds [w] exactly when [w] was absent and the
    other supplies exactly when they were present; and toggling the same
    supply twice gives back the selection. *)
Theorem togglePreset_toggles (w : Z) (prev : list Z)
    (Hs : StronglySorted Z.lt prev) :
  StronglySorted Z.lt (togglePreset w prev)
  /\ (forall x, x ∈ togglePreset w prev <->
                (x <> w /\ x ∈ prev) \/ (x = w /\ w ∉ prev))
  /\ togglePreset w (togglePreset w prev) = prev.
Proof.
  pose proof (strictly_sorted_NoDup prev Hs) as Hnd.
  destruct (bool_decide (w ∈ prev)) eqn:E.
  - assert (Et : togglePreset w prev = filter (fun x : Z => x <> w) prev)
      by (unfold togglePreset; rewrite E; reflexivity).
    rewrite !Et.
    apply bool_decide_eq_true in E.
    pose proof (filter_strictly_sorted w prev Hs) as Hf.
    assert (Hw : w ∉ filter (fun x : Z => x <> w) prev).
    { intros H. apply list_elem_of_filter in H as [H _]. congruence. }
    split; [exact Hf|]. split.
    + intros x. rewrite list_elem_of_filter. split.
      * intros [H1 H2]. left. auto.
      * intros [[H1 H2]|[-> H2]]; [auto | contradiction].
    + unfold togglePreset. rewrite bool_decide_eq_false_2 by exact Hw.
      apply sorted_unique; [|exact Hs|].
      * apply sort_asc_strict. apply NoDup_app. split; [|split].
        -- apply strictly_sorted_NoDup, Hf.
        -- intros x Hx Hx'. apply list_elem_of_singleton in Hx'. subst x. contradiction.
        -- apply NoDup_singleton.
      * rewrite sort_asc_perm. symmetry. apply filter_present; assumption.
  - assert (Et : togglePreset w prev = sort_asc (prev ++ [w]))
      by (unfold togglePreset; rewrite E; reflexivity).
    rewrite !Et.
    apply bool_decide_eq_false in E.
    assert (Hnd' : NoDup (prev ++ [w])).
    { apply NoDup_app. split; [exact Hnd|]. split; [|apply NoDup_singleton].
      intros x Hx Hx'. apply list_elem_of_singleton in Hx'. subst x. contradiction. }
    pose proof (sort_asc_strict _ Hnd') as Hss.
    split; [exact Hss|]. split.
    + intros x. rewrite sort_asc_perm, elem_of_app, list_elem_of_singleton. split.
      * intros [H| ->]; [left | right; auto].
        split; [intros ->; contradiction | exact H].
      * intros [[_ H]|[-> _]]; auto.
    + unfold togglePreset.
      assert (Hin : w ∈ sort_asc (prev ++ [w])).
      { rewrite sort_asc_perm, elem_of_app, list_elem_of_singleton. auto. }
      rewrite bool_decide_eq_true_2 by exact Hin.
      apply sorted_unique; [apply filter_strictly_sorted, Hss | exact Hs |].
      rewrite sort_asc_perm, filter_app, (filter_absent w prev E).
      rewrite filter_cons. destruct (decide (w <> w)); [congruence|].
      rewrite filter_nil, app_nil_r. reflexivity.
Qed.

Lemma togglePreset_toggles_witness :
  StronglySorted Z.lt (togglePreset 450 [3000%Z])
  /\ (forall x, x ∈ togglePreset 450 [3000%Z] <->
                (x <> 450%Z /\ x ∈ [3000%Z]) \/ (x = 450%Z /\ 450%Z ∉ [3000%Z]))
  /\ togglePreset 450 (togglePreset 450 [3000%Z]) = [3000%Z].
Proof.
  apply (togglePreset_toggles 450 [3000%Z]).
  repeat constructor.
Defined.

(** ** Adding a custom supply *)

Lemma round_number_Fin x :
  IZR (round_number (Fin x)) <= x + / 2 < IZR (round_number (Fin x)) + 1.
Proof.
  unfold round_number. cbn [number JS.isFinite].
  destruct (archimed (x + / 2)) as [H1 H2]. rewrite minus_IZR. lra.
Qed.

Lemma round_number_not_finite v : JS.isFinite v = false -> round_number v = 0%Z.
Proof.
  intros H. unfold round_number, number. rewrite H.
  replace (0 + / 2) with (/ 2) by lra.
  assert (E : up (/ 2) = 1%Z) by (symmetry; apply tech_up; lra).
  rewrite E. reflexivity.
Qed.

Lemma round_number_zero_iff x : round_number (Fin x) = 0%Z <-> - / 2 <= x < / 2.
Proof.
  pose proof (round_number_Fin x) as [H1 H2]. split.
  - intros E. rewrite E in H1, H2. lra.
  - intros [Ha Hb].
    assert (Hlo : (-1 < round_number (Fin x))%Z) by (apply lt_IZR; lra).
    assert (Hhi : (round_number (Fin x) < 1)%Z) by (apply lt_IZR; lra).
    lia.
Qed.

(** X13: [addCustom] on a strictly ascending selection.  The number typed is
    rounded to the nearest integer [z] (halves upwards); text that is not a
    finite number, or a number in [[-0.5, 0.5)], rounds to [0] and leaves
    the selection as it is; otherwise the result is strictly ascending and
    holds [z] and the former supplies, nothing else, so that adding the same
    value again changes nothing. *)
Theorem addCustom_adds_once (v : num) (prev : list Z)
    (Hs : StronglySorted Z.lt prev) :
  StronglySorted Z.lt (addCustom v prev)
  /\ (round_number v = 0%Z -> addCustom v prev = prev)
  /\ (round_number v <> 0%Z ->
      forall x, x ∈ addCustom v prev <-> x ∈ prev \/ x = round_number v)
  /\ addCustom v (addCustom v prev) = addCustom v prev
  /\ (JS.isFinite v = false -> addCustom v prev = prev)
  /\ (forall x, v = Fin x -> - / 2 <= x < / 2 -> addCustom v prev = prev)
  /\ (forall x, v = Fin x ->
        IZR (round_number v) <= x + / 2 < IZR (round_number v) + 1).
Proof.
  pose proof (strictly_sorted_NoDup prev Hs) as Hnd.
  assert (H0 : round_number v = 0%Z -> addCustom v prev = prev).
  { intros E. unfold addCustom. rewrite E. reflexivity. }
  assert (Hin : round_number v ∈ prev -> addCustom v prev = prev).
  { intros E. unfold addCustom. cbv zeta.
    destruct (round_number v =? 0)%Z; [reflexivity|].
    rewrite bool_decide_eq_true_2 by exact E. reflexivity. }
  assert (Hnew : round_number v <> 0%Z -> round_number v ∉ prev ->
                 addCustom v prev = sort_asc (prev ++ [round_number v])).
  { intros E1 E2. unfold addCustom. cbv zeta.
    rewrite (proj2 (Z.eqb_neq _ _) E1), bool_decide_eq_false_2 by exact E2.
    reflexivity. }
  assert (Hmem : round_number v <> 0%Z ->
                 forall x, x ∈ addCustom v prev <-> x ∈ prev \/ x = round_number v).
  { intros E1 x. destruct (decide (round_number v ∈ prev)) as [E2|E2].
    - rewrite (Hin E2). split; [auto|]. intros [H| ->]; assumption.
    - rewrite (Hnew E1 E2), sort_asc_perm, elem_of_app, list_elem_of_singleton.
      reflexivity. }
  assert (Hsorted : StronglySorted Z.lt (addCustom v prev)).
  { destruct (decide (round_number v = 0%Z)) as [E1|E1]; [rewrite (H0 E1); exact Hs|].
    destruct (decide (round_number v ∈ prev)) as [E2|E2]; [rewrite (Hin E2); exact Hs|].
    rewrite (Hnew E1 E2). apply sort_asc_strict. apply NoDup_app.
    split; [exact Hnd|]. split; [|apply NoDup_singleton].
    intros x Hx Hx'. apply list_elem_of_singleton in Hx'. subst x. contradiction. }
  split; [exact Hsorted|]. split; [exact H0|]. split; [exact Hmem|].
  split; [|split; [|split]].
  - destruct (decide (round_number v = 0%Z)) as [E1|E1].
    + rewrite !(H0 E1). reflexivity.
    + unfold addCustom at 1. cbv zeta.
      rewrite (proj2 (Z.eqb_neq _ _) E1).
      rewrite bool_decide_eq_true_2; [reflexivity|].
      apply (Hmem E1). right. reflexivity.
  - intros Hnf. apply H0, round_number_not_finite, Hnf.
  - intros x -> Hx. apply H0. apply round_number_zero_iff. exact Hx.
  - intros x ->. apply round_number_Fin.
Qed.

Lemma addCustom_adds_once_witness :
  StronglySorted Z.lt (addCustom (Fin 1200) [3000%Z])
  /\ (round_number (Fin 1200) = 0%Z -> addCustom (Fin 1200) [3000%Z] = [3000%Z])
  /\ (round_number (Fin 1200) <> 0%Z ->
      forall x, x ∈ addCustom (Fin 1200) [3000%Z] <->
                x ∈ [3000%Z] \/ x = round_number (Fin 1200))
  /\ addCustom (Fin 1200) (addCustom (Fin 1200) [3000%Z])
     = addCustom (Fin 1200) [3000%Z]
  /\ (JS.isFinite (Fin 1200) = false -> addCustom (Fin 1200) [3000%Z] = [3000%Z])
  /\ (forall x, Fin 1200 = Fin x -> - / 2 <= x < / 2 ->
        addCustom (Fin 1200) [3000%Z] = [3000%Z])
  /\ (forall x, Fin 1200 = Fin x ->
        IZR (round_number (Fin 1200)) <= x + / 2
        < IZR (round_number (Fin 1200)) + 1).
Proof.
  apply (addCustom_adds_once (Fin 1200) [3000%Z]).
  repeat constructor.
Defined.

(** ** What the handlers keep true *)

Lemma number_real v : number v = Fin (real_of (number v)).
Proof. destruct v; reflexivity. Qed.

Lemma clamp_unit_range v :
  clamp_unit v = Fin (real_of (clamp_unit v)) /\ 0 <= real_of (clamp_unit v) <= 1.
Proof.
  unfold clamp_unit. rewrite (number_real v). cbn [JS.min JS.max real_of].
  split; [reflexivity|]. split; [apply Rmax_l|].
  apply Rmax_lub; [lra | apply Rmin_l].
Qed.

Lemma clamp_steps_range v :
  clamp_steps v = Fin (real_of (clamp_steps v))
  /\ 10 <= real_of (clamp_steps v) <= 500.
Proof.
  unfold clamp_steps. rewrite (number_real v). cbn [JS.min JS.max real_of].
  split; [reflexivity|]. split; [apply Rmax_l|].
  apply Rmax_lub; [lra | apply Rmin_l].
Qed.

Lemma clamp_idFW_range v :
  clamp_idFW v = Fin (real_of (clamp_idFW v)) /\ 0 <= real_of (clamp_idFW v).
Proof.
  unfold clamp_idFW. rewrite (number_real v). cbn [JS.max real_of].
  split; [reflexivity | apply Rmax_l].
Qed.

Lemma Imax_of_torque_real p v :
  Imax_of_torque p v
  = Fin (real_of (number v) / Rmax 1e-9 (KtR p)).
Proof.
  unfold Imax_of_torque. rewrite (number_real v), Kt_Fin. cbn [JS.max].
  rewrite div_Fin by apply Rmax_eps_nz. reflexivity.
Qed.

(** Every value a handler stores is a finite number. *)
Lemma handler_values_finite p v :
  (exists x, number v = Fin x)
  /\ (exists x, clamp_unit v = Fin x)
  /\ (exists x, clamp_steps v = Fin x)
  /\ (exists x, clamp_idFW v = Fin x)
  /\ (exists x, Imax_of_torque p v = Fin x).
Proof.
  split; [apply number_finite|].
  split; [eexists; apply clamp_unit_range|].
  split; [eexists; apply clamp_steps_range|].
  split; [eexists; apply clamp_idFW_range|].
  eexists. apply Imax_of_torque_real.
Qed.

Lemma state_ok_defaults : state_ok defaults.
Proof.
  unfold state_ok. fields. repeat split; try lra. repeat constructor.
Qed.

Lemma state_ok_handle e p : state_ok p -> state_ok (handle e p).
Proof.
  intros (Hu & Hg & Hst & Hfw & Hsel).
  unfold state_ok.
  destruct e; cbn [handle util gearEff steps idFWmax selected];
    repeat split; try lra; try exact Hsel;
    try apply clamp_unit_range; try apply clamp_steps_range;
    try apply clamp_idFW_range;
    try (repeat constructor; fail).
  - apply togglePreset_sorted, Hsel.
  - apply addCustom_sorted, Hsel.
Qed.

(** X14: the state invariant.  In every state the component can reach,
    whatever was typed into the inputs (text that does not parse reads as
    [0]), the utilisation and the gear efficiency are in [[0, 1]], [steps]
    is in [[10, 500]], the field-weakening limit is [>= 0], the selected
    supplies are strictly ascending, and the series keys are pairwise
    distinct. *)
Theorem reachable_state_invariant (p : params) (Hp : reachable p) :
  state_ok p /\ NoDup (seriesKeys p).
Proof.
  assert (H : state_ok p).
  { induction Hp as [|e p Hp IH]; [apply state_ok_defaults | apply state_ok_handle, IH]. }
  split; [exact H|].
  destruct H as (_ & _ & _ & _ & Hsel).
  unfold seriesKeys. apply NoDup_fmap_2.
  - intros w1 w2. apply series_key_inj.
  - apply strictly_sorted_NoDup, Hsel.
Qed.

Lemma reachable_state_invariant_witness :
  state_ok (handle (AddCustom (Fin 1200)) (handle (SetSteps NaN) defaults))
  /\ NoDup (seriesKeys
              (handle (AddCustom (Fin 1200)) (handle (SetSteps NaN) defaults))).
Proof.
  apply (reachable_state_invariant
           (handle (AddCustom (Fin 1200)) (handle (SetSteps NaN) defaults))).
  apply reachable_step, reachable_step, reachable_init.
Defined.

(** ** The current limit entered as a torque *)

(** X15: the torque box.  Typing a torque [t] sets the current limit so that
    the torque cap [Kt * Imax] is [t] again, as soon as [Kt >= 1e-9]; below
    that the divisor is [1e-9]; and text that is not a finite number sets
    the current limit to [0]. *)
Theorem torque_box_round_trip (p : params) (t : R) :
  (1e-9 <= KtR p -> TmMax (handle (SetTorque (Fin t)) p) = Fin t)
  /\ (KtR p <= 1e-9 -> Imax (handle (SetTorque (Fin t)) p) = t / 1e-9)
  /\ (forall v, JS.isFinite v = false -> Imax (handle (SetTorque v) p) = 0).
Proof.
  split; [|split].
  - intros HK. rewrite TmMax_Fin. f_equal.
    change (KtR (handle (SetTorque (Fin t)) p)) with (KtR p).
    cbn [handle Imax]. rewrite Imax_of_torque_real. cbn [real_of number JS.isFinite].
    rewrite Rmax_right by exact HK. field. lra.
  - intros HK. cbn [handle Imax]. rewrite Imax_of_torque_real.
    cbn [real_of number JS.isFinite]. rewrite Rmax_left by exact HK. reflexivity.
  - intros v Hv. cbn [handle Imax]. rewrite Imax_of_torque_real.
    unfold number. rewrite Hv. cbn [real_of]. unfold Rdiv. lra.
Qed.

Lemma torque_box_round_trip_witness :
  TmMax (handle (SetTorque (Fin 5)) defaults) = Fin 5.
Proof.
  apply (torque_box_round_trip defaults 5).
  unfold KtR. fields. lra.
Defined.

(** ** The two motor constants *)

(** X16: the motor constants.  When the entered constant is at least [1e-9]
    the two constants multiply to [9.5492965964254]; an entered speed
    constant below [1e-9] is divided as [1e-9]; and a torque constant [x]
    with [1e-9 <= x <= 9.5492965964254e9] survives switching the entry mode
    to the speed constant and typing the displayed value. *)
Theorem motor_constant_conversion (p : params) :
  (constMode p = KT -> 1e-9 <= KtState p ->
     exists kv, Kv p = Fin kv /\ KtState p * kv = 9.5492965964254)
  /\ (constMode p = KV -> 1e-9 <= KvState p ->
        exists kt, Kt p = Fin kt /\ kt * KvState p = 9.5492965964254)
  /\ (constMode p = KV -> KvState p <= 1e-9 ->
        Kt p = Fin (9.5492965964254 / 1e-9))
  /\ (constMode p = KT -> 1e-9 <= KtState p <= 9.5492965964254 / 1e-9 ->
        forall kv, Kv p = Fin kv ->
          Kt (handle (SetKvState (Fin kv)) (handle (SetConstMode KV) p)) = Kt p).
Proof.
  split; [|split; [|split]].
  - intros Hm Hx. unfold Kv, KTKV. rewrite Hm. cbn [JS.max].
    rewrite div_Fin by apply Rmax_eps_nz. rewrite Rmax_right by exact Hx.
    eexists. split; [reflexivity|]. field. lra.
  - intros Hm Hx. unfold Kt, KTKV. rewrite Hm. cbn [JS.max].
    rewrite div_Fin by apply Rmax_eps_nz. rewrite Rmax_right by exact Hx.
    eexists. split; [reflexivity|]. field. lra.
  - intros Hm Hx. unfold Kt, KTKV. rewrite Hm. cbn [JS.max].
    rewrite div_Fin by apply Rmax_eps_nz. rewrite Rmax_left by exact Hx.
    reflexivity.
  - intros Hm [Hlo Hhi] kv Hkv.
    unfold Kv, KTKV in Hkv. rewrite Hm in Hkv. cbn [JS.max] in Hkv.
    rewrite div_Fin in Hkv by apply Rmax_eps_nz.
    rewrite Rmax_right in Hkv by exact Hlo. injection Hkv as <-.
    unfold Kt at 2. rewrite Hm.
    unfold Kt, KTKV. cbn [handle constMode KvState real_of number JS.isFinite JS.max].
    rewrite div_Fin by apply Rmax_eps_nz. f_equal.
    assert (Hkv : 1e-9 <= 9.5492965964254 / KtState p).
    { apply Rmult_le_reg_r with (KtState p); [lra|].
      replace (9.5492965964254 / KtState p * KtState p) with 9.5492965964254
        by (field; lra).
      lra. }
    rewrite Rmax_right by exact Hkv. field. lra.
Qed.

Lemma motor_constant_conversion_witness :
  exists kv, Kv defaults = Fin kv /\ KtState defaults * kv = 9.5492965964254.
Proof.
  apply (motor_constant_conversion defaults); [reflexivity | fields; lra].
Defined.

(** * Properties of the power-only model *)

Lemma AppOld_Tm_positive_root (k w : R) (P : Z) :
  0 < k -> (0 < P)%Z ->
  exists tau, AppOld.Tm (Fin k) (Fin w) P = Fin tau
    /\ 0 < tau /\ k * (tau * tau) + w * tau - IZR P = 0.
Proof.
  intros Hk HP. apply IZR_lt in HP.
  set (d := w * w + 4 * k * IZR P).
  assert (Hd : 0 < d) by (unfold d; nra).
  pose proof (sqrt_sqrt d (Rlt_le _ _ Hd)) as Hq.
  pose proof (sqrt_pos d) as Hs.
  assert (Hgt : w < R_sqrt.sqrt d).
  { destruct (Rlt_or_le w (R_sqrt.sqrt d)) as [H|H]; [exact H|].
    unfold d in Hq at 3. nra. }
  unfold AppOld.Tm. js_fin. fold d.
  rewrite sqrt_Fin by lra. js_fin. rewrite div_Fin by lra.
  eexists. split; [reflexivity|]. split.
  - apply Rdiv_lt_0_compat; lra.
  - unfold d in Hq at 3. field_simplify_eq; [|lra]. nra.
Qed.

(** X17: the power balance of the power-only model.  For [kcu > 0] and a
    supply [P > 0] the torque it computes is positive and spends the supply
    exactly: copper loss [kcu * T^2] plus mechanical power [omega_m * T]
    equals [P]; hence the mechanical power never exceeds the supply. *)
Theorem AppOld_power_balance (k w : R) (P : Z) (Hk : 0 < k) (HP : (0 < P)%Z) :
  exists tau, AppOld.Tm (Fin k) (Fin w) P = Fin tau
    /\ 0 < tau
    /\ k * (tau * tau) + w * tau = IZR P
    /\ w * tau <= IZR P.
Proof.
  destruct (AppOld_Tm_positive_root k w P Hk HP) as (tau & E & Ht & Hr).
  exists tau. split; [exact E|]. split; [exact Ht|]. split; [lra|].
  assert (0 <= k * (tau * tau)) by (apply Rmult_le_pos; nra). lra.
Qed.

Lemma AppOld_power_balance_witness :
  exists tau, AppOld.Tm (Fin 2) (Fin 100) 3000 = Fin tau
    /\ 0 < tau
    /\ 2 * (tau * tau) + 100 * tau = IZR 3000
    /\ 100 * tau <= IZR 3000.
Proof. apply (AppOld_power_balance 2 100 3000); [lra | lia]. Defined.

Lemma root_order (k w1 w2 P1 P2 a b : R) :
  0 < k -> 0 < P1 -> 0 < a -> 0 < b ->
  k * (a * a) + w1 * a - P1 = 0 -> k * (b * b) + w2 * b - P2 = 0 ->
  w2 <= w1 -> P1 <= P2 -> a <= b.
Proof.
  intros Hk HP Ha Hb Ea Eb Hw HPP.
  assert (H1 : 0 < k * a + w1).
  { assert (a * (k * a + w1) = P1) by lra.
    destruct (Rlt_or_le 0 (k * a + w1)) as [H0|H0]; [exact H0|].
    assert (a * (k * a + w1) <= 0).
    { rewrite <- (Rmult_0_r a). apply Rmult_le_compat_l; lra. }
    lra. }
  destruct (Rle_or_lt a b) as [H|H]; [exact H|].
  assert (Hkb : 0 < k * b) by (apply Rmult_lt_0_compat; assumption).
  assert (H2 : 0 < (a - b) * (k * (a + b) + w1)) by (apply Rmult_lt_0_compat; lra).
  assert (H3 : w2 * b <= w1 * b) by (apply Rmult_le_compat_r; lra).
  assert (E : (a - b) * (k * (a + b) + w1)
              = (k * (a * a) + w1 * a) - (k * (b * b) + w1 * b)) by ring.
  lra.
Qed.

(** X18: the curves of the power-only model.  For [kcu > 0] the torque does
    not rise with the motor speed and does not fall with the supply limit:
    a faster sample or a smaller supply never gives more torque. *)
Theorem AppOld_torque_monotone (k w1 w2 : R) (P1 P2 : Z)
    (Hk : 0 < k) (HP : (0 < P1)%Z) (Hw : w1 <= w2) (HPP : (P1 <= P2)%Z) :
  (AppOld.Tm (Fin k) (Fin w2) P1 <=? AppOld.Tm (Fin k) (Fin w1) P1)%js = true
  /\ (AppOld.Tm (Fin k) (Fin w1) P1 <=? AppOld.Tm (Fin k) (Fin w1) P2)%js = true.
Proof.
  assert (HP2 : (0 < P2)%Z) by lia.
  destruct (AppOld_Tm_positive_root k w1 P1 Hk HP) as (a & Ea & Ha & Hra).
  destruct (AppOld_Tm_positive_root k w2 P1 Hk HP) as (b & Eb & Hb & Hrb).
  destruct (AppOld_Tm_positive_root k w1 P2 Hk HP2) as (c & Ec & Hc & Hrc).
  pose proof (IZR_lt _ _ HP) as HP'. pose proof (IZR_le _ _ HPP) as HPP'.
  rewrite Ea, Eb, Ec, !le_Fin. split; apply Rleb_true.
  - apply (root_order k w2 w1 (IZR P1) (IZR P1) b a); try assumption; lra.
  - apply (root_order k w1 w1 (IZR P1) (IZR P2) a c); try assumption; lra.
Qed.

Lemma AppOld_torque_monotone_witness :
  (AppOld.Tm (Fin 2) (Fin 200) 450 <=? AppOld.Tm (Fin 2) (Fin 100) 450)%js = true
  /\ (AppOld.Tm (Fin 2) (Fin 100) 450 <=? AppOld.Tm (Fin 2) (Fin 100) 3000)%js
     = true.
Proof.
  apply (AppOld_torque_monotone 2 100 200 450 3000); [lra | lia | lra | lia].
Defined.

Lemma mul_not_finite a b : isFinite a = false -> isFinite (a * b)%js = false.
Proof.
  destruct a as [| | |x]; [| | |discriminate]; intros _;
    destruct b as [| | |y]; cbn [JS.mul isFinite]; try reflexivity;
    destruct (JS.Rsign y); reflexivity.
Qed.

Lemma div_not_finite a b : isFinite a = false -> isFinite (a / b)%js = false.
Proof.
  destruct a as [| | |x]; [| | |discriminate]; intros _;
    destruct b as [| | |y]; cbn [JS.div isFinite]; try reflexivity;
    destruct (JS.Rltb y 0); reflexivity.
Qed.

Lemma AppOld_Tm_degenerate p w P :
  KtR p = 0 \/ RphaseR p = 0 -> isFinite (AppOld.Tm (kcu p) (Fin w) P) = false.
Proof.
  intros H.
  destruct (Req_dec (KtR p) 0) as [Hk|Hk].
  - assert (E : kcu p = NaN \/ kcu p = PInf \/ kcu p = NInf).
    { unfold kcu. js_fin. rewrite Hk. unfold JS.div.
      replace (0 * 0) with 0 by ring. rewrite Rsign_zero.
      destruct (JS.Rsign (3 * RphaseR p)); cbn [JS.inf_of_sign]; auto. }
    unfold AppOld.Tm.
    destruct E as [-> | [-> | ->]]; js_fin; rewrite ?(Rsign_pos 4), ?(Rsign_pos 2) by lra;
      cbn [JS.inf_of_sign CompOpp JS.mul]; try reflexivity;
      destruct (JS.Rsign (IZR P));
      cbn [JS.inf_of_sign CompOpp JS.add JS.sqrt JS.neg JS.div isFinite];
      reflexivity.
  - destruct H as [H|H]; [contradiction|].
    assert (E : kcu p = Fin 0).
    { unfold kcu. js_fin. rewrite H, div_Fin by nra.
      f_equal. unfold Rdiv. ring. }
    unfold AppOld.Tm. rewrite E. js_fin.
    rewrite sqrt_Fin by nra. js_fin.
    unfold JS.div. replace (2 * 0) with 0 by ring. rewrite Rsign_zero.
    destruct (JS.Rsign _); reflexivity.
Qed.

(** X19: the degenerate motor in the power-only model.  With a zero torque
    constant or a zero phase resistance the quadratic has no finite root
    (the code divides by [2 * kcu], or [kcu] itself is not a number), and
    the final guard plots a force of exactly 0 at every speed and for every
    supply. *)
Theorem AppOld_degenerate_motor_plots_zero (p : params) (w : R) (P : Z)
    (H : KtR p = 0 \/ RphaseR p = 0) :
  AppOld.force p (Fin w) P = Fin 0.
Proof.
  unfold AppOld.force.
  pose proof (AppOld_Tm_degenerate p w P H) as E.
  apply (mul_not_finite _ (Fin (gearRatio p))) in E.
  apply (mul_not_finite _ (Fin (gearEff p))) in E.
  apply (div_not_finite _ (JS.max (Fin 1e-9) (Fin (drumRadius p)))) in E.
  apply (mul_not_finite _ LBF_PER_N) in E.
  cbv zeta. rewrite E. reflexivity.
Qed.

Lemma AppOld_degenerate_motor_plots_zero_witness :
  AppOld.force lossless (Fin 600) 3000 = Fin 0.
Proof.
  apply (AppOld_degenerate_motor_plots_zero lossless 600 3000).
  right. unfold RphaseR, RphaseBaseR, lossless. fields. lra.
Defined.
